(** * N-body simulation over MPI (nbody-mpi.c): model and properties

    The program is embedded shallowly.  All arithmetic on C [float]s goes
    through the interface [Arith]; its instance [Binary32.arith] is IEEE
    754 binary32 with round-to-nearest-even, built on the parametric
    [SpecFloat] operations, which is what the compiled program computes.
    The properties of the force kernel are proved for this instance: the
    values of the floats are read as real numbers by [B2R], and every
    operation is shown to return a binary32 neighbour of the exact
    result.  [size_t] values are integers modulo 2^64 with the
    wrap-around written out.

    Conventions of the model:
    - every float operation rounds to binary32 (FLT_EVAL_METHOD 0, no
      fused multiply-add);
    - the conversion of a float to [size_t] truncates; where the
      truncated value is not a [size_t] (infinity, NaN, out of range)
      the result is an unspecified value (C11, F.4), a parameter of the
      instance;
    - an array is the list of its elements and an access outside it is
      undefined behaviour; malloc is taken to succeed, so the asserts on
      its results are left out, and it is given the byte count the code
      computes, sizeof times the element count modulo 2^64, so an array
      holds [malloc_capacity] elements;
    - the processes run in lockstep: one trip of the simulation loop is
      one function of the root's array, the COMPUTE phase of every rank
      evaluated on that rank's copy after MPI_Bcast;
    - stdout is the list of lines printed, each line holding the values
      given to printf; the DEBUG progress bar is compiled out;
    - argv is taken after strtof / strtol, rand() as the sequence of its
      results, and libm's cosf and sinf as parameters. *)

From Stdlib Require Import ZArith List Bool Lia QArith Qround Qabs Reals Lra.
From Stdlib Require Import Floats.SpecFloat.
Import ListNotations.
Open Scope Z_scope.

(** ** Arithmetic interface *)

Class Arith (F : Type) : Type := {
  of_Z : Z -> F;               (* (float) n, also the literals 0.0f 1.0f 2.0f *)
  fadd : F -> F -> F;
  fsub : F -> F -> F;
  fmul : F -> F -> F;
  fdiv : F -> F -> F;
  fsqrt : F -> F;              (* sqrtf *)
  to_size_t : F -> option Z;   (* (size_t) x; None when the arithmetic gives it no value *)
  cosf : F -> F;
  sinf : F -> F;
  mul_pi_add : F -> F -> F     (* (float) ((double) a * M_PI + (double) b) *)
}.

Declare Scope fl_scope.
Delimit Scope fl_scope with fl.
Infix "+" := fadd : fl_scope.
Infix "-" := fsub : fl_scope.
Infix "*" := fmul : fl_scope.
Infix "/" := fdiv : fl_scope.

Definition f0 {F} `{Arith F} : F := of_Z 0.
Definition f1 {F} `{Arith F} : F := of_Z 1.
Definition f2 {F} `{Arith F} : F := of_Z 2.
Definition fhalf {F} `{Arith F} : F := (f1 / f2)%fl.

(** ** IEEE 754 binary32 *)

Module Binary32.

Definition prec : Z := 24.
Definition emax : Z := 128.

Definition float32 : Type := spec_float.

Definition add : float32 -> float32 -> float32 := SFadd prec emax.
Definition sub : float32 -> float32 -> float32 := SFsub prec emax.
Definition mul : float32 -> float32 -> float32 := SFmul prec emax.
Definition div : float32 -> float32 -> float32 := SFdiv prec emax.
Definition sqrt : float32 -> float32 := SFsqrt prec emax.

(** Integer to float, rounding to nearest. *)
Definition of_int (n : Z) : float32 := binary_normalize prec emax n 0 false.

(** Float to [size_t] (C11 6.3.1.4): the fractional part is discarded.
    When the integral part is not representable (also for infinities
    and NaN) the conversion is invalid and yields an unspecified value
    (C11 F.4): [unspecified] is what the implementation yields, taken
    modulo 2^64. *)
Definition integral_part (m : positive) (e : Z) : Z :=
  match e with
  | Z0 => Zpos m
  | Zpos _ => Z.shiftl (Zpos m) e
  | Zneg p => Z.shiftr (Zpos m) (Zpos p)
  end.

Definition to_size (unspecified : float32 -> Z) (x : float32) : option Z :=
  match x with
  | S754_zero _ => Some 0
  | S754_finite s m e =>
      let t := integral_part m e in
      if s then (if t =? 0 then Some 0 else Some (unspecified x mod 2 ^ 64))
      else if t <? 2 ^ 64 then Some t else Some (unspecified x mod 2 ^ 64)
  | _ => Some (unspecified x mod 2 ^ 64)
  end.

(** binary64, used where the source mixes in the [double] constant M_PI. *)
Definition dprec : Z := 53.
Definition demax : Z := 1024.

Definition to_double (x : float32) : spec_float :=
  match x with
  | S754_finite s m e => binary_normalize dprec demax (cond_Zopp s (Zpos m)) e false
  | _ => x
  end.

Definition to_float (d : spec_float) : float32 :=
  match d with
  | S754_finite s m e => binary_normalize prec emax (cond_Zopp s (Zpos m)) e false
  | _ => d
  end.

(* M_PI = 0x1.921fb54442d18p+1 *)
Definition M_PI : spec_float := S754_finite false 7074237752028440 (-51).

Definition pi_add (a b : float32) : float32 :=
  to_float (SFadd dprec demax (SFmul dprec demax (to_double a) M_PI) (to_double b)).

Definition is_finite (x : float32) : bool :=
  match x with
  | S754_zero _ | S754_finite _ _ _ => true
  | _ => false
  end.

(** The rational value of a finite float. *)
Definition value (x : float32) : Q :=
  match x with
  | S754_finite s m (Zneg p) => Qmake (cond_Zopp s (Zpos m)) (Pos.pow 2 p)
  | S754_finite s m e => inject_Z (cond_Zopp s (Zpos m) * 2 ^ e)
  | _ => 0%Q
  end.

(** libm's [cosf] and [sinf] are not fixed by IEEE 754, nor is the
    result of an invalid conversion: they are parameters of the
    instance. *)
Definition arith (libm_cosf libm_sinf : float32 -> float32)
    (unspecified : float32 -> Z) : Arith float32 := {|
  of_Z := of_int;
  fadd := add; fsub := sub; fmul := mul; fdiv := div;
  fsqrt := sqrt;
  to_size_t := to_size unspecified;
  cosf := libm_cosf; sinf := libm_sinf;
  mul_pi_add := pi_add
|}.

End Binary32.

(** ** Machine integers and arrays *)

(** [size_t] is 64 bits wide; unsigned arithmetic wraps. *)
Definition wrap (n : Z) : Z := n mod 2 ^ 64.

(** An array is the list of its elements; an access outside the
    allocation has no defined result. *)
Definition load {A : Type} (a : list A) (i : Z) : option A :=
  if i <? 0 then None else nth_error a (Z.to_nat i).

Fixpoint store_nat {A : Type} (a : list A) (n : nat) (v : A) : option (list A) :=
  match a, n with
  | [], _ => None
  | _ :: t, O => Some (v :: t)
  | h :: t, S n' =>
      match store_nat t n' v with
      | Some t' => Some (h :: t')
      | None => None
      end
  end.

Definition store {A : Type} (a : list A) (i : Z) (v : A) : option (list A) :=
  if i <? 0 then None else store_nat a (Z.to_nat i) v.

(** malloc(size * count) for an array of elements of [size] bytes: the
    byte count is computed in [size_t] and wraps, and the block holds
    the whole elements that fit in it.  malloc is taken to succeed. *)
Definition malloc_capacity (size count : Z) : Z := wrap (size * count) / size.

Definition sizeof_body_t : Z := 28.   (* seven floats, no padding *)
Definition sizeof_float : Z := 4.

(** The indices [start, start+1, ...] of a counted loop of [n] trips. *)
Definition indices (start : Z) (n : nat) : list Z :=
  map (fun k => start + Z.of_nat k) (seq 0 n).

Definition EXIT_SUCCESS : Z := 0.
Definition EXIT_FAILURE : Z := 1.

(** ** The program *)

Section Simulation.

Context {F : Type} {AF : Arith F}.

(* typedef struct _body { float x, y; float ax, ay; float vx, vy; float mass; } body_t; *)
Record body_t : Type := mk_body {
  x : F; y : F;
  ax : F; ay : F;
  vx : F; vy : F;
  mass : F
}.

(** *** Initial conditions *)

(** [rand n] is the value returned by the n-th call of libc's rand(). *)
Variable rand : nat -> Z.
Variable RAND_MAX : Z.

Definition Default_Debug_Acceleration_Scale : F := of_Z 100.

(* return (float) rand() / (float) RAND_MAX; *)
Definition unit_random (call : nat) : F :=
  (of_Z (rand call) / of_Z RAND_MAX)%fl.

(** One trip of the loop of generate_debug_data; it calls rand() five
    times, [call] being the number of calls made before. *)
Definition generate_body (initial_body_mass debug_acceleration_scale : F)
    (body_count i : Z) (call : nat) : body_t :=
  let angle :=
    mul_pi_add (of_Z i / of_Z body_count * f2)%fl
               ((unit_random call - fhalf) * fhalf)%fl in
  let body_x := unit_random (call + 1) in
  let body_y := unit_random (call + 2) in
  let body_mass := (initial_body_mass * (unit_random (call + 3) + fhalf))%fl in
  let random := unit_random (call + 4) in
  {| x := body_x; y := body_y;
     ax := f0; ay := f0;
     vx := (cosf angle * debug_acceleration_scale * random)%fl;
     vy := (sinf angle * debug_acceleration_scale * random)%fl;
     mass := body_mass |}.

Definition generate_debug_data (initial_body_mass debug_acceleration_scale : F)
    (body_count : Z) : list body_t :=
  map (fun i : nat =>
         generate_body initial_body_mass debug_acceleration_scale
                       body_count (Z.of_nat i) (5 * i))
      (seq 0 (Z.to_nat body_count)).

(** *** Force kernel and integrator *)

Section Kernel.

(* static float simulation_softening_length_squared; *)
Variable simulation_softening_length_squared : F.

Definition calculate_newton_gravity_acceleration
    (first_body second_body : body_t) : F * F :=
  let ax0 := f0 in
  let ay0 := f0 in
  let galactic_plane_r_x := (x second_body - x first_body)%fl in
  let galactic_plane_r_y := (y second_body - y first_body)%fl in
  let distance_squared :=
    ((galactic_plane_r_x * galactic_plane_r_x +
      galactic_plane_r_y * galactic_plane_r_y) +
     simulation_softening_length_squared)%fl in
  let distance_squared_cubed :=
    (distance_squared * distance_squared * distance_squared)%fl in
  let inverse := (f1 / fsqrt distance_squared_cubed)%fl in
  let scale := (mass second_body * inverse)%fl in
  ((ax0 + galactic_plane_r_x * scale)%fl,
   (ay0 + galactic_plane_r_y * scale)%fl).

(** The loop over [j] of main: the sum over the whole array, the
    element at the address of [first_body] skipped. *)
Fixpoint accumulate (bodies : list body_t) (i : Z) (first_body : body_t)
    (js : list Z) (total : F * F) : option (F * F) :=
  match js with
  | [] => Some total
  | j :: js' =>
      if j =? i then accumulate bodies i first_body js' total
      else
        match load bodies j with
        | None => None
        | Some second_body =>
            let '(a_x, a_y) :=
              calculate_newton_gravity_acceleration first_body second_body in
            accumulate bodies i first_body js'
                       ((fst total + a_x)%fl, (snd total + a_y)%fl)
        end
  end.

Definition total_acceleration (bodies : list body_t) (body_count i : Z)
    (first_body : body_t) : option (F * F) :=
  accumulate bodies i first_body (indices 0 (Z.to_nat body_count)) (f0, f0).

End Kernel.

Definition integrate (body : body_t) (delta_time : F) : body_t :=
  let vx' := (vx body + ax body * delta_time)%fl in
  let vy' := (vy body + ay body * delta_time)%fl in
  let x' := (x body + vx' * delta_time)%fl in
  let y' := (y body + vy' * delta_time)%fl in
  {| x := x'; y := y'; ax := ax body; ay := ay body;
     vx := vx'; vy := vy'; mass := mass body |}.

End Simulation.

Arguments body_t F : clear implicits.
Arguments mk_body {F}.

(** *** Process state, output and collectives *)

(** What one printf call of the program writes. *)
Inductive line (F : Type) : Type :=
| Lcount (n : Z)        (* "%zu\n" *)
| Lfloat (v : F)        (* "%f\n" *)
| Lpair (a b : F).      (* "%f %f\n" *)

Arguments Lcount {F}.
Arguments Lfloat {F}.
Arguments Lpair {F}.

(** What a process does that can be observed, in program order. *)
Inductive event (F : Type) : Type :=
| Usage                 (* the usage message, on stderr *)
| Generate (n : Z)      (* the call generate_debug_data(bodies, n) *)
| Print (l : line F)    (* a line on stdout *)
| Step (k : Z).         (* the k-th trip of the simulation loop *)

Arguments Usage {F}.
Arguments Generate {F}.
Arguments Print {F}.
Arguments Step {F}.

Inductive status : Type :=
| Exited (code : Z)     (* return from main *)
| Aborted               (* a failed assert *)
| Undefined.            (* undefined behaviour: the program has no meaning *)

Record result (F : Type) : Type := mk_result {
  exit_status : status;
  trace : list (event F);
  final_bodies : list (body_t F);
  final_accelerations : list F
}.

Arguments mk_result {F}.
Arguments exit_status {F}.
Arguments trace {F}.
Arguments final_bodies {F}.
Arguments final_accelerations {F}.

Definition stdout {F : Type} (t : list (event F)) : list (line F) :=
  flat_map (fun e => match e with Print l => [l] | _ => [] end) t.

Definition steps {F : Type} (t : list (event F)) : list Z :=
  flat_map (fun e => match e with Step k => [k] | _ => [] end) t.

Definition generations {F : Type} (t : list (event F)) : list Z :=
  flat_map (fun e => match e with Generate n => [n] | _ => [] end) t.

(* argv, already converted by strtof / strtol, and the MPI world *)
Record config (F : Type) : Type := mk_config {
  argc : Z;
  time_period : F;               (* argv[1] *)
  delta_time : F;                (* argv[2] *)
  body_count : Z;                (* (size_t) argv[3] *)
  initial_body_mass : F;         (* argv[4] *)
  softening_length : F;          (* argv[5] *)
  argv6 : F;                     (* argv[6], read when argc > 6 *)
  world_size : Z                 (* MPI_Comm_size *)
}.

Arguments mk_config {F}.
Arguments argc {F}.
Arguments time_period {F}.
Arguments delta_time {F}.
Arguments body_count {F}.
Arguments initial_body_mass {F}.
Arguments softening_length {F}.
Arguments argv6 {F}.
Arguments world_size {F}.

Section Main.

Context {F : Type} {AF : Arith F}.

Abbreviation body := (body_t F).

(** sub_bodies[sub_i] = *first_body with .ax and .ay overwritten *)
Definition with_acceleration (first_body : body) (total_ax total_ay : F) : body :=
  {| x := x first_body; y := y first_body;
     ax := total_ax; ay := total_ay;
     vx := vx first_body; vy := vy first_body;
     mass := mass first_body |}.

(** The bounds of the loop over [i] in the process of rank [rank]. *)
Definition partition_begin (rank bodies_per_process : Z) : Z :=
  wrap (rank * bodies_per_process).

Definition partition_end (n bodies_per_process begin : Z) : Z :=
  let e := wrap (begin + bodies_per_process - 1) in
  if e >=? n then wrap (n - 1) else e.

(** for (i = begin, sub_i = 0; i <= end; ++i, ++sub_i): the number of
    trips.  (With end = 2^64 - 1 the test never fails; the trips past
    the end of the array are undefined in any case.) *)
Definition partition_trips (begin e : Z) : nat :=
  if begin <=? e then Z.to_nat (e - begin + 1) else O.

(** The indices that loop visits in the process of rank [rank] out of
    [w], for [n] bodies. *)
Definition partition_indices (n w rank : Z) : list Z :=
  let bodies_per_process := n / w in
  let begin := partition_begin rank bodies_per_process in
  let e := partition_end n bodies_per_process begin in
  indices begin (partition_trips begin e).

Section Compute.

Variable simulation_softening_length_squared : F.
Variable n : Z.                      (* body_count *)
Variable bodies_per_process : Z.
Variable bodies : list body.         (* this process's array after MPI_Bcast *)

(* sub_bodies = malloc(sizeof(body_t) * bodies_per_process) *)
Fixpoint force_loop (trips : nat) (i sub_i : Z) (sub_bodies : list body)
    : option (list body) :=
  match trips with
  | O => Some sub_bodies
  | S trips' =>
      match load bodies i with
      | None => None
      | Some first_body =>
          match total_acceleration simulation_softening_length_squared
                                   bodies n i first_body with
          | None => None
          | Some (total_ax, total_ay) =>
              if sub_i <? malloc_capacity sizeof_body_t bodies_per_process then
                force_loop trips' (wrap (i + 1)) (wrap (sub_i + 1))
                  (sub_bodies ++ [with_acceleration first_body total_ax total_ay])
              else None
          end
      end
  end.

(** The COMPUTE phase of one process: its send buffer, which
    MPI_Gather reads in full (a buffer the loop has not filled holds
    indeterminate elements). *)
Definition compute (rank : Z) : option (list body) :=
  let begin := partition_begin rank bodies_per_process in
  let e := partition_end n bodies_per_process begin in
  match force_loop (partition_trips begin e) begin 0 [] with
  | Some sub_bodies =>
      if Z.of_nat (length sub_bodies) =? bodies_per_process
      then Some sub_bodies else None
  | None => None
  end.

End Compute.

(** The count parameters of the MPI calls are [int]s; a [size_t] that
    does not fit is outside the model. *)
Definition int_of_size (n : Z) : option Z :=
  if n <? 2 ^ 31 then Some n else None.

(** MPI_Bcast(bodies, body_count, ..., 0, ...): the array of the process
    of rank [rank] afterwards.  The root keeps its array; another
    process holds the first [count] elements of it (the rest of its
    allocation was never written). *)
Definition MPI_Bcast (root_bodies : list body) (count rank : Z)
    : option (list body) :=
  match int_of_size count with
  | None => None
  | Some cnt =>
      if rank =? 0 then Some root_bodies
      else Some (firstn (Z.to_nat cnt) root_bodies)
  end.

(** MPI_Gather(sub_bodies, count, ..., bodies, count, ..., 0, ...): the
    send buffers, [count] elements each and in rank order, overwrite
    the start of the root's array. *)
Definition MPI_Gather (send : list (list body)) (count : Z)
    (root_bodies : list body) : option (list body) :=
  match int_of_size count with
  | None => None
  | Some cnt =>
      let received := concat (map (firstn (Z.to_nat cnt)) send) in
      if (length received <=? length root_bodies)%nat
      then Some (received ++ skipn (length received) root_bodies)
      else None
  end.

Fixpoint all_some {A : Type} (l : list (option A)) : option (list A) :=
  match l with
  | [] => Some []
  | None :: _ => None
  | Some a :: t =>
      match all_some t with
      | Some t' => Some (a :: t')
      | None => None
      end
  end.

(** The loop of rank 0 after the gather: integrate every body and
    record its acceleration. *)
Fixpoint integrate_loop (delta_time : F) (capacity : Z) (idx : list Z)
    (bodies : list body) (accelerations : list F)
    : option (list body * list F) :=
  match idx with
  | [] => Some (bodies, accelerations)
  | i :: idx' =>
      match load bodies i with
      | None => None
      | Some b =>
          let b' := integrate b delta_time in
          match store bodies i b' with
          | None => None
          | Some bodies' =>
              if Z.of_nat (length accelerations) + 1 <? capacity then
                integrate_loop delta_time capacity idx' bodies'
                               (accelerations ++ [ax b'; ay b'])
              else None
          end
      end
  end.

(** One trip of the simulation loop, all processes in lockstep. *)
Definition iteration (c : config F) (simulation_softening_length_squared : F)
    (bodies_per_process accelerations_capacity : Z)
    (st : list body * list F) : option (list body * list F) :=
  let '(bodies, accelerations) := st in
  let computed rank :=
    match MPI_Bcast bodies (body_count c) rank with
    | None => None
    | Some view =>
        compute simulation_softening_length_squared (body_count c)
                bodies_per_process view rank
    end in
  match all_some (map computed (indices 0 (Z.to_nat (world_size c)))) with
  | None => None
  | Some send =>
      match MPI_Gather send bodies_per_process bodies with
      | None => None
      | Some gathered =>
          integrate_loop (delta_time c) accelerations_capacity
                         (indices 0 (Z.to_nat (body_count c)))
                         gathered accelerations
      end
  end.

Fixpoint simulation_loop (c : config F) (simulation_softening_length_squared : F)
    (bodies_per_process accelerations_capacity : Z) (trips : nat)
    (st : list body * list F) : option (list body * list F) :=
  match trips with
  | O => Some st
  | S trips' =>
      match iteration c simulation_softening_length_squared
                      bodies_per_process accelerations_capacity st with
      | None => None
      | Some st' =>
          simulation_loop c simulation_softening_length_squared
                          bodies_per_process accelerations_capacity trips' st'
      end
  end.

(** The four printf lines of one body record. *)
Definition body_record (b : body) : list (line F) :=
  [Lpair (x b) (y b); Lpair (ax b) (ay b); Lpair (vx b) (vy b); Lfloat (mass b)].

Fixpoint print_bodies (bodies : list body) (idx : list Z) : option (list (line F)) :=
  match idx with
  | [] => Some []
  | i :: idx' =>
      match load bodies i, print_bodies bodies idx' with
      | Some b, Some rest => Some (body_record b ++ rest)
      | _, _ => None
      end
  end.

(** The float array [a0; a1; a2; a3; ...] as the lines "a0 a1", "a2 a3", ... *)
Fixpoint pair_lines (accelerations : list F) : list (line F) :=
  match accelerations with
  | a :: b :: rest => Lpair a b :: pair_lines rest
  | _ => []
  end.

(** for (i = 0; i < acceleration_entries; i += 2) printf(...) *)
Fixpoint print_accelerations (accelerations : list F) (trips : nat) (i : Z)
    : option (list (line F)) :=
  match trips with
  | O => Some []
  | S trips' =>
      match load accelerations i, load accelerations (i + 1),
            print_accelerations accelerations trips' (wrap (i + 2)) with
      | Some a, Some b, Some rest => Some (Lpair a b :: rest)
      | _, _, _ => None
      end
  end.

Definition accelerations_trips (acceleration_entries : Z) : nat :=
  Z.to_nat ((acceleration_entries + 1) / 2).

Definition undefined (t : list (event F)) : result F :=
  mk_result Undefined t [] [].

(* size_t mpi_body_count = body_count + (body_count % world_size ? ... : 0); *)
Definition mpi_body_count (c : config F) : Z :=
  let n := body_count c in
  wrap (n + (if n mod world_size c =? 0 then 0
             else wrap (world_size c - n mod world_size c))).

(** main from line 172 on, in the process of rank [rank], given what
    generate_debug_data computes for the array of rank 0.  The array
    [bodies] holds [bodies_capacity] elements: generate_debug_data
    writes [body_count] of them, so a smaller array is overrun.  (The
    array of another rank is written by MPI_Bcast only, whose count is
    below 2^31 and fits.) *)
Definition main_from (c : config F) (initial : list body) (rank : Z) : result F :=
  let n := body_count c in
  let simulation_softening_length_squared :=
    (softening_length c * softening_length c)%fl in
  let bodies_capacity := malloc_capacity sizeof_body_t (mpi_body_count c) in
  match to_size_t (time_period c / delta_time c)%fl with
  | None => undefined []
  | Some iterations =>
      let acceleration_entries := wrap (wrap (iterations * n) * 2) in
      let accelerations_capacity :=
        malloc_capacity sizeof_float acceleration_entries in
      match (if rank =? 0 then
               if n <=? bodies_capacity then
                 match print_bodies initial (indices 0 (Z.to_nat n)) with
                 | Some records =>
                     Some (Generate n ::
                           map Print (Lcount n :: Lfloat (time_period c)
                                      :: Lfloat (delta_time c) :: records))
                 | None => None
                 end
               else None
             else Some []) with
      | None => undefined [Generate n]
      | Some prologue =>
          if negb (n mod world_size c =? 0) then
            mk_result Aborted prologue (if rank =? 0 then initial else []) []
          else
            let bodies_per_process := n / world_size c in
            match simulation_loop c simulation_softening_length_squared
                    bodies_per_process accelerations_capacity
                    (Z.to_nat iterations) (initial, []) with
            | None => undefined prologue
            | Some (bodies, accelerations) =>
                let loop_events := map Step (indices 0 (Z.to_nat iterations)) in
                if rank =? 0 then
                  match print_accelerations accelerations
                          (accelerations_trips acceleration_entries) 0 with
                  | None => undefined (prologue ++ loop_events)
                  | Some history =>
                      mk_result (Exited EXIT_SUCCESS)
                                (prologue ++ loop_events ++ map Print history)
                                bodies accelerations
                  end
                else mk_result (Exited EXIT_SUCCESS) loop_events [] []
            end
      end
  end.

Variable rand : nat -> Z.
Variable RAND_MAX : Z.

Definition main (c : config F) (rank : Z) : result F :=
  if argc c <? 6 then mk_result (Exited EXIT_FAILURE) [Usage] [] []
  else
    let debug_acceleration_scale :=
      if argc c >? 6 then argv6 c else Default_Debug_Acceleration_Scale in
    main_from c
      (generate_debug_data rand RAND_MAX (initial_body_mass c)
                           debug_acceleration_scale (body_count c))
      rank.

End Main.

(** ** Vocabulary of the properties *)

Section Vocabulary.

Context {F : Type} {AF : Arith F}.

Abbreviation body := (body_t F).

(** What the COMPUTE phase stores for the body of index [i]. *)
Definition force_on (s2 : F) (n : Z) (bodies : list body) (i : Z) : option body :=
  match load bodies i with
  | None => None
  | Some first_body =>
      match total_acceleration s2 bodies n i first_body with
      | None => None
      | Some (total_ax, total_ay) =>
          Some (with_acceleration first_body total_ax total_ay)
      end
  end.

(** The gathered array: every body with its freshly computed
    acceleration, whatever the number of processes. *)
Definition forces (s2 : F) (n : Z) (bodies : list body) : option (list body) :=
  all_some (map (force_on s2 n bodies) (indices 0 (Z.to_nat n))).

(** [b'] is [b] with another acceleration. *)
Definition reaccelerated (b b' : body) : Prop :=
  exists total_ax total_ay, b' = with_acceleration b total_ax total_ay.

(** The acceleration pairs appended to the history in one iteration. *)
Definition recorded (bodies : list body) : list F :=
  flat_map (fun b => [ax b; ay b]) bodies.

(** The lines of Phase 1. *)
Definition snapshot (c : config F) (initial : list body) : list (line F) :=
  Lcount (body_count c) :: Lfloat (time_period c) :: Lfloat (delta_time c)
  :: flat_map body_record initial.

(** The configuration [c] run on a single process. *)
Definition on_one_process (c : config F) : config F :=
  mk_config (argc c) (time_period c) (delta_time c) (body_count c)
            (initial_body_mass c) (softening_length c) (argv6 c) 1.

Variable rand : nat -> Z.
Variable RAND_MAX : Z.

(** The array generate_debug_data fills for the configuration [c]. *)
Definition generated (c : config F) : list (body_t F) :=
  generate_debug_data rand RAND_MAX (initial_body_mass c)
    (if argc c >? 6 then argv6 c else Default_Debug_Acceleration_Scale)
    (body_count c).

End Vocabulary.

(** The kernel's result has two finite components. *)
Definition kernel_finite (a : Binary32.float32 * Binary32.float32) : bool :=
  Binary32.is_finite (fst a) && Binary32.is_finite (snd a).

(** ** Binary32 values as real numbers *)

(** The real number 2^e, the value m * 2^e and the value of a float
    (infinities and NaN are given the value 0; the properties use
    [B2R] on finite floats only). *)
Definition bpow (e : Z) : R := powerRZ 2 e.

Definition F2R (m e : Z) : R := (IZR m * bpow e)%R.

Definition B2R (x : Binary32.float32) : R :=
  match x with
  | S754_finite s m e => F2R (cond_Zopp s (Zpos m)) e
  | _ => 0%R
  end.

(** The non-negative binary32 numbers, 2^128 included: a mantissa below
    2^24 with the exponent -149, or a mantissa in [2^23, 2^24) with a
    larger exponent. *)
Definition canonical (m e : Z) : Prop :=
  0 <= m < 2 ^ 24 /\ -149 <= e /\ (-149 < e -> 2 ^ 23 <= m).

(** The float a rounded mantissa and exponent stand for: a zero, a
    finite number, or an infinity from the exponent 105 on. *)
Definition finish (s : bool) (m e : Z) : Binary32.float32 :=
  match m with
  | Z0 => S754_zero s
  | Zpos p => if e <=? 104 then S754_finite s p e else S754_infinity s
  | Zneg _ => S754_nan
  end.

(** [z] is the non-negative real [x], with the sign [s], rounded to one
    of its two binary32 neighbours (to itself if it is one). *)
Definition rounds (s : bool) (x : R) (z : Binary32.float32) : Prop :=
  exists m1 e1 m3 e3,
    canonical m1 e1 /\ canonical m3 e3 /\
    (F2R m1 e1 <= x < F2R (m1 + 1) e1)%R /\
    (F2R m3 e3 = F2R m1 e1 \/
     (F2R m3 e3 = F2R (m1 + 1) e1 /\ (F2R m1 e1 < x)%R)) /\
    z = finish s m3 e3.

Definition sgn (s : bool) : R := if s then (-1)%R else 1%R.

(** A finite float with a full 24-bit mantissa. *)
Definition is_normal (x : Binary32.float32) : bool :=
  match x with
  | S754_finite _ m _ => 2 ^ 23 <=? Zpos m
  | _ => false
  end.

Definition is_zero (v : Binary32.float32) : bool :=
  match v with S754_zero _ => true | _ => false end.

(** A zero or a valid finite number. *)
Definition regular (x : Binary32.float32) : bool :=
  Binary32.is_finite x && valid_binary Binary32.prec Binary32.emax x.

(** 1 / (1 - 2^-23): the largest factor one rounding puts on a normal
    result. *)
Definition W : R := (8388608 / 8388607)%R.

(** The sum of two finite floats: either it is exactly zero, or the
    result is the rounding of the exact sum, a multiple of 2^-149. *)
Definition sum_rounds (S : R) (z : Binary32.float32) : Prop :=
  (S = 0%R /\ z = S754_zero false) \/
  (exists (s : bool) (N : Z),
      0 < N /\ S = (sgn s * F2R N (-149))%R /\ rounds s (F2R N (-149)) z).

(** [z] is the real [E] rounded to binary32. *)
Definition result_of (E : R) (z : Binary32.float32) : Prop :=
  (E = 0%R /\ exists s, z = S754_zero s) \/
  (E <> 0%R /\ exists s, E = (sgn s * Rabs E)%R /\ rounds s (Rabs E) z).

(** A regular float of magnitude at most 2^k. *)
Definition within (k : Z) (v : Binary32.float32) : Prop :=
  regular v = true /\ (Rabs (B2R v) <= bpow k)%R.

(** [a] is [b] up to [n] roundings: a = b * rho with rho between W^-n
    and W^n. *)
Definition approx (n : nat) (a b : R) : Prop :=
  exists rho, a = (b * rho)%R /\ (/ W ^ n <= rho <= W ^ n)%R.

(** The formula of the design over the reals: the acceleration
    m / d2^1.5 * r with r = B - A and d2 = |r|^2 + eps2. *)
Definition newton_acceleration (eps2 xa ya xb yb m : R) : R * R :=
  let r_x := (xb - xa)%R in
  let r_y := (yb - ya)%R in
  let d2 := (r_x * r_x + r_y * r_y + eps2)%R in
  ((m / Rpower d2 (3 / 2) * r_x)%R, (m / Rpower d2 (3 / 2) * r_y)%R).

(** A product that is rounded with the full precision, or has a zero
    factor. *)
Definition product_in_range (u v : Binary32.float32) : bool :=
  is_normal (Binary32.mul u v) || is_zero u || is_zero v.

(** No intermediate result of the kernel overflows, and none is rounded
    with less than the full precision: the differences and the sums are
    finite (a subnormal sum is exact), the products and the quotient are
    normal or have a zero factor. *)
Definition kernel_in_range (eps2 : Binary32.float32)
    (A B : body_t Binary32.float32) : bool :=
  let r_x := Binary32.sub (x B) (x A) in
  let r_y := Binary32.sub (y B) (y A) in
  let s := Binary32.add (Binary32.mul r_x r_x) (Binary32.mul r_y r_y) in
  let d2 := Binary32.add s eps2 in
  let d4 := Binary32.mul d2 d2 in
  let d6 := Binary32.mul d4 d2 in
  let divisor := Binary32.sqrt d6 in
  let inverse := Binary32.div (Binary32.of_int 1) divisor in
  let scale := Binary32.mul (mass B) inverse in
  regular r_x && regular r_y &&
  product_in_range r_x r_x && product_in_range r_y r_y &&
  regular s && regular d2 && is_normal d4 && is_normal d6 &&
  is_normal divisor && is_normal inverse &&
  product_in_range (mass B) inverse &&
  product_in_range r_x scale && product_in_range r_y scale.

(** The two-body scenario: masses 1, at rest at (0,0) and (1,0). *)
Module TwoBody.

Import Binary32.

Definition centi : float32 := div (of_int 1) (of_int 100).        (* 0.01f *)
Definition myriadth : float32 := div (of_int 1) (of_int 10000).   (* 0.0001f *)
Definition one : float32 := of_int 1.
Definition zero : float32 := of_int 0.
Definition minus_one : float32 := of_int (-1).

Definition initial : list (body_t float32) :=
  [ mk_body zero zero zero zero zero zero one;
    mk_body one zero zero zero zero zero one ].

(* time_period = delta_time = 0.01: one iteration; softening length 0 *)
Definition scenario (w : Z) : config float32 :=
  mk_config 6 centi centi 2 one zero zero w.

End TwoBody.

(** Small configurations, for concrete runs. *)
Module Concrete.

Import Binary32.

(** A binary32 instance for concrete runs; the two libm functions only
    enter the initial velocities. *)
Definition AF : Arith float32 := Binary32.arith (fun v => v) (fun v => v) (fun _ => 0).

Definition rand0 : nat -> Z := fun _ => 0.
Definition RAND_MAX : Z := 2147483647.

Definition one : float32 := of_int 1.
Definition two : float32 := of_int 2.
Definition three : float32 := of_int 3.

(* ./nbody 1 1 3 1 1 on two processes *)
Definition indivisible : config float32 := mk_config 6 one one 3 one one one 2.
(* ./nbody 1 2 2 1 1 on one process *)
Definition long_step : config float32 := mk_config 6 one two 2 one one one 1.
(* ./nbody 2 1 1 1 1 on one process *)
Definition sole : config float32 := mk_config 6 two one 1 one one one 1.
(* ./nbody 3 1 2 1 1 on two processes *)
Definition pair : config float32 := mk_config 6 three one 2 one one one 2.
(* time_period 5 + 2^-21, delta_time 1 + 2^-23, one body, one process *)
Definition near_five : config float32 :=
  mk_config 6 (S754_finite false 10485761 (-21)) (S754_finite false 8388609 (-23))
            1 one one one 1.
(* ./nbody 0.7 0.1 1 1 1 on one process *)
Definition seven_tenths : config float32 :=
  mk_config 6 (div (of_int 7) (of_int 10)) (div (of_int 1) (of_int 10))
            1 one one one 1.

End Concrete.

(** Configurations at the edges of the input domain. *)
Module Edge.

Import Binary32.

(* ./nbody 4611686018427387904 1 4 1 1 on one process *)
Definition huge_period : config float32 :=
  mk_config 6 (of_int (2 ^ 62)) (of_int 1) 4 (of_int 1) (of_int 1) (of_int 1) 1.
(* ./nbody 1 1 0 1 1 on two processes *)
Definition no_bodies : config float32 :=
  mk_config 6 (of_int 1) (of_int 1) 0 (of_int 1) (of_int 1) (of_int 1) 2.
(* ./nbody 2305843009213693952 1 1 1 1 on one process *)
Definition huge_history : config float32 :=
  mk_config 6 (of_int (2 ^ 61)) (of_int 1) 1 (of_int 1) (of_int 1) (of_int 1) 1.
(* ./nbody 1 2 4611686018427387904 1 1 on one process *)
Definition huge_body_count : config float32 :=
  mk_config 6 (of_int 1) (of_int 2) (2 ^ 62) (of_int 1) (of_int 1) (of_int 1) 1.

End Edge.

(** * Properties *)

(** ** Arrays and counted loops *)

Lemma indices_length (s : Z) (n : nat) : length (indices s n) = n.
Proof. unfold indices. now rewrite length_map, length_seq. Qed.

Lemma indices_S (s : Z) (n : nat) :
  indices s (S n) = s :: indices (s + 1) n.
Proof.
  unfold indices. cbn [seq map]. rewrite Z.add_0_r. f_equal.
  rewrite <- seq_shift, map_map. apply map_ext. intros k. lia.
Qed.

Lemma indices_app (s : Z) (n m : nat) :
  indices s (n + m) = indices s n ++ indices (s + Z.of_nat n) m.
Proof.
  revert s. induction n as [|n IH]; intros s.
  - cbn. now rewrite Z.add_0_r.
  - cbn [Nat.add]. rewrite !indices_S, IH. cbn [app]. do 3 f_equal. lia.
Qed.

Lemma in_indices (s i : Z) (n : nat) :
  In i (indices s n) <-> s <= i < s + Z.of_nat n.
Proof.
  unfold indices. rewrite in_map_iff. split.
  - intros (k & <- & Hk). apply in_seq in Hk. lia.
  - intros Hi. exists (Z.to_nat (i - s)). split; [lia|]. apply in_seq. lia.
Qed.

Lemma load_app_here {A : Type} (l1 l2 : list A) (v : A) :
  load (l1 ++ v :: l2) (Z.of_nat (length l1)) = Some v.
Proof.
  unfold load. destruct (Z.ltb_spec (Z.of_nat (length l1)) 0); [lia|].
  rewrite Nat2Z.id, nth_error_app2 by lia. now rewrite Nat.sub_diag.
Qed.

Lemma load_in_range {A : Type} (a : list A) (i : Z) :
  0 <= i < Z.of_nat (length a) -> exists v, load a i = Some v.
Proof.
  intros Hi. unfold load. destruct (Z.ltb_spec i 0); [lia|].
  destruct (nth_error a (Z.to_nat i)) eqn:E; [eauto|].
  apply nth_error_None in E. lia.
Qed.

Lemma load_None {A : Type} (a : list A) (i : Z) :
  Z.of_nat (length a) <= i -> load a i = None.
Proof.
  intros Hi. unfold load. destruct (Z.ltb_spec i 0); [easy|].
  apply nth_error_None. lia.
Qed.

Lemma store_nat_app_here {A : Type} (l1 l2 : list A) (v w : A) :
  store_nat (l1 ++ v :: l2) (length l1) w = Some (l1 ++ w :: l2).
Proof.
  induction l1 as [|h t IH]; cbn; [easy|]. now rewrite IH.
Qed.

Lemma store_app_here {A : Type} (l1 l2 : list A) (v w : A) :
  store (l1 ++ v :: l2) (Z.of_nat (length l1)) w = Some (l1 ++ w :: l2).
Proof.
  unfold store. destruct (Z.ltb_spec (Z.of_nat (length l1)) 0); [lia|].
  rewrite Nat2Z.id. apply store_nat_app_here.
Qed.

Lemma wrap_small (n : Z) : 0 <= n < 2 ^ 64 -> wrap n = n.
Proof. intros Hn. unfold wrap. now apply Z.mod_small. Qed.

(** *** Allocations *)

Lemma malloc_capacity_fits (size count : Z) :
  0 < size -> 0 <= count -> size * count < 2 ^ 64 ->
  malloc_capacity size count = count.
Proof.
  intros Hs Hc Hb. unfold malloc_capacity. rewrite wrap_small by nia.
  rewrite Z.mul_comm. apply Z.div_mul. lia.
Qed.

Lemma malloc_capacity_le (size count : Z) :
  0 < size -> 0 <= count -> 0 <= malloc_capacity size count <= count.
Proof.
  intros Hs Hc. unfold malloc_capacity, wrap.
  assert (H : 0 <= (size * count) mod 2 ^ 64 <= size * count).
  { split; [apply Z.mod_pos_bound; lia|apply Z.mod_le; nia]. }
  split; [apply Z.div_pos; lia|apply Z.div_le_upper_bound; lia].
Qed.

(** A byte count that wraps leaves room for fewer elements than asked. *)
Lemma malloc_capacity_wrapped (size count : Z) :
  0 < size -> 2 ^ 64 <= size * count ->
  malloc_capacity size count < count.
Proof.
  intros Hs Hb. unfold malloc_capacity, wrap.
  apply Z.div_lt_upper_bound; [assumption|].
  assert (H : 1 <= size * count / 2 ^ 64)
    by (apply Z.div_le_lower_bound; lia).
  rewrite Z.mod_eq by lia. nia.
Qed.

Section Facts.

Context {F : Type} {AF : Arith F}.

Abbreviation body := (body_t F).

Lemma all_some_app {A : Type} (l1 l2 : list (option A)) :
  all_some (l1 ++ l2) =
  match all_some l1, all_some l2 with
  | Some a, Some b => Some (a ++ b)
  | _, _ => None
  end.
Proof.
  induction l1 as [|[h|] t IH]; cbn.
  - now destruct (all_some l2).
  - rewrite IH. destruct (all_some t), (all_some l2); reflexivity.
  - reflexivity.
Qed.

Lemma all_some_length {A : Type} (l : list (option A)) (r : list A) :
  all_some l = Some r -> length r = length l.
Proof.
  revert r. induction l as [|[h|] t IH]; cbn; intros r E.
  - now inversion E.
  - destruct (all_some t); inversion E; subst. cbn. f_equal. now apply IH.
  - discriminate.
Qed.

Lemma all_some_map_total {A B : Type} (f : A -> option B) (g : A -> B)
    (l : list A) :
  (forall a, In a l -> f a = Some (g a)) ->
  all_some (map f l) = Some (map g l).
Proof.
  induction l as [|h t IH]; cbn; intros Hf; [easy|].
  rewrite (Hf h) by now left. rewrite IH; [easy|]. intros a Ha. apply Hf. now right.
Qed.

(** *** The sum over the other bodies *)

Lemma accumulate_total (s2 : F) (bodies : list body) (i : Z) (first_body : body)
    (js : list Z) (total : F * F) :
  (forall j, In j js -> 0 <= j < Z.of_nat (length bodies)) ->
  exists t, accumulate s2 bodies i first_body js total = Some t.
Proof.
  revert total. induction js as [|j js IH]; intros total Hjs; cbn.
  - eauto.
  - assert (Hrest : forall k, In k js -> 0 <= k < Z.of_nat (length bodies))
      by (intros k Hk; apply Hjs; now right).
    destruct (j =? i); [now apply IH|].
    destruct (load_in_range bodies j) as [b ->]; [apply Hjs; now left|].
    destruct (calculate_newton_gravity_acceleration s2 first_body b).
    now apply IH.
Qed.

Lemma total_acceleration_total (s2 : F) (bodies : list body) (n i : Z)
    (first_body : body) :
  n <= Z.of_nat (length bodies) ->
  exists t, total_acceleration s2 bodies n i first_body = Some t.
Proof.
  intros Hn. apply accumulate_total. intros j Hj. apply in_indices in Hj. lia.
Qed.

(** The body itself contributes nothing: the term of index [i] is left
    out of the sum, not computed. *)
Lemma accumulate_skips_self (s2 : F) (bodies : list body) (i : Z)
    (first_body : body) (js : list Z) (total : F * F) :
  accumulate s2 bodies i first_body js total =
  accumulate s2 bodies i first_body (filter (fun j => negb (j =? i)) js) total.
Proof.
  revert total. induction js as [|j js IH]; intros total; [reflexivity|].
  cbn [accumulate filter]. destruct (Z.eqb_spec j i) as [->|Hne]; cbn [negb].
  - apply IH.
  - cbn [accumulate]. destruct (Z.eqb_spec j i); [contradiction|].
    destruct (load bodies j); [|reflexivity].
    destruct (calculate_newton_gravity_acceleration s2 first_body b). apply IH.
Qed.


Lemma force_on_total (s2 : F) (n : Z) (bodies : list body) (i : Z) :
  n <= Z.of_nat (length bodies) -> 0 <= i < Z.of_nat (length bodies) ->
  exists b tax tay,
    load bodies i = Some b /\
    force_on s2 n bodies i = Some (with_acceleration b tax tay).
Proof.
  intros Hn Hi. unfold force_on.
  destruct (load_in_range bodies i Hi) as [b Hb]. rewrite Hb.
  destruct (total_acceleration_total s2 bodies n i b Hn) as [[tax tay] ->].
  eauto.
Qed.

Lemma force_loop_spec (s2 : F) (n bpp : Z) (bodies : list body) (trips : nat) :
  forall (i sub_i : Z) (sub_bodies : list body),
    0 <= i -> i + Z.of_nat trips < 2 ^ 64 ->
    0 <= sub_i -> sub_i + Z.of_nat trips <= bpp ->
    sizeof_body_t * bpp < 2 ^ 64 ->
    force_loop s2 n bpp bodies trips i sub_i sub_bodies =
    match all_some (map (force_on s2 n bodies) (indices i trips)) with
    | Some l => Some (sub_bodies ++ l)
    | None => None
    end.
Proof.
  induction trips as [|trips IH]; intros i sub_i sub_bodies Hi Hi' Hs Hs' Hb.
  - cbn. now rewrite app_nil_r.
  - rewrite indices_S. cbn [force_loop map all_some]. unfold force_on at 1.
    destruct (load bodies i) as [first_body|]; [|reflexivity].
    destruct (total_acceleration s2 bodies n i first_body) as [[tax tay]|];
      [|reflexivity].
    rewrite malloc_capacity_fits by (unfold sizeof_body_t in *; lia).
    destruct (Z.ltb_spec sub_i bpp); [|lia].
    rewrite !wrap_small by (unfold sizeof_body_t in *; lia). rewrite IH by lia.
    destruct (all_some (map (force_on s2 n bodies) (indices (i + 1) trips)));
      [|reflexivity].
    now rewrite <- app_assoc.
Qed.

(** *** Partitions *)

Lemma partition_bounds (n w r : Z) :
  0 < n < 2 ^ 64 -> 0 < w -> n mod w = 0 -> 0 <= r < w ->
  let bpp := n / w in
  0 < bpp /\ n = w * bpp /\
  partition_begin r bpp = r * bpp /\
  partition_end n bpp (r * bpp) = r * bpp + bpp - 1 /\
  r * bpp + bpp <= n.
Proof.
  intros Hn Hw Hm Hr bpp.
  assert (En : n = w * bpp) by (unfold bpp; apply Z.div_exact; lia).
  assert (Hb : 0 < bpp) by nia.
  assert (Hle : r * bpp + bpp <= n) by nia.
  repeat split; try assumption.
  - unfold partition_begin. apply wrap_small. nia.
  - unfold partition_end. rewrite wrap_small by nia.
    destruct (Z.geb_spec (r * bpp + bpp - 1) n); [lia|reflexivity].
Qed.

Lemma compute_spec (s2 : F) (n w r : Z) (bodies : list body) :
  0 < n < 2 ^ 59 -> 0 < w -> n mod w = 0 -> 0 <= r < w ->
  compute s2 n (n / w) bodies r =
  all_some (map (force_on s2 n bodies)
                (indices (r * (n / w)) (Z.to_nat (n / w)))).
Proof.
  intros Hn Hw Hm Hr.
  assert (Hn' : 0 < n < 2 ^ 64) by lia.
  destruct (partition_bounds n w r Hn' Hw Hm Hr) as (Hb & En & Eb & Ee & Hle).
  unfold compute. rewrite Eb, Ee. unfold partition_trips.
  destruct (Z.leb_spec (r * (n / w)) (r * (n / w) + n / w - 1)); [|lia].
  replace (r * (n / w) + n / w - 1 - r * (n / w) + 1) with (n / w) by lia.
  rewrite force_loop_spec by (unfold sizeof_body_t; nia). cbn [app].
  destruct (all_some _) as [l|] eqn:E; [|reflexivity].
  apply all_some_length in E. rewrite length_map, indices_length in E.
  rewrite E, Z2Nat.id by lia. now rewrite Z.eqb_refl.
Qed.

Lemma partitions_cover (k : nat) (w : nat) :
  flat_map (fun r => indices (r * Z.of_nat k) k) (indices 0 w) =
  indices 0 (w * k).
Proof.
  induction w as [|w IH]; [reflexivity|].
  replace (S w) with (w + 1)%nat by lia.
  rewrite indices_app, flat_map_app, IH. cbn [indices seq map flat_map].
  rewrite app_nil_r, Nat.mul_add_distr_r, indices_app. do 2 f_equal; lia.
Qed.

Lemma all_some_flat_map {A B : Type} (f : A -> option B) (p : Z -> list A)
    (rs : list Z) :
  all_some (map f (flat_map p rs)) =
  match all_some (map (fun r => all_some (map f (p r))) rs) with
  | Some send => Some (concat send)
  | None => None
  end.
Proof.
  induction rs as [|r rs IH]; [reflexivity|].
  cbn [flat_map map all_some]. rewrite map_app, all_some_app, IH.
  destruct (all_some (map f (p r))); [|reflexivity].
  destruct (all_some (map _ rs)); reflexivity.
Qed.

Lemma all_some_each_length {A B : Type} (f : A -> option B) (p : Z -> list A)
    (rs : list Z) (send : list (list B)) (k : nat) :
  (forall r, In r rs -> length (p r) = k) ->
  all_some (map (fun r => all_some (map f (p r))) rs) = Some send ->
  Forall (fun l => length l = k) send.
Proof.
  revert send. induction rs as [|r rs IH]; cbn; intros send Hk E.
  - inversion E. constructor.
  - destruct (all_some (map f (p r))) as [l|] eqn:El; [|discriminate].
    destruct (all_some (map _ rs)) as [t|]; [|discriminate].
    inversion E; subst. constructor.
    + apply all_some_length in El. rewrite length_map in El.
      rewrite El. apply Hk. now left.
    + apply IH; [|reflexivity]. intros q Hq. apply Hk. now right.
Qed.

Lemma map_firstn_all {A : Type} (k : nat) (send : list (list A)) :
  Forall (fun l => length l = k) send -> map (firstn k) send = send.
Proof.
  induction 1 as [|l t Hl _ IH]; cbn; [reflexivity|].
  rewrite IH. f_equal. subst k. apply firstn_all.
Qed.


Lemma iteration_spec (c : config F) (s2 : F) (capacity : Z)
    (bodies : list body) (accelerations : list F) :
  0 < body_count c < 2 ^ 31 -> 0 < world_size c ->
  body_count c mod world_size c = 0 ->
  Z.of_nat (length bodies) = body_count c ->
  iteration c s2 (body_count c / world_size c) capacity (bodies, accelerations) =
  match forces s2 (body_count c) bodies with
  | None => None
  | Some gathered =>
      integrate_loop (delta_time c) capacity
                     (indices 0 (Z.to_nat (body_count c)))
                     gathered accelerations
  end.
Proof.
  intros Hn Hw Hm Hlen.
  set (n := body_count c) in *. set (w := world_size c) in *.
  assert (Hn' : 0 < n < 2 ^ 64) by lia.
  destruct (partition_bounds n w 0 Hn' Hw Hm ltac:(lia)) as (Hb & En & _).
  cbv zeta in Hb, En. unfold iteration. fold n w.
  assert (Eview : forall r, MPI_Bcast bodies n r = Some bodies).
  { intros r. unfold MPI_Bcast, int_of_size.
    destruct (Z.ltb_spec n (2 ^ 31)); [|lia].
    destruct (r =? 0); [reflexivity|]. f_equal. apply firstn_all2. lia. }
  rewrite (map_ext_in _ (fun r => all_some (map (force_on s2 n bodies)
             (indices (r * Z.of_nat (Z.to_nat (n / w))) (Z.to_nat (n / w)))))).
  2:{ intros r Hr. apply in_indices in Hr. rewrite Eview, Z2Nat.id by lia.
      apply compute_spec; lia. }
  unfold forces.
  replace (Z.to_nat n) with (Z.to_nat w * Z.to_nat (n / w))%nat by nia.
  rewrite <- partitions_cover, all_some_flat_map.
  destruct (all_some (map _ (indices 0 (Z.to_nat w)))) as [send|] eqn:E;
    [|reflexivity].
  assert (Hsend : Forall (fun l => length l = Z.to_nat (n / w)) send).
  { eapply all_some_each_length; [|exact E]. intros r _. apply indices_length. }
  unfold MPI_Gather, int_of_size.
  destruct (Z.ltb_spec (n / w) (2 ^ 31)); [|nia].
  rewrite map_firstn_all by assumption.
  assert (Hc : length (concat send) = length bodies).
  { pose proof (all_some_flat_map (force_on s2 n bodies)
                  (fun r => indices (r * Z.of_nat (Z.to_nat (n / w)))
                                    (Z.to_nat (n / w)))
                  (indices 0 (Z.to_nat w))) as E'.
    cbv beta in E'. rewrite E in E'. apply all_some_length in E'.
    rewrite E', length_map, partitions_cover, indices_length. nia. }
  rewrite Hc, Nat.leb_refl, skipn_all, app_nil_r.
  rewrite partitions_cover. reflexivity.
Qed.

(** *** One iteration *)


Lemma all_some_total {A B : Type} (f : A -> option B) (l : list A) :
  (forall a, In a l -> exists b, f a = Some b) ->
  exists g, all_some (map f l) = Some g.
Proof.
  induction l as [|h t IH]; cbn; intros Hf; [eauto|].
  destruct (Hf h) as [b ->]; [now left|].
  destruct IH as [g ->]; [|eauto]. intros a Ha. apply Hf. now right.
Qed.

Lemma all_some_Forall2 {A B : Type} (f : A -> option B) (l : list A)
    (g : list B) :
  all_some (map f l) = Some g -> Forall2 (fun a b => f a = Some b) l g.
Proof.
  revert g. induction l as [|h t IH]; cbn; intros g E.
  - inversion E. constructor.
  - destruct (f h) as [b|] eqn:Eh; [|discriminate].
    destruct (all_some (map f t)) as [g'|]; [|discriminate].
    inversion E; subst. constructor; auto.
Qed.

Lemma Forall2_indices_load (P : body -> body -> Prop) (l : list body) :
  forall (pre g : list body),
    Forall2 (fun i b' => exists b, load (pre ++ l) i = Some b /\ P b b')
            (indices (Z.of_nat (length pre)) (length l)) g ->
    Forall2 P l g.
Proof.
  induction l as [|h t IH]; intros pre g Hg.
  - inversion Hg. constructor.
  - cbn [length] in Hg. rewrite indices_S in Hg.
    inversion Hg as [|i b' is' g' (b & Hb & HP) Hrest]; subst.
    rewrite load_app_here in Hb. inversion Hb; subst b.
    constructor; [assumption|].
    apply (IH (pre ++ [h])).
    rewrite <- app_assoc, length_app, Nat2Z.inj_add. exact Hrest.
Qed.

Lemma forces_total (s2 : F) (n : Z) (bodies : list body) :
  Z.of_nat (length bodies) = n ->
  exists gathered,
    forces s2 n bodies = Some gathered /\ Forall2 reaccelerated bodies gathered.
Proof.
  intros Hlen. unfold forces.
  destruct (all_some_total (force_on s2 n bodies) (indices 0 (Z.to_nat n)))
    as [g Hg].
  { intros i Hi. apply in_indices in Hi.
    destruct (force_on_total s2 n bodies i) as (b & tax & tay & _ & E);
      [lia|lia|eauto]. }
  exists g. split; [assumption|].
  apply all_some_Forall2 in Hg.
  apply (Forall2_indices_load reaccelerated bodies []). cbn [app length].
  replace (length bodies) with (Z.to_nat n) by lia.
  revert Hg. apply Forall2_impl. intros i b' E. unfold force_on in E.
  destruct (load bodies i) as [b|]; [|discriminate].
  destruct (total_acceleration s2 bodies n i b) as [[tax tay]|]; [|discriminate].
  inversion E. exists b. split; [reflexivity|]. now exists tax, tay.
Qed.


Lemma recorded_length (bodies : list body) :
  length (recorded bodies) = (2 * length bodies)%nat.
Proof.
  unfold recorded. induction bodies as [|b t IH]; cbn [flat_map length app];
    [reflexivity|]. rewrite IH. lia.
Qed.

Lemma integrate_loop_spec (dt : F) (capacity : Z) (todo : list body) :
  forall (done : list body) (accelerations : list F),
    Z.of_nat (length accelerations) + 2 * Z.of_nat (length todo) <= capacity ->
    integrate_loop dt capacity
                   (indices (Z.of_nat (length done)) (length todo))
                   (done ++ todo) accelerations =
    Some (done ++ map (fun b => integrate b dt) todo,
          accelerations ++ recorded todo).
Proof.
  induction todo as [|b t IH]; intros done accelerations Hcap.
  - cbn. now rewrite !app_nil_r.
  - cbn [length] in *. rewrite indices_S. cbn [integrate_loop].
    rewrite load_app_here, store_app_here.
    destruct (Z.ltb_spec (Z.of_nat (length accelerations) + 1) capacity); [|lia].
    replace (done ++ integrate b dt :: t)
      with ((done ++ [integrate b dt]) ++ t) by now rewrite <- app_assoc.
    replace (Z.of_nat (length done) + 1)
      with (Z.of_nat (length (done ++ [integrate b dt])))
      by (rewrite length_app; cbn; lia).
    rewrite IH by (rewrite length_app; cbn [length]; lia).
    now rewrite <- !app_assoc.
Qed.

Lemma iteration_total (c : config F) (s2 : F) (capacity : Z)
    (bodies : list body) (accelerations : list F) :
  0 < body_count c < 2 ^ 31 -> 0 < world_size c ->
  body_count c mod world_size c = 0 ->
  Z.of_nat (length bodies) = body_count c ->
  Z.of_nat (length accelerations) + 2 * body_count c <= capacity ->
  exists gathered,
    Forall2 reaccelerated bodies gathered /\
    iteration c s2 (body_count c / world_size c) capacity (bodies, accelerations) =
    Some (map (fun b => integrate b (delta_time c)) gathered,
          accelerations ++ recorded gathered).
Proof.
  intros Hn Hw Hm Hlen Hcap.
  destruct (forces_total s2 (body_count c) bodies Hlen) as (g & Eg & Hg).
  exists g. split; [assumption|].
  rewrite iteration_spec, Eg by assumption.
  assert (Hl : length g = length bodies)
    by (symmetry; eapply Forall2_length; eassumption).
  replace (Z.to_nat (body_count c)) with (length g) by lia.
  apply (integrate_loop_spec (delta_time c) capacity g []). lia.
Qed.

(** The number of processes does not matter to an iteration. *)
Lemma iteration_partition_invariant (c c1 : config F) (s2 : F) (capacity : Z)
    (bodies : list body) (accelerations : list F) :
  0 < body_count c < 2 ^ 31 -> 0 < world_size c ->
  body_count c mod world_size c = 0 ->
  Z.of_nat (length bodies) = body_count c ->
  body_count c1 = body_count c -> delta_time c1 = delta_time c ->
  world_size c1 = 1 ->
  iteration c s2 (body_count c / world_size c) capacity (bodies, accelerations) =
  iteration c1 s2 (body_count c1 / world_size c1) capacity (bodies, accelerations).
Proof.
  intros Hn Hw Hm Hlen En Ed Ew.
  rewrite !iteration_spec; rewrite ?En, ?Ed, ?Ew, ?Z.mod_1_r; auto; lia.
Qed.

(** *** The whole loop *)

Lemma reaccelerated_mass (bodies gathered : list body) :
  Forall2 reaccelerated bodies gathered ->
  map mass gathered = map mass bodies.
Proof.
  induction 1 as [|b b' l l' (tax & tay & ->) _ IH]; cbn; [reflexivity|].
  now rewrite IH.
Qed.

Lemma integrate_mass (bodies : list body) (dt : F) :
  map mass (map (fun b => integrate b dt) bodies) = map mass bodies.
Proof. rewrite map_map. now apply map_ext. Qed.

Lemma simulation_loop_total (c : config F) (s2 : F) (capacity : Z) :
  0 < body_count c < 2 ^ 31 -> 0 < world_size c ->
  body_count c mod world_size c = 0 ->
  forall (trips : nat) (bodies : list body) (accelerations : list F),
    Z.of_nat (length bodies) = body_count c ->
    Z.of_nat (length accelerations) + 2 * body_count c * Z.of_nat trips
      <= capacity ->
    exists bodies' accelerations',
      simulation_loop c s2 (body_count c / world_size c) capacity trips
                      (bodies, accelerations) = Some (bodies', accelerations') /\
      Z.of_nat (length bodies') = body_count c /\
      Z.of_nat (length accelerations') =
        Z.of_nat (length accelerations) + 2 * body_count c * Z.of_nat trips /\
      map mass bodies' = map mass bodies.
Proof.
  intros Hn Hw Hm. induction trips as [|trips IH]; intros bodies accs Hlen Hcap.
  - exists bodies, accs. cbn. repeat split; auto. lia.
  - destruct (iteration_total c s2 capacity bodies accs Hn Hw Hm Hlen)
      as (g & Hg & Eg); [nia|].
    assert (Hl : length g = length bodies)
      by (symmetry; eapply Forall2_length; eassumption).
    cbn [simulation_loop]. rewrite Eg.
    destruct (IH (map (fun b => integrate b (delta_time c)) g)
                 (accs ++ recorded g)) as (b' & a' & E & Hb & Ha & Hmass).
    { rewrite length_map. lia. }
    { rewrite length_app, recorded_length. nia. }
    exists b', a'. rewrite E. repeat split; auto.
    + rewrite Ha, length_app, recorded_length. nia.
    + now rewrite Hmass, integrate_mass, (reaccelerated_mass bodies g).
Qed.

(** *** Output *)

Lemma print_bodies_spec (l : list body) :
  forall pre : list body,
    print_bodies (pre ++ l) (indices (Z.of_nat (length pre)) (length l)) =
    Some (flat_map body_record l).
Proof.
  induction l as [|b t IH]; intros pre; [reflexivity|].
  cbn [length]. rewrite indices_S. cbn [print_bodies flat_map].
  rewrite load_app_here.
  replace (pre ++ b :: t) with ((pre ++ [b]) ++ t) by now rewrite <- app_assoc.
  replace (Z.of_nat (length pre) + 1) with (Z.of_nat (length (pre ++ [b])))
    by (rewrite length_app; cbn; lia).
  now rewrite IH.
Qed.

Lemma print_accelerations_spec (m : nat) :
  forall (pre rest : list F),
    length rest = (2 * m)%nat ->
    Z.of_nat (length pre) + 2 * Z.of_nat m < 2 ^ 64 ->
    print_accelerations (pre ++ rest) m (Z.of_nat (length pre)) =
    Some (pair_lines rest).
Proof.
  induction m as [|m IH]; intros pre rest Hlen Hsmall.
  - destruct rest; [reflexivity|discriminate].
  - destruct rest as [|a [|b t]]; try (cbn in Hlen; lia).
    cbn [print_accelerations pair_lines]. rewrite load_app_here.
    replace (pre ++ a :: b :: t) with ((pre ++ [a]) ++ b :: t)
      by now rewrite <- app_assoc.
    replace (Z.of_nat (length pre) + 1) with (Z.of_nat (length (pre ++ [a])))
      by (rewrite length_app; cbn; lia).
    rewrite load_app_here.
    replace ((pre ++ [a]) ++ b :: t) with ((pre ++ [a; b]) ++ t)
      by now rewrite <- !app_assoc.
    replace (wrap (Z.of_nat (length pre) + 2))
      with (Z.of_nat (length (pre ++ [a; b])))
      by (rewrite wrap_small; rewrite ?length_app; cbn [length]; lia).
    rewrite IH; [reflexivity|cbn in Hlen; lia|].
    rewrite length_app. cbn [length]. lia.
Qed.

Lemma pair_lines_length (m : nat) :
  forall l : list F, length l = (2 * m)%nat -> length (pair_lines l) = m.
Proof.
  induction m as [|m IH]; intros l Hl.
  - destruct l; [reflexivity|discriminate].
  - destruct l as [|a [|b t]]; try (cbn in Hl; lia).
    cbn [pair_lines length]. f_equal. apply IH. cbn in Hl. lia.
Qed.

Lemma generate_debug_data_length (rand : nat -> Z) (RAND_MAX : Z)
    (m scale : F) (n : Z) :
  length (generate_debug_data rand RAND_MAX m scale n) = Z.to_nat n.
Proof. unfold generate_debug_data. now rewrite length_map, length_seq. Qed.


Lemma snapshot_length (c : config F) (initial : list body) :
  length (snapshot c initial) = (3 + 4 * length initial)%nat.
Proof.
  assert (E : length (flat_map body_record initial) = (4 * length initial)%nat).
  { induction initial as [|b t IH]; [reflexivity|].
    cbn [flat_map]. rewrite length_app, IH. cbn [body_record length]. lia. }
  unfold snapshot. cbn [length]. lia.
Qed.

(** *** A run that completes *)

Lemma prologue_spec (c : config F) (initial : list body) :
  Z.of_nat (length initial) = body_count c ->
  print_bodies initial (indices 0 (Z.to_nat (body_count c))) =
  Some (flat_map body_record initial).
Proof.
  intros Hlen. replace (Z.to_nat (body_count c)) with (length initial) by lia.
  apply (print_bodies_spec initial []).
Qed.

Lemma entries_spec (iterations n : Z) :
  0 <= iterations -> 0 <= n -> 2 * iterations * n < 2 ^ 64 ->
  wrap (wrap (iterations * n) * 2) = 2 * (iterations * n).
Proof.
  intros Hi Hn Hs.
  assert (0 <= iterations * n) by now apply Z.mul_nonneg_nonneg.
  rewrite (wrap_small (iterations * n)) by lia.
  rewrite wrap_small by lia. lia.
Qed.

Lemma bodies_fit (c : config F) :
  0 <= body_count c -> body_count c mod world_size c = 0 ->
  sizeof_body_t * body_count c < 2 ^ 64 ->
  malloc_capacity sizeof_body_t (mpi_body_count c) = body_count c.
Proof.
  intros Hn Hm Hb. unfold mpi_body_count. rewrite Hm. cbn [Z.eqb].
  rewrite Z.add_0_r, wrap_small by (unfold sizeof_body_t in Hb; lia).
  apply malloc_capacity_fits; [reflexivity|assumption|assumption].
Qed.

Lemma history_fits (iterations n : Z) :
  0 <= iterations -> 0 <= n -> 8 * iterations * n < 2 ^ 64 ->
  malloc_capacity sizeof_float (wrap (wrap (iterations * n) * 2)) =
  2 * (iterations * n).
Proof.
  intros Hi Hn Hs.
  assert (0 <= iterations * n) by now apply Z.mul_nonneg_nonneg.
  rewrite entries_spec by lia.
  apply malloc_capacity_fits; unfold sizeof_float; lia.
Qed.

Lemma main_from_valid (c : config F) (initial : list body) (iterations : Z) :
  0 < body_count c < 2 ^ 31 -> 0 < world_size c ->
  body_count c mod world_size c = 0 ->
  Z.of_nat (length initial) = body_count c ->
  to_size_t (time_period c / delta_time c)%fl = Some iterations ->
  0 <= iterations -> 8 * iterations * body_count c < 2 ^ 64 ->
  exists bodies accelerations,
    simulation_loop c (softening_length c * softening_length c)%fl
                    (body_count c / world_size c)
                    (2 * (iterations * body_count c))
                    (Z.to_nat iterations) (initial, []) =
    Some (bodies, accelerations) /\
    main_from c initial 0 =
    mk_result (Exited EXIT_SUCCESS)
              ((Generate (body_count c) :: map Print (snapshot c initial))
               ++ map Step (indices 0 (Z.to_nat iterations))
               ++ map Print (pair_lines accelerations))
              bodies accelerations /\
    Z.of_nat (length accelerations) = 2 * (iterations * body_count c) /\
    Z.of_nat (length bodies) = body_count c /\
    map mass bodies = map mass initial.
Proof.
  intros Hn Hw Hm Hlen Hconv Hi Hs.
  unfold main_from. rewrite Hconv, Z.eqb_refl, bodies_fit, Z.leb_refl,
    prologue_spec, Hm by (assumption || unfold sizeof_body_t; lia).
  cbn [negb Z.eqb]. rewrite history_fits, entries_spec by lia.
  destruct (simulation_loop_total c
              (softening_length c * softening_length c)%fl
              (2 * (iterations * body_count c)) Hn Hw Hm
              (Z.to_nat iterations) initial [] Hlen)
    as (bodies & accs & E & Hb & Ha & Hmass); [cbn [length]; nia|].
  exists bodies, accs. split; [exact E|].
  rewrite E. cbn [length] in Ha.
  unfold accelerations_trips.
  replace ((2 * (iterations * body_count c) + 1) / 2)
    with (iterations * body_count c)
    by (apply Z.div_unique with (r := 1); lia).
  assert (Hl : Z.of_nat (length accs) = 2 * (iterations * body_count c)) by nia.
  pose proof (print_accelerations_spec
                (Z.to_nat (iterations * body_count c)) [] accs) as P.
  cbn [app length Z.of_nat] in P. rewrite P by nia.
  repeat split; auto.
Qed.

(** *** Independence of the number of processes *)

Lemma store_nat_length {A : Type} (a a' : list A) (k : nat) (v : A) :
  store_nat a k v = Some a' -> length a' = length a.
Proof.
  revert a' k. induction a as [|h t IH]; intros a' k E; [discriminate|].
  destruct k as [|k]; cbn in E.
  - inversion E. reflexivity.
  - destruct (store_nat t k v) as [t'|] eqn:Et; [|discriminate].
    inversion E. cbn. f_equal. eapply IH. eassumption.
Qed.

Lemma integrate_loop_length (dt : F) (capacity : Z) (idx : list Z) :
  forall (bodies bodies' : list body) (accelerations accelerations' : list F),
    integrate_loop dt capacity idx bodies accelerations =
      Some (bodies', accelerations') ->
    length bodies' = length bodies.
Proof.
  induction idx as [|i idx IH]; intros bodies bodies' accs accs' E.
  - inversion E. reflexivity.
  - cbn [integrate_loop] in E.
    destruct (load bodies i) as [b|]; [|discriminate].
    destruct (store bodies i (integrate b dt)) as [stored|] eqn:Es; [|discriminate].
    destruct (Z.of_nat (length accs) + 1 <? capacity); [|discriminate].
    apply IH in E. rewrite E. unfold store in Es.
    destruct (i <? 0); [discriminate|]. eapply store_nat_length. eassumption.
Qed.

Lemma simulation_loop_partition_invariant (c : config F) (s2 : F) (capacity : Z) :
  0 < body_count c < 2 ^ 31 -> 0 < world_size c ->
  body_count c mod world_size c = 0 ->
  forall (trips : nat) (bodies : list body) (accelerations : list F),
    Z.of_nat (length bodies) = body_count c ->
    simulation_loop c s2 (body_count c / world_size c) capacity trips
                    (bodies, accelerations) =
    simulation_loop (on_one_process c) s2 (body_count c / 1) capacity trips
                    (bodies, accelerations).
Proof.
  intros Hn Hw Hm. induction trips as [|trips IH]; intros bodies accs Hlen;
    [reflexivity|].
  cbn [simulation_loop].
  rewrite (iteration_partition_invariant c (on_one_process c))
    by (assumption || reflexivity).
  change (body_count (on_one_process c) / world_size (on_one_process c))
    with (body_count c / 1).
  destruct (iteration (on_one_process c) s2 (body_count c / 1) capacity
                      (bodies, accs)) as [[bodies' accs']|] eqn:E;
    [|reflexivity].
  apply IH.
  pose proof (iteration_spec (on_one_process c) s2 capacity bodies accs
                Hn Z.lt_0_1 (Z.mod_1_r (body_count c)) Hlen) as Es.
  change (body_count (on_one_process c)) with (body_count c) in Es.
  change (world_size (on_one_process c)) with 1 in Es.
  change (delta_time (on_one_process c)) with (delta_time c) in Es.
  rewrite E in Es.
  destruct (forces_total s2 (body_count c) bodies Hlen) as (g & Eg & Hg).
  rewrite Eg in Es. symmetry in Es.
  apply integrate_loop_length in Es.
  apply Forall2_length in Hg. lia.
Qed.

End Facts.

(** ** The integrator *)

(** C4 — For every body state and step size, [integrate] performs the
    semi-implicit Euler update: the new velocity is the old velocity plus
    acceleration times the step, the new position is the old position
    plus the NEW velocity times the step, and acceleration (and mass) are
    left as they were.  This holds in any arithmetic; in binary32 the
    result differs from the explicit Euler update, which would use the
    old velocity. *)
Theorem integrate_semi_implicit_euler :
  (forall (F : Type) (AF : Arith F) (b : body_t F) (dt : F),
      let b' := integrate b dt in
      vx b' = (vx b + ax b * dt)%fl /\
      vy b' = (vy b + ay b * dt)%fl /\
      x b' = (x b + vx b' * dt)%fl /\
      y b' = (y b + vy b' * dt)%fl /\
      ax b' = ax b /\ ay b' = ay b /\ mass b' = mass b) /\
  (forall (cf sf : Binary32.float32 -> Binary32.float32)
          (uc : Binary32.float32 -> Z),
      let AF := Binary32.arith cf sf uc in
      let b := mk_body f0 f0 f1 f0 f0 f0 f1 in
      x (integrate b fhalf) = Binary32.div f1 (of_Z 4) /\
      (x b + vx b * fhalf)%fl = f0 /\
      x (integrate b fhalf) <> (x b + vx b * fhalf)%fl).
Proof.
  split.
  - intros F AF b dt. cbn. repeat split; reflexivity.
  - intros cf sf. cbv zeta. vm_compute. repeat split; discriminate.
Qed.

(** ** The partition *)

(** For a positive body count that the number of processes divides, the
    loop over [i] of rank [r] visits exactly r*(N/W), ..., (r+1)*(N/W)-1,
    and the ranges of ranks 0, ..., W-1 laid end to end are 0, ..., N-1:
    each index once, in order. *)
Lemma partition_exact (n w : Z) :
  0 < n < 2 ^ 64 -> 0 < w -> n mod w = 0 ->
  (forall r, 0 <= r < w ->
     partition_indices n w r = indices (r * (n / w)) (Z.to_nat (n / w))) /\
  flat_map (partition_indices n w) (indices 0 (Z.to_nat w)) =
    indices 0 (Z.to_nat n).
Proof.
  intros Hn Hw Hm.
  assert (Hr : forall r, 0 <= r < w ->
     partition_indices n w r = indices (r * (n / w)) (Z.to_nat (n / w))).
  { intros r Hr.
    destruct (partition_bounds n w r Hn Hw Hm Hr) as (Hb & En & Eb & Ee & Hle).
    unfold partition_indices. rewrite Eb, Ee. unfold partition_trips.
    destruct (Z.leb_spec (r * (n / w)) (r * (n / w) + n / w - 1)); [|lia].
    do 2 f_equal. lia. }
  split; [exact Hr|].
  destruct (partition_bounds n w 0 Hn Hw Hm ltac:(lia)) as (Hb & En & _).
  rewrite flat_map_concat_map.
  rewrite (map_ext_in _ (fun r => indices (r * Z.of_nat (Z.to_nat (n / w)))
                                    (Z.to_nat (n / w)))).
  - rewrite <- flat_map_concat_map, partitions_cover. f_equal. nia.
  - intros r Hin. apply in_indices in Hin. rewrite Hr by lia.
    now rewrite Z2Nat.id by lia.
Qed.

Lemma force_loop_out_of_bounds {F : Type} {AF : Arith F} (s2 : F) (n bpp : Z)
    (bodies : list (body_t F)) (trips : nat) (i sub_i : Z)
    (sub_bodies : list (body_t F)) :
  trips <> O -> load bodies i = None ->
  force_loop s2 n bpp bodies trips i sub_i sub_bodies = None.
Proof.
  intros Ht Hl. destruct trips as [|trips]; [easy|].
  cbn [force_loop]. now rewrite Hl.
Qed.

(** C7 — at a body count of zero the bounds of the loop over [i] wrap
    around: with N = 0 and W = 1 the range of rank 0 should be the empty
    [0, 0), but the loop runs from 0 to 2^64 - 1, so index 0 is visited
    although there is no body, and a run of one iteration reads outside
    the (empty) array. *)
Theorem partition_of_zero_bodies :
  let AF := Binary32.arith (fun v => v) (fun v => v) (fun _ => 0) in
  let c := mk_config 6 f1 f1 0 f1 f1 f0 1 in
  body_count c mod world_size c = 0 /\
  partition_begin 0 (0 / 1) = 0 /\
  partition_end 0 (0 / 1) 0 = 2 ^ 64 - 1 /\
  indices (0 * (0 / 1)) (Z.to_nat (0 / 1)) = [] /\
  In 0 (partition_indices 0 1 0) /\
  to_size_t (time_period c / delta_time c)%fl = Some 1 /\
  exit_status (main_from c [] 0) = Undefined.
Proof.
  intros AF c.
  assert (Eb : partition_begin 0 (0 / 1) = 0) by reflexivity.
  assert (Ee : partition_end 0 (0 / 1) 0 = 2 ^ 64 - 1) by reflexivity.
  assert (Ht : partition_trips 0 (2 ^ 64 - 1) <> O).
  { unfold partition_trips. change (0 <=? 2 ^ 64 - 1) with true. cbv iota. lia. }
  assert (Ec : forall s2, compute s2 0 0 [] 0 = None).
  { intros s2. unfold compute. change (0 / 1) with 0 in Eb, Ee.
    rewrite Eb, Ee. now rewrite force_loop_out_of_bounds. }
  split; [reflexivity|]. split; [exact Eb|]. split; [exact Ee|].
  split; [reflexivity|]. split; [|split; [reflexivity|]].
  - unfold partition_indices. rewrite Eb, Ee. apply in_indices.
    unfold partition_trips. change (0 <=? 2 ^ 64 - 1) with true. cbv iota. lia.
  - assert (El : forall s2 cap,
              simulation_loop c s2 0 cap 1%nat ([], []) = None).
    { intros s2 cap. cbn [simulation_loop]. unfold iteration.
      change (body_count c) with 0. change (world_size c) with 1.
      change (indices 0 (Z.to_nat 1)) with [0]. cbn [map].
      change (MPI_Bcast [] 0 0) with (Some (@nil (body_t Binary32.float32))).
      cbv iota. rewrite Ec. reflexivity. }
    unfold main_from.
    change (to_size_t (time_period c / delta_time c)%fl) with (Some 1).
    change (body_count c) with 0. change (world_size c) with 1.
    change (Z.to_nat 1) with 1%nat. change (0 / 1) with 0.
    cbv iota beta. rewrite El. reflexivity.
Qed.

(** ** Whole runs *)

Section Runs.

Context {F : Type} {AF : Arith F}.
Variable rand : nat -> Z.
Variable RAND_MAX : Z.


Lemma main_unfold (c : config F) (rank : Z) :
  6 <= argc c -> main rand RAND_MAX c rank = main_from c (generated rand RAND_MAX c) rank.
Proof.
  intros Ha. unfold main. destruct (Z.ltb_spec (argc c) 6); [lia|reflexivity].
Qed.

Lemma generated_length (c : config F) :
  0 <= body_count c -> Z.of_nat (length (generated rand RAND_MAX c)) = body_count c.
Proof.
  intros Hn. unfold generated. rewrite generate_debug_data_length. lia.
Qed.

Lemma stdout_app (t1 t2 : list (event F)) :
  stdout (t1 ++ t2) = stdout t1 ++ stdout t2.
Proof. apply flat_map_app. Qed.

Lemma stdout_prints (l : list (line F)) : stdout (map Print l) = l.
Proof. induction l as [|h t IH]; cbn; [reflexivity|]. f_equal. exact IH. Qed.

Lemma stdout_steps (ks : list Z) : stdout (F := F) (map Step ks) = [].
Proof. induction ks; cbn; auto. Qed.

Lemma steps_app (t1 t2 : list (event F)) :
  steps (t1 ++ t2) = steps t1 ++ steps t2.
Proof. apply flat_map_app. Qed.

Lemma steps_prints (l : list (line F)) : steps (map Print l) = [].
Proof. induction l; cbn; auto. Qed.

Lemma steps_steps (ks : list Z) : steps (F := F) (map Step ks) = ks.
Proof. induction ks as [|k t IH]; cbn; [reflexivity|]. f_equal. exact IH. Qed.

Lemma padded_bodies_fit (c : config F) :
  0 <= body_count c -> 0 < world_size c ->
  sizeof_body_t * (body_count c + world_size c) < 2 ^ 64 ->
  body_count c mod world_size c <> 0 ->
  malloc_capacity sizeof_body_t (mpi_body_count c) =
  body_count c + (world_size c - body_count c mod world_size c).
Proof.
  intros Hn Hw Hb Hm. unfold mpi_body_count.
  destruct (Z.eqb_spec (body_count c mod world_size c) 0) as [E|_]; [easy|].
  pose proof (Z.mod_pos_bound (body_count c) (world_size c) Hw) as Hr.
  unfold sizeof_body_t in Hb.
  rewrite (wrap_small (world_size c - _)) by lia.
  rewrite wrap_small by lia.
  apply malloc_capacity_fits; unfold sizeof_body_t; lia.
Qed.


(** A run whose iteration count is zero. *)
Lemma no_iteration_run (c : config F) (rank : Z) :
  6 <= argc c -> 0 <= body_count c ->
  sizeof_body_t * body_count c < 2 ^ 64 ->
  body_count c mod world_size c = 0 ->
  to_size_t (time_period c / delta_time c)%fl = Some 0 ->
  let r := main rand RAND_MAX c rank in
  exit_status r = Exited 0 /\
  steps (trace r) = [] /\
  (rank = 0 ->
     stdout (trace r) =
       Lcount (body_count c) :: Lfloat (time_period c) :: Lfloat (delta_time c)
       :: flat_map body_record (generated rand RAND_MAX c) /\
     Z.of_nat (length (stdout (trace r))) = 3 + 4 * body_count c /\
     final_accelerations r = []).
Proof.
  intros Ha Hn Hb Hm Hconv r. subst r. rewrite main_unfold by assumption.
  unfold main_from. rewrite Hconv, Hm, bodies_fit, Z.leb_refl by assumption.
  change (wrap (wrap (0 * body_count c) * 2)) with 0.
  cbn [Z.eqb negb Z.to_nat simulation_loop indices seq map].
  destruct (Z.eqb_spec rank 0) as [->|Hr].
  - rewrite prologue_spec by now apply generated_length.
    cbn [accelerations_trips print_accelerations exit_status trace
         final_accelerations map app].
    change (print_accelerations [] (accelerations_trips 0) 0)
      with (Some (@nil (line F))).
    cbn [exit_status trace final_accelerations map app].
    rewrite app_nil_r.
    change (Generate (body_count c) :: ?t) with ([Generate (body_count c)] ++ t).
    split; [reflexivity|]. split.
    + apply (steps_prints (snapshot c (generated rand RAND_MAX c))).
    + intros _.
      assert (E : stdout (Generate (body_count c)
                          :: map Print (snapshot c (generated rand RAND_MAX c))) =
                  snapshot c (generated rand RAND_MAX c))
        by apply (stdout_prints (snapshot c (generated rand RAND_MAX c))).
      split; [exact E|]. split; [|reflexivity].
      etransitivity; [apply f_equal, f_equal, E|].
      rewrite snapshot_length. pose proof (generated_length c Hn). lia.
  - cbn. repeat split; easy.
Qed.

End Runs.

Section CompletedRuns.

Context {F : Type} {AF : Arith F}.
Variable rand : nat -> Z.
Variable RAND_MAX : Z.

(** *** A single body *)

Lemma forces_single (s2 : F) (b : body_t F) :
  forces s2 1 [b] = Some [with_acceleration b f0 f0].
Proof. reflexivity. Qed.

Lemma repeat_pairs {A : Type} (a : A) (k : nat) (l : list A) :
  l ++ repeat a (2 * S k) = (l ++ [a; a]) ++ repeat a (2 * k).
Proof.
  replace (2 * S k)%nat with (2 + 2 * k)%nat by lia.
  now rewrite <- app_assoc.
Qed.

Lemma simulation_loop_single (c : config F) (s2 : F) (capacity : Z) :
  body_count c = 1 -> world_size c = 1 ->
  forall (trips : nat) (b : body_t F) (accelerations : list F),
    Z.of_nat (length accelerations) + 2 * Z.of_nat trips <= capacity ->
    exists b',
      simulation_loop c s2 1 capacity trips ([b], accelerations) =
      Some ([b'], accelerations ++ repeat f0 (2 * trips)).
Proof.
  intros En Ew. induction trips as [|trips IH]; intros b accs Hcap.
  - exists b. cbn. now rewrite app_nil_r.
  - cbn [simulation_loop].
    pose proof (iteration_spec c s2 capacity [b] accs) as E.
    rewrite En, Ew in E. change (1 / 1) with 1 in E.
    rewrite E by (cbn; lia). clear E.
    rewrite forces_single. change (indices 0 (Z.to_nat 1)) with [0].
    cbn [integrate_loop]. change (load [?v] 0) with (Some v).
    change (store [?v] 0 ?w) with (Some [w]). cbv iota beta.
    destruct (Z.ltb_spec (Z.of_nat (length accs) + 1) capacity); [|lia].
    cbn [ax ay integrate with_acceleration].
    destruct (IH (integrate (with_acceleration b f0 f0) (delta_time c))
                 (accs ++ [f0; f0])) as [b' Eb'].
    { rewrite length_app. cbn [length]. lia. }
    exists b'. cbn [integrate with_acceleration] in Eb'.
    rewrite Eb'. now rewrite repeat_pairs.
Qed.

Lemma pair_lines_repeat (a : F) (k : nat) :
  pair_lines (repeat a (2 * k)) = repeat (Lpair a a) k.
Proof.
  induction k as [|k IH]; [reflexivity|].
  replace (2 * S k)%nat with (S (S (2 * k))) by lia.
  cbn [repeat pair_lines]. now rewrite IH.
Qed.

Lemma single_process (n w : Z) : n = 1 -> 0 < w -> n mod w = 0 -> w = 1.
Proof.
  intros -> Hw Hm. destruct (Z.eq_dec w 1) as [|Hne]; [assumption|].
  rewrite Z.mod_1_l in Hm by lia. discriminate.
Qed.


(** *** Mass *)

Lemma compute_reaccelerates (s2 : F) (n w r : Z) (view sub_bodies : list (body_t F)) :
  0 < n < 2 ^ 59 -> 0 < w -> n mod w = 0 -> 0 <= r < w ->
  compute s2 n (n / w) view r = Some sub_bodies ->
  Forall2 (fun i b' => exists b, load view i = Some b /\ reaccelerated b b')
          (indices (r * (n / w)) (Z.to_nat (n / w))) sub_bodies.
Proof.
  intros Hn Hw Hm Hr E. rewrite compute_spec in E by assumption.
  apply all_some_Forall2 in E. revert E. apply Forall2_impl.
  intros i b' Ei. unfold force_on in Ei.
  destruct (load view i) as [b|]; [|discriminate].
  destruct (total_acceleration s2 view n i b) as [[tax tay]|]; [|discriminate].
  inversion Ei. exists b. split; [reflexivity|]. now exists tax, tay.
Qed.


End CompletedRuns.

(** ** Runs in binary32 *)

Lemma to_size_floor (u : Binary32.float32 -> Z) (q : Binary32.float32) :
  Binary32.is_finite q = true -> (0 <= Binary32.value q)%Q ->
  Qfloor (Binary32.value q) < 2 ^ 64 ->
  Binary32.to_size u q = Some (Qfloor (Binary32.value q)) /\
  0 <= Qfloor (Binary32.value q).
Proof.
  destruct q as [s|s| |s m e]; cbn [Binary32.is_finite Binary32.to_size Binary32.value];
    try discriminate.
  - intros _ _ _. split; [reflexivity|]. cbn. lia.
  - destruct s.
    + intros _ Hneg _. exfalso.
      assert (Hp : forall k, 0 < 2 ^ Zpos k) by (intros k; now apply Z.pow_pos_nonneg).
      destruct e as [|p|p]; unfold Qle, inject_Z in Hneg;
        cbn [Qnum Qden cond_Zopp Z.opp] in Hneg.
      * change (2 ^ 0) with 1 in Hneg. lia.
      * specialize (Hp p). nia.
      * lia.
    + intros _ _ Hlt.
      assert (Hpos : 0 <= Binary32.integral_part m e).
      { destruct e as [|p|p]; cbn [Binary32.integral_part]; [lia| |].
        - apply Z.shiftl_nonneg. lia.
        - apply Z.shiftr_nonneg. lia. }
      assert (E : Binary32.integral_part m e =
                  Qfloor (Binary32.value (S754_finite false m e))).
      { destruct e as [|p|p]; cbn [Binary32.integral_part Binary32.value cond_Zopp].
        - rewrite Qfloor_Z. change (2 ^ 0) with 1. lia.
        - rewrite Qfloor_Z. apply Z.shiftl_mul_pow2. lia.
        - cbn [Qfloor]. rewrite Pos2Z.inj_pow. apply Z.shiftr_div_pow2. lia. }
      cbn [Binary32.value] in E. rewrite <- E in *.
      destruct (Z.ltb_spec (Binary32.integral_part m e) (2 ^ 64)); [|lia].
      split; [reflexivity|assumption].
Qed.

(** *** Division in binary32

    A non-negative float divided by a larger one gives a quotient that
    rounds to less than 1, so its conversion to [size_t] is 0.  The
    proof follows the rounding of [SFdiv] step by step: the quotient of
    two binary32 values x < y is at most 1 - 2^-24, which is itself a
    binary32 value. *)

Module Binary32Division.

Import Binary32.

Lemma digits2_pos_bounds (p : positive) :
  2 ^ (Zpos (digits2_pos p) - 1) <= Zpos p < 2 ^ Zpos (digits2_pos p).
Proof.
  induction p as [p IH|p IH|]; cbn [digits2_pos].
  - rewrite Pos2Z.inj_succ. replace (Z.succ (Zpos (digits2_pos p)) - 1)
      with (Z.succ (Zpos (digits2_pos p) - 1)) by lia.
    rewrite !Z.pow_succ_r by lia. lia.
  - rewrite Pos2Z.inj_succ. replace (Z.succ (Zpos (digits2_pos p)) - 1)
      with (Z.succ (Zpos (digits2_pos p) - 1)) by lia.
    rewrite !Z.pow_succ_r by lia. lia.
  - cbn. lia.
Qed.

Lemma Zdigits2_le (q n : Z) : 0 <= n -> 0 <= q < 2 ^ n -> Zdigits2 q <= n.
Proof.
  intros Hn [Hq Hlt]. destruct q as [|p|p]; cbn [Zdigits2]; [lia| |lia].
  destruct (digits2_pos_bounds p) as [Hlo _].
  destruct (Z.le_gt_cases (Zpos (digits2_pos p)) n) as [|Hgt]; [assumption|].
  exfalso. assert (2 ^ n <= 2 ^ (Zpos (digits2_pos p) - 1))
    by (apply Z.pow_le_mono_r; lia). lia.
Qed.

Lemma fexp_neg (z : Z) : z <= 0 -> fexp prec emax z <= -24.
Proof. unfold fexp, emin, prec, emax. lia. Qed.

Lemma shr_1_m (mrs : shr_record) :
  0 <= shr_m mrs -> shr_m (shr_1 mrs) = shr_m mrs / 2.
Proof.
  destruct mrs as [m r s]. cbn [shr_m]. intros Hm.
  destruct m as [|[p|p|]|p]; cbn [shr_1 shr_m]; try lia; try reflexivity.
  - change (Z.pos p~1) with (2 * Z.pos p + 1).
    apply Z.div_unique with (r := 1); lia.
  - change (Z.pos p~0) with (2 * Z.pos p).
    apply Z.div_unique with (r := 0); lia.
Qed.

Lemma pow2_pos (z : Z) : 0 <= z -> 0 < 2 ^ z.
Proof. intros Hz. now apply Z.pow_pos_nonneg. Qed.

Lemma pow2_xI (p : positive) : 2 ^ Zpos p~1 = 2 * (2 ^ Zpos p * 2 ^ Zpos p).
Proof.
  assert (E : Zpos p~1 = 1 + (Zpos p + Zpos p)) by lia.
  rewrite E, !Z.pow_add_r by lia. reflexivity.
Qed.

Lemma pow2_xO (p : positive) : 2 ^ Zpos p~0 = 2 ^ Zpos p * 2 ^ Zpos p.
Proof.
  assert (E : Zpos p~0 = Zpos p + Zpos p) by lia.
  now rewrite E, Z.pow_add_r by lia.
Qed.

Lemma div_div_pos (a b c : Z) : 0 < b -> 0 < c -> a / b / c = a / (b * c).
Proof. intros Hb Hc. apply Z.div_div; lia. Qed.

Lemma iter_shr_m (p : positive) :
  forall mrs, 0 <= shr_m mrs ->
    shr_m (iter_pos shr_1 p mrs) = shr_m mrs / 2 ^ Zpos p.
Proof.
  induction p as [p IH|p IH|]; intros mrs Hm; cbn [iter_pos].
  - pose proof (pow2_pos (Zpos p) ltac:(lia)) as Hp.
    assert (H1 : 0 <= shr_m (shr_1 mrs)).
    { rewrite shr_1_m by assumption. apply Z.div_pos; lia. }
    assert (H2 : 0 <= shr_m (iter_pos shr_1 p (shr_1 mrs))).
    { rewrite IH by assumption. apply Z.div_pos; assumption. }
    rewrite IH, IH, shr_1_m by assumption.
    rewrite !div_div_pos by lia. now rewrite pow2_xI.
  - pose proof (pow2_pos (Zpos p) ltac:(lia)) as Hp.
    assert (H2 : 0 <= shr_m (iter_pos shr_1 p mrs)).
    { rewrite IH by assumption. apply Z.div_pos; assumption. }
    rewrite IH, IH by assumption.
    rewrite !div_div_pos by lia. now rewrite pow2_xO.
  - rewrite shr_1_m by assumption. reflexivity.
Qed.

Lemma shr_1_exact (m : Z) :
  0 <= m -> m mod 2 = 0 ->
  shr_1 (Build_shr_record m false false) = Build_shr_record (m / 2) false false.
Proof.
  intros Hm He.
  assert (E : m = 2 * (m / 2)) by (rewrite (Z.div_mod m 2) at 1; lia).
  destruct (m / 2) as [|k|k]; subst m; try lia; reflexivity.
Qed.

Lemma iter_shr_exact (p : positive) :
  forall m, 0 <= m -> m mod 2 ^ Zpos p = 0 ->
    iter_pos shr_1 p (Build_shr_record m false false) =
    Build_shr_record (m / 2 ^ Zpos p) false false.
Proof.
  induction p as [p IH|p IH|]; intros m Hm He; cbn [iter_pos].
  - pose proof (pow2_pos (Zpos p) ltac:(lia)) as Hp.
    rewrite pow2_xI in *. set (P := 2 ^ Zpos p) in *.
    apply Z.mod_divide in He; [|lia]. destruct He as [k Hk].
    assert (Hk0 : 0 <= k) by nia.
    assert (E1 : m / 2 = k * P * P)
      by (symmetry; apply Z.div_unique with (r := 0); lia).
    assert (E2 : m / (2 * (P * P)) = k)
      by (symmetry; apply Z.div_unique with (r := 0); lia).
    rewrite shr_1_exact; [|assumption|].
    2:{ rewrite Hk. replace (k * (2 * (P * P))) with ((k * P * P) * 2) by lia.
        apply Z.mod_mul. lia. }
    rewrite E1, E2. rewrite IH; [|nia|apply Z.mod_mul; lia].
    rewrite Z.div_mul by lia. rewrite IH; [|nia|apply Z.mod_mul; lia].
    now rewrite Z.div_mul by lia.
  - pose proof (pow2_pos (Zpos p) ltac:(lia)) as Hp.
    rewrite pow2_xO in *. set (P := 2 ^ Zpos p) in *.
    apply Z.mod_divide in He; [|lia]. destruct He as [k Hk].
    assert (Hk0 : 0 <= k) by nia.
    assert (E2 : m / (P * P) = k)
      by (symmetry; apply Z.div_unique with (r := 0); lia).
    rewrite E2, Hk. replace (k * (P * P)) with ((k * P) * P) by lia.
    rewrite IH; [|nia|apply Z.mod_mul; lia].
    rewrite Z.div_mul by lia. rewrite IH; [|nia|apply Z.mod_mul; lia].
    now rewrite Z.div_mul by lia.
  - change (2 ^ 1) with 2 in *. now apply shr_1_exact.
Qed.

Lemma shr_record_of_loc_m (m : Z) (l : location) :
  shr_m (shr_record_of_loc m l) = m.
Proof. destruct l as [|[ | | ]]; reflexivity. Qed.

Lemma shr_fexp_spec (m e : Z) (l : location) :
  0 <= m ->
  let k := Z.max 0 (fexp prec emax (Zdigits2 m + e) - e) in
  snd (shr_fexp prec emax m e l) = e + k /\
  shr_m (fst (shr_fexp prec emax m e l)) = m / 2 ^ k /\
  (l = loc_Exact -> m mod 2 ^ k = 0 ->
   loc_of_shr_record (fst (shr_fexp prec emax m e l)) = loc_Exact).
Proof.
  intros Hm k. subst k. unfold shr_fexp, shr.
  destruct (fexp prec emax (Zdigits2 m + e) - e) as [|p|p]; cbn [fst snd].
  - change (Z.max 0 0) with 0. rewrite Z.add_0_r, shr_record_of_loc_m.
    change (2 ^ 0) with 1. rewrite Z.div_1_r.
    repeat split. intros -> _. reflexivity.
  - replace (Z.max 0 (Zpos p)) with (Zpos p) by lia.
    rewrite iter_shr_m by (rewrite shr_record_of_loc_m; assumption).
    rewrite shr_record_of_loc_m. repeat split.
    intros -> Hd. cbn [shr_record_of_loc]. now rewrite iter_shr_exact.
  - replace (Z.max 0 (Zneg p)) with 0 by lia. rewrite Z.add_0_r, shr_record_of_loc_m.
    change (2 ^ 0) with 1. rewrite Z.div_1_r.
    repeat split. intros -> _. reflexivity.
Qed.

Lemma round_nearest_even_bounds (m : Z) (l : location) :
  m <= round_nearest_even m l <= m + 1.
Proof.
  destruct l as [|[ | | ]]; cbn [round_nearest_even]; try lia.
  destruct (Z.even m); lia.
Qed.

Lemma round_below_one (u : float32 -> Z) (q e : Z) (l : location) :
  0 <= q -> e <= -24 ->
  q * 2 ^ 24 <= (2 ^ 24 - 1) * 2 ^ (- e) ->
  (q * 2 ^ 24 = (2 ^ 24 - 1) * 2 ^ (- e) -> l = loc_Exact) ->
  to_size u (binary_round_aux prec emax false q e l) = Some 0.
Proof.
  intros Hq He Hle Hex. unfold binary_round_aux.
  destruct (shr_fexp_spec q e l Hq) as (Ee1 & Em1 & Ex1).
  destruct (shr_fexp prec emax q e l) as [mrs1 e1]. cbn [fst snd] in *.
  set (k1 := Z.max 0 (fexp prec emax (Zdigits2 q + e) - e)) in *.
  pose proof (pow2_pos (- e) ltac:(lia)) as HP.
  assert (Hq' : q < 2 ^ (- e)) by nia.
  assert (Hd1 : Zdigits2 q <= - e) by (apply Zdigits2_le; lia).
  pose proof (fexp_neg (Zdigits2 q + e) ltac:(lia)) as Hf1.
  assert (He1 : e <= e1 <= -24) by lia.
  assert (Hk1 : 0 <= k1) by lia.
  pose proof (pow2_pos k1 Hk1) as HK1.
  pose proof (pow2_pos (- e1) ltac:(lia)) as HN1.
  assert (Esplit : 2 ^ (- e) = 2 ^ k1 * 2 ^ (- e1)).
  { rewrite <- Z.pow_add_r by lia. f_equal. lia. }
  set (m1 := shr_m mrs1) in *.
  assert (Hm1 : 0 <= m1) by (rewrite Em1; apply Z.div_pos; lia).
  assert (Hm1q : m1 * 2 ^ k1 <= q)
    by (rewrite Em1, Z.mul_comm; apply Z.mul_div_le; lia).
  assert (Hb1 : m1 * 2 ^ 24 <= (2 ^ 24 - 1) * 2 ^ (- e1)).
  { rewrite Esplit in Hle. nia. }
  assert (HN24 : 2 ^ 24 <= 2 ^ (- e1)) by (apply Z.pow_le_mono_r; lia).
  set (m2 := round_nearest_even m1 (loc_of_shr_record mrs1)).
  assert (Hm2 : 0 <= m2 < 2 ^ (- e1)).
  { pose proof (round_nearest_even_bounds m1 (loc_of_shr_record mrs1)) as Hr.
    fold m2 in Hr.
    destruct (Z.lt_ge_cases (m1 + 1) (2 ^ (- e1))) as [|Hcrit]; [lia|].
    assert (EN : 2 ^ (- e1) = 2 ^ 24) by nia.
    assert (Em : m1 = 2 ^ 24 - 1) by nia.
    assert (Eq : q * 2 ^ 24 = (2 ^ 24 - 1) * 2 ^ (- e)).
    { rewrite Esplit, EN. rewrite Esplit, EN in Hle. nia. }
    assert (Eqm : q = m1 * 2 ^ k1).
    { rewrite Esplit, EN in Eq. nia. }
    assert (Hloc : loc_of_shr_record mrs1 = loc_Exact).
    { apply Ex1; [now apply Hex|]. rewrite Eqm. apply Z.mod_mul. lia. }
    unfold m2. rewrite Hloc. cbn [round_nearest_even]. lia. }
  destruct (shr_fexp_spec m2 e1 loc_Exact (proj1 Hm2)) as (Ee2 & Em2 & _).
  destruct (shr_fexp prec emax m2 e1 loc_Exact) as [mrs2 e2]. cbn [fst snd] in *.
  set (k2 := Z.max 0 (fexp prec emax (Zdigits2 m2 + e1) - e1)) in *.
  assert (Hd2 : Zdigits2 m2 <= - e1) by (apply Zdigits2_le; lia).
  pose proof (fexp_neg (Zdigits2 m2 + e1) ltac:(lia)) as Hf2.
  assert (He2 : e1 <= e2 <= -24) by lia.
  assert (Hk2 : 0 <= k2) by lia.
  pose proof (pow2_pos k2 Hk2) as HK2.
  pose proof (pow2_pos (- e2) ltac:(lia)) as HN2.
  assert (Esplit2 : 2 ^ (- e1) = 2 ^ k2 * 2 ^ (- e2)).
  { rewrite <- Z.pow_add_r by lia. f_equal. lia. }
  assert (Hm'' : 0 <= shr_m mrs2 < 2 ^ (- e2)).
  { rewrite Em2. split; [apply Z.div_pos; lia|].
    apply Z.div_lt_upper_bound; [assumption|]. lia. }
  destruct (shr_m mrs2) as [|m|m]; [reflexivity| |lia].
  unfold emax, prec. destruct (Z.leb_spec e2 (128 - 24)) as [_|]; [|lia].
  cbn [to_size]. destruct e2 as [|pe|pe]; try lia.
  cbn [integral_part]. rewrite Z.shiftr_div_pow2 by lia.
  change (- Zneg pe) with (Zpos pe) in Hm''.
  rewrite Z.div_small by lia. reflexivity.
Qed.

Lemma bounded_digits (m : positive) (e : Z) :
  bounded prec emax m e = true ->
  Zpos (digits2_pos m) <= 24 /\ -149 <= e /\
  (-149 < e -> Zpos (digits2_pos m) = 24).
Proof.
  unfold bounded, canonical_mantissa, fexp, emin, prec, emax.
  intros H. apply andb_prop in H. destruct H as [H _].
  apply Z.eqb_eq in H. lia.
Qed.

Lemma new_location_zero (n : Z) : new_location n 0 = loc_Exact.
Proof.
  unfold new_location, new_location_even, new_location_odd.
  destruct (Z.even n); reflexivity.
Qed.

Lemma div_below_one (u : float32 -> Z) (mx my : positive) (ex ey : Z) :
  bounded prec emax mx ex = true -> bounded prec emax my ey = true ->
  ex < ey \/ (ex = ey /\ Zpos mx < Zpos my) ->
  to_size u (SFdiv prec emax (S754_finite false mx ex) (S754_finite false my ey))
  = Some 0.
Proof.
  intros Hx Hy Hlt.
  destruct (bounded_digits mx ex Hx) as (Hdx & Hex & Hnx).
  destruct (bounded_digits my ey Hy) as (Hdy & Hey & Hny).
  destruct (digits2_pos_bounds mx) as [Hxlo Hxhi].
  destruct (digits2_pos_bounds my) as [Hylo Hyhi].
  set (d1 := Zpos (digits2_pos mx)) in *. set (d2 := Zpos (digits2_pos my)) in *.
  assert (Hmx : Zpos mx < 2 ^ 24).
  { apply Z.lt_le_trans with (2 ^ d1); [assumption|]. apply Z.pow_le_mono_r; lia. }
  assert (Hmy : Zpos my < 2 ^ 24).
  { apply Z.lt_le_trans with (2 ^ d2); [assumption|]. apply Z.pow_le_mono_r; lia. }
  set (t := ey - ex). assert (Ht : 0 <= t) by lia.
  pose proof (pow2_pos t Ht) as HT.
  (* the magnitudes *)
  assert (HE : d1 + ex - (d2 + ey) <= 0).
  { destruct Hlt as [Hlt|[-> Hm]]; [specialize (Hny ltac:(lia)); lia|].
    destruct (Z.le_gt_cases d1 d2) as [|Hgt]; [lia|]. exfalso.
    assert (2 ^ d2 <= 2 ^ (d1 - 1)) by (apply Z.pow_le_mono_r; lia). lia. }
  (* the quotient of the mantissas is at most 1 - 2^-24 *)
  assert (HK : Zpos mx * 2 ^ 24 <= (2 ^ 24 - 1) * (Zpos my * 2 ^ t)).
  { destruct Hlt as [Hlt|[E Hm]].
    - specialize (Hny ltac:(lia)). rewrite Hny in Hylo. change (24 - 1) with 23 in Hylo.
      assert (2 ^ 1 <= 2 ^ t) by (apply Z.pow_le_mono_r; lia).
      change (2 ^ 1) with 2 in *.
      assert (2 ^ 24 <= Zpos my * 2 ^ t) by nia. nia.
    - replace t with 0 by lia. change (2 ^ 0) with 1. lia. }
  unfold SFdiv, SFdiv_core_binary. cbn [xorb Zdigits2]. fold d1 d2.
  set (e' := Z.min (fexp prec emax (d1 + ex - (d2 + ey))) (ex - ey)).
  pose proof (fexp_neg _ HE) as Hf.
  assert (He' : e' <= -24) by lia.
  set (s := ex - ey - e'). assert (Hs : 0 <= s) by lia.
  pose proof (pow2_pos s Hs) as HS.
  assert (Em' : match s with
                | 0 => Zpos mx
                | Zpos _ => Z.shiftl (Zpos mx) s
                | Zneg _ => 0
                end = Zpos mx * 2 ^ s).
  { destruct s as [|ps|ps] eqn:Es; [change (2 ^ 0) with 1; lia| |lia].
    apply Z.shiftl_mul_pow2. lia. }
  rewrite Em'.
  pose proof (Z_div_mod (Zpos mx * 2 ^ s) (Zpos my) ltac:(lia)) as Hdm.
  destruct (Z.div_eucl (Zpos mx * 2 ^ s) (Zpos my)) as [q r].
  destruct Hdm as [Edm Hr].
  assert (Esplit : 2 ^ (- e') = 2 ^ s * 2 ^ t).
  { rewrite <- Z.pow_add_r by lia. f_equal. lia. }
  assert (Hq : 0 <= q) by nia.
  assert (HKs : Zpos mx * 2 ^ s * 2 ^ 24 <= (2 ^ 24 - 1) * (Zpos my * (2 ^ s * 2 ^ t)))
    by nia.
  apply round_below_one; try assumption.
  - rewrite Esplit.
    assert (Zpos my * (q * 2 ^ 24) <= Zpos my * ((2 ^ 24 - 1) * (2 ^ s * 2 ^ t))) by nia.
    apply Z.mul_le_mono_pos_l with (Zpos my); lia.
  - rewrite Esplit. intros Eq.
    assert (r = 0) by nia. subst r. apply new_location_zero.
Qed.

Lemma quotient_below_one (u : float32 -> Z) (x y : spec_float) :
  valid_binary prec emax x = true -> valid_binary prec emax y = true ->
  SFleb (S754_zero false) x = true -> SFltb x y = true ->
  to_size u (SFdiv prec emax x y) = Some 0.
Proof.
  intros Vx Vy H0 Hlt.
  destruct x as [sx|[|]| |[|] mx ex], y as [sy|[|]| |[|] my ey];
    try discriminate; try reflexivity.
  apply div_below_one; try assumption.
  unfold SFltb, SFcompare in Hlt.
  destruct (Z.compare_spec ex ey) as [E|Hl|Hg]; try discriminate.
  - right. split; [assumption|].
    destruct (Pos.compare_cont Eq mx my) eqn:Ec; try discriminate.
    exact Ec.
  - now left.
Qed.

End Binary32Division.

(** ** Rounding in binary32 *)

Module Binary32Rounding.

Import Binary32 Binary32Division.

Lemma bpow_pos (e : Z) : (0 < bpow e)%R.
Proof. apply powerRZ_lt. lra. Qed.

Lemma bpow_add (a b : Z) : bpow (a + b) = (bpow a * bpow b)%R.
Proof. apply powerRZ_add. lra. Qed.

Lemma bpow_IZR (e : Z) : 0 <= e -> bpow e = IZR (2 ^ e).
Proof.
  intros He. unfold bpow. destruct e as [|p|p]; [reflexivity| |lia].
  change (2 ^ Zpos p) with (Z.pow_pos 2 p). now rewrite Zpower_pos_powerRZ.
Qed.

Lemma bpow_le (a b : Z) : a <= b -> (bpow a <= bpow b)%R.
Proof.
  intros H. replace b with (a + (b - a)) by lia. rewrite bpow_add.
  rewrite (bpow_IZR (b - a)) by lia.
  assert (1 <= 2 ^ (b - a)) by (pose proof (pow2_pos (b - a)); lia).
  apply IZR_le in H0. pose proof (bpow_pos a). nra.
Qed.

Lemma bpow_lt (a b : Z) : a < b -> (bpow a < bpow b)%R.
Proof.
  intros H. replace b with (a + (b - a)) by lia. rewrite bpow_add.
  rewrite (bpow_IZR (b - a)) by lia.
  assert (2 <= 2 ^ (b - a)).
  { change 2 with (2 ^ 1) at 1. apply Z.pow_le_mono_r; lia. }
  apply IZR_le in H0. pose proof (bpow_pos a). nra.
Qed.

Lemma F2R_shift (m e k : Z) : 0 <= k -> F2R m (e + k) = F2R (m * 2 ^ k) e.
Proof.
  intros Hk. unfold F2R. rewrite bpow_add, (bpow_IZR k), mult_IZR by assumption.
  ring.
Qed.

Lemma F2R_le (a b e : Z) : a <= b -> (F2R a e <= F2R b e)%R.
Proof.
  intros H. unfold F2R. apply IZR_le in H. pose proof (bpow_pos e). nra.
Qed.

Lemma F2R_lt (a b e : Z) : a < b -> (F2R a e < F2R b e)%R.
Proof.
  intros H. unfold F2R. apply IZR_lt in H. pose proof (bpow_pos e). nra.
Qed.

Lemma F2R_le_inv (a b e : Z) : (F2R a e <= F2R b e)%R -> a <= b.
Proof.
  intros H. destruct (Z.le_gt_cases a b) as [|Hgt]; [assumption|].
  apply (F2R_lt b a e) in Hgt. lra.
Qed.

Lemma F2R_lt_inv (a b e : Z) : (F2R a e < F2R b e)%R -> a < b.
Proof.
  intros H. destruct (Z.lt_ge_cases a b) as [|Hge]; [assumption|].
  apply (F2R_le b a e) in Hge. lra.
Qed.

Lemma F2R_nonneg (m e : Z) : 0 <= m -> (0 <= F2R m e)%R.
Proof.
  intros H. unfold F2R. apply IZR_le in H. pose proof (bpow_pos e). nra.
Qed.

(** A binary32 number below the successor of another one is at most
    that one. *)
Lemma below_successor (ma ea mb eb : Z) :
  canonical ma ea -> canonical mb eb ->
  (F2R ma ea < F2R (mb + 1) eb)%R -> (F2R ma ea <= F2R mb eb)%R.
Proof.
  intros (Ha & Hea & Hna) (Hb & Heb & Hnb) Hlt.
  destruct (Z.le_gt_cases eb ea) as [Hle|Hgt].
  - replace ea with (eb + (ea - eb)) in * by lia.
    rewrite F2R_shift in * by lia.
    apply F2R_lt_inv in Hlt. apply F2R_le. lia.
  - specialize (Hnb ltac:(lia)).
    replace eb with (ea + (eb - ea)) by lia. rewrite F2R_shift by lia.
    apply F2R_le.
    assert (2 <= 2 ^ (eb - ea)).
    { change 2 with (2 ^ 1) at 1. apply Z.pow_le_mono_r; lia. }
    nia.
Qed.

(** A binary32 number above another one is at least its successor. *)
Lemma above_successor (ma ea mb eb : Z) :
  canonical ma ea -> canonical mb eb ->
  (F2R mb eb < F2R ma ea)%R -> (F2R (mb + 1) eb <= F2R ma ea)%R.
Proof.
  intros (Ha & Hea & Hna) (Hb & Heb & Hnb) Hlt.
  destruct (Z.le_gt_cases eb ea) as [Hle|Hgt].
  - replace ea with (eb + (ea - eb)) in * by lia.
    rewrite F2R_shift in * by lia.
    apply F2R_lt_inv in Hlt. apply F2R_le. lia.
  - specialize (Hnb ltac:(lia)). exfalso.
    replace eb with (ea + (eb - ea)) in Hlt by lia. rewrite F2R_shift in Hlt by lia.
    apply F2R_lt_inv in Hlt.
    assert (2 <= 2 ^ (eb - ea)).
    { change 2 with (2 ^ 1) at 1. apply Z.pow_le_mono_r; lia. }
    nia.
Qed.


Lemma fexp_eq (z : Z) : fexp prec emax z = Z.max (z - 24) (-149).
Proof. reflexivity. Qed.

Lemma Zdigits2_bounds (m : Z) :
  0 < m -> 2 ^ (Zdigits2 m - 1) <= m < 2 ^ Zdigits2 m.
Proof.
  intros Hm. destruct m as [|p|p]; try lia. apply digits2_pos_bounds.
Qed.

Lemma Zdigits2_nonneg (m : Z) : 0 <= Zdigits2 m.
Proof. destruct m; cbn; lia. Qed.

Lemma finish_eq (s : bool) (m e : Z) :
  match m with
  | 0 => S754_zero s
  | Zpos p => if e <=? emax - prec then S754_finite s p e else S754_infinity s
  | Zneg _ => S754_nan
  end = finish s m e.
Proof. reflexivity. Qed.

(** The rounding step shared by all operations: a non-negative real
    located by [m], [e] and [l] is rounded to one of its two binary32
    neighbours. *)
Lemma round_aux_spec (s : bool) (m e : Z) (l : location) (x : R) :
  0 <= m ->
  e <= fexp prec emax (Zdigits2 m + e) ->
  (F2R m e <= x < F2R (m + 1) e)%R ->
  (l <> loc_Exact -> (F2R m e < x)%R) ->
  rounds s x (binary_round_aux prec emax s m e l).
Proof.
  intros Hm HP [Hlo Hhi] Hstrict. unfold binary_round_aux.
  destruct (shr_fexp_spec m e l Hm) as (Ee1 & Em1 & Ex1).
  destruct (shr_fexp prec emax m e l) as [mrs1 e1]. cbn [fst snd] in *.
  set (d := Zdigits2 m) in *.
  replace (Z.max 0 (fexp prec emax (d + e) - e))
    with (fexp prec emax (d + e) - e) in * by lia.
  set (k := fexp prec emax (d + e) - e) in *.
  assert (Hk : 0 <= k) by lia.
  pose proof (pow2_pos k Hk) as HK.
  set (m1 := shr_m mrs1) in *.
  assert (Hm1 : 0 <= m1) by (rewrite Em1; apply Z.div_pos; lia).
  assert (Hdiv : m1 * 2 ^ k <= m < (m1 + 1) * 2 ^ k).
  { rewrite Em1. split.
    - rewrite Z.mul_comm. apply Z.mul_div_le. lia.
    - rewrite Z.mul_comm. apply Z.mul_succ_div_gt. lia. }
  assert (He1 : e1 = fexp prec emax (d + e)) by lia.
  rewrite fexp_eq in He1.
  pose proof (Zdigits2_nonneg m) as Hd0. fold d in Hd0.
  assert (Hcan1 : canonical m1 e1).
  { split; [split; [assumption|]|split; [lia|]].
    - destruct (Z.eq_dec m 0) as [E0|Hne]; [nia|].
      destruct (Zdigits2_bounds m ltac:(lia)) as [_ Hup]. fold d in Hup.
      assert (2 ^ d <= 2 ^ (k + 24)) by (apply Z.pow_le_mono_r; lia).
      rewrite Z.pow_add_r in H by lia. nia.
    - intros Hsub.
      destruct (Z.eq_dec m 0) as [E0|Hne].
      { exfalso. subst m. subst d. cbn [Zdigits2] in *. rewrite fexp_eq in HP. lia. }
      destruct (Zdigits2_bounds m ltac:(lia)) as [Hdn _]. fold d in Hdn.
      assert (Ek : d - 1 = 23 + k) by (unfold k; rewrite fexp_eq; lia).
      rewrite Ek, Z.pow_add_r in Hdn by lia. nia. }
  assert (Hint : (F2R m1 e1 <= x < F2R (m1 + 1) e1)%R).
  { replace e1 with (e + k) by lia. rewrite !F2R_shift by assumption. split.
    - apply Rle_trans with (F2R m e); [apply F2R_le; lia|assumption].
    - apply Rlt_le_trans with (F2R (m + 1) e); [assumption|apply F2R_le; lia]. }
  assert (Hloc : loc_of_shr_record mrs1 <> loc_Exact -> (F2R m1 e1 < x)%R).
  { intros Hne. replace e1 with (e + k) by lia. rewrite F2R_shift by assumption.
    destruct (Z.eq_dec (m mod 2 ^ k) 0) as [Emod|Hmod].
    - assert (Hl : l <> loc_Exact) by (intros El; apply Hne, Ex1; assumption).
      apply Rle_lt_trans with (F2R m e); [apply F2R_le; lia|now apply Hstrict].
    - apply Rlt_le_trans with (F2R m e); [|assumption]. apply F2R_lt.
      assert (m = 2 ^ k * (m / 2 ^ k) + m mod 2 ^ k) by (apply Z.div_mod; lia).
      pose proof (Z.mod_pos_bound m (2 ^ k) HK). rewrite <- Em1 in H. lia. }
  set (m2 := round_nearest_even m1 (loc_of_shr_record mrs1)).
  assert (Hm2 : m2 = m1 \/ (m2 = m1 + 1 /\ (F2R m1 e1 < x)%R)).
  { unfold m2. destruct (loc_of_shr_record mrs1) as [|[ | | ]] eqn:El;
      cbn [round_nearest_even]; auto.
    - destruct (Z.even m1); [now left|]. right. split; [reflexivity|].
      apply Hloc. discriminate.
    - right. split; [reflexivity|]. apply Hloc. discriminate. }
  assert (Hm2pos : 0 <= m2) by (destruct Hm2 as [->|[-> _]]; lia).
  destruct (shr_fexp_spec m2 e1 loc_Exact Hm2pos) as (Ee2 & Em2 & _).
  destruct (shr_fexp prec emax m2 e1 loc_Exact) as [mrs2 e2]. cbn [fst snd] in *.
  rewrite finish_eq.
  destruct Hcan1 as (Hr1 & Hemin1 & Hn1).
  destruct (Z.eq_dec m2 (2 ^ 24)) as [E24|Hne24].
  - (* the mantissa overflows into the next binade *)
    rewrite E24 in Ee2, Em2. change (Zdigits2 (2 ^ 24)) with 25 in Ee2, Em2.
    rewrite fexp_eq in Ee2, Em2.
    replace (Z.max 0 (Z.max (25 + e1 - 24) (-149) - e1)) with 1 in Ee2, Em2 by lia.
    change (2 ^ 24 / 2 ^ 1) with (2 ^ 23) in Em2.
    exists m1, e1, (2 ^ 23), (e1 + 1). rewrite Em2, Ee2.
    split; [repeat split; lia|]. split; [repeat split; lia|].
    split; [assumption|]. split; [|reflexivity].
    assert (E : F2R (2 ^ 23) (e1 + 1) = F2R (2 ^ 24) e1)
      by (rewrite F2R_shift by lia; reflexivity).
    rewrite E. destruct Hm2 as [E1|[E1 Hx]].
    + left. now rewrite <- E1, E24.
    + right. split; [now rewrite <- E1, E24|assumption].
  - assert (Hlt : m2 < 2 ^ 24) by (destruct Hm2 as [E|[E _]]; lia).
    assert (Hd2 : Zdigits2 m2 <= 24) by (apply Zdigits2_le; lia).
    rewrite fexp_eq in Ee2, Em2.
    replace (Z.max 0 (Z.max (Zdigits2 m2 + e1 - 24) (-149) - e1)) with 0
      in Ee2, Em2 by lia.
    change (2 ^ 0) with 1 in Em2. rewrite Z.div_1_r in Em2. rewrite Z.add_0_r in Ee2.
    exists m1, e1, m2, e1. rewrite Em2, Ee2.
    split; [repeat split; lia|].
    split; [repeat split; try lia; destruct Hm2 as [E|[E _]]; intros; specialize (Hn1 ltac:(lia)); lia|].
    split; [assumption|]. split; [|reflexivity].
    destruct Hm2 as [->|[-> Hx]]; [now left|right; now split].
Qed.


(** *** What a rounded result satisfies *)

Lemma canonical_bounded (p : positive) (e : Z) :
  canonical (Zpos p) e -> e <= 104 -> bounded prec emax p e = true.
Proof.
  intros ((_ & Hlt) & Hemin & Hn) He. unfold bounded, canonical_mantissa.
  apply andb_true_intro. split; [|apply Z.leb_le; unfold emax, prec; lia].
  apply Z.eqb_eq. rewrite fexp_eq.
  destruct (digits2_pos_bounds p) as [Hlo Hhi].
  assert (Hd : Zpos (digits2_pos p) <= 24) by (apply (Zdigits2_le (Zpos p)); lia).
  destruct (Z.eq_dec e (-149)) as [->|Hne]; [lia|].
  specialize (Hn ltac:(lia)).
  assert (Zpos (digits2_pos p) = 24); [|lia].
  destruct (Z.le_gt_cases 24 (Zpos (digits2_pos p))) as [|Hlt']; [lia|].
  exfalso. assert (2 ^ Zpos (digits2_pos p) <= 2 ^ 23) by (apply Z.pow_le_mono_r; lia).
  lia.
Qed.

Lemma bounded_canonical (p : positive) (e : Z) :
  bounded prec emax p e = true -> canonical (Zpos p) e /\ e <= 104.
Proof.
  intros H. destruct (bounded_digits p e H) as (Hd & He & Hn).
  unfold bounded in H. apply andb_prop in H. destruct H as [_ H].
  apply Z.leb_le in H. unfold emax, prec in H.
  destruct (digits2_pos_bounds p) as [Hlo Hhi].
  split; [|lia]. split; [split; [lia|]|split; [assumption|]].
  - apply Z.lt_le_trans with (2 ^ Zpos (digits2_pos p)); [assumption|].
    apply Z.pow_le_mono_r; lia.
  - intros Hs. rewrite (Hn Hs) in Hlo. exact Hlo.
Qed.

Lemma B2R_finish (s : bool) (m e : Z) :
  0 <= m -> e <= 104 -> B2R (finish s m e) = (sgn s * F2R m e)%R.
Proof.
  intros Hm He. destruct m as [|p|p]; [| |lia].
  - cbn. unfold F2R. ring.
  - cbn [finish]. destruct (Z.leb_spec e 104); [|lia].
    cbn [B2R]. unfold F2R, sgn. destruct s; cbn [cond_Zopp].
    + rewrite opp_IZR. ring.
    + ring.
Qed.

Lemma canonical_below_overflow (m e : Z) :
  canonical m e -> (F2R m e < F2R (2 ^ 24) 104)%R -> e <= 104.
Proof.
  intros (Hm & He & Hn) Hlt.
  destruct (Z.le_gt_cases e 104) as [|Hgt]; [assumption|]. exfalso.
  specialize (Hn ltac:(lia)).
  replace e with (104 + (e - 104)) in Hlt by lia.
  rewrite F2R_shift in Hlt by lia. apply F2R_lt_inv in Hlt.
  assert (2 <= 2 ^ (e - 104)).
  { change 2 with (2 ^ 1) at 1. apply Z.pow_le_mono_r; lia. }
  nia.
Qed.

Lemma canonical_lt_overflow (m e : Z) :
  canonical m e -> e <= 104 -> (F2R m e < F2R (2 ^ 24) 104)%R.
Proof.
  intros (Hm & He & Hn) Hle.
  replace 104 with (e + (104 - e)) by lia. rewrite F2R_shift by lia.
  apply F2R_lt. pose proof (pow2_pos (104 - e)). nia.
Qed.

Lemma Rabs_sgn (s : bool) : Rabs (sgn s) = 1%R.
Proof. unfold sgn, Rabs. destruct s; destruct (Rcase_abs _); lra. Qed.

Lemma Rabs_signed (s : bool) (v : R) : (0 <= v)%R -> Rabs (sgn s * v) = v.
Proof.
  intros Hv. rewrite Rabs_mult, Rabs_sgn, (Rabs_pos_eq v) by assumption. ring.
Qed.

(** The result is never NaN and it is a valid float. *)
Lemma rounds_valid (s : bool) (x : R) (z : float32) :
  rounds s x z -> valid_binary prec emax z = true /\ z <> S754_nan.
Proof.
  intros (m1 & e1 & m3 & e3 & _ & Hc3 & _ & _ & ->).
  destruct m3 as [|p|p]; [split; [reflexivity|discriminate]| |destruct Hc3; lia].
  cbn [finish]. destruct (Z.leb_spec e3 104).
  - split; [|discriminate]. cbn [valid_binary]. now apply canonical_bounded.
  - split; [reflexivity|discriminate].
Qed.

(** A binary32 number above the real bounds the result from above. *)
Lemma rounds_le (s : bool) (x : R) (z : float32) (mh eh : Z) :
  rounds s x z -> canonical mh eh -> eh <= 104 -> (x <= F2R mh eh)%R ->
  is_finite z = true /\ (Rabs (B2R z) <= F2R mh eh)%R.
Proof.
  intros (m1 & e1 & m3 & e3 & Hc1 & Hc3 & [Hlo Hhi] & Hz & ->) Hch Heh Hx.
  assert (Hle : (F2R m3 e3 <= F2R mh eh)%R).
  { destruct Hz as [->|[-> Hs]]; [lra|].
    apply above_successor; try assumption. lra. }
  assert (He3 : e3 <= 104).
  { apply (canonical_below_overflow m3); [assumption|].
    pose proof (canonical_lt_overflow mh eh Hch Heh). lra. }
  assert (Hm3 : 0 <= m3) by (destruct Hc3; lia).
  split.
  - destruct m3 as [|p|p]; [reflexivity| |lia].
    cbn [finish]. destruct (Z.leb_spec e3 104); [reflexivity|lia].
  - rewrite B2R_finish by assumption.
    rewrite Rabs_signed by now apply F2R_nonneg. assumption.
Qed.

(** A binary32 number below the real bounds the result from below. *)
Lemma rounds_ge (s : bool) (x : R) (z : float32) (ml el : Z) :
  rounds s x z -> canonical ml el -> (F2R ml el <= x)%R ->
  z = S754_infinity s \/
  (is_finite z = true /\ (F2R ml el <= Rabs (B2R z))%R).
Proof.
  intros (m1 & e1 & m3 & e3 & Hc1 & Hc3 & [Hlo Hhi] & Hz & ->) Hcl Hx.
  assert (Hle : (F2R ml el <= F2R m3 e3)%R).
  { apply Rle_trans with (F2R m1 e1).
    - apply below_successor; try assumption. lra.
    - destruct Hz as [->|[-> Hs]]; [lra|]. apply F2R_le. lia. }
  assert (Hm3 : 0 <= m3) by (destruct Hc3; lia).
  destruct (Z.le_gt_cases e3 104) as [He3|He3].
  - right. split.
    + destruct m3 as [|p|p]; [reflexivity| |lia].
      cbn [finish]. destruct (Z.leb_spec e3 104); [reflexivity|lia].
    + rewrite B2R_finish by assumption.
      rewrite Rabs_signed by now apply F2R_nonneg. assumption.
  - left. destruct Hc3 as (Hr & _ & Hn). specialize (Hn ltac:(lia)).
    destruct m3 as [|p|p]; try lia.
    cbn [finish]. destruct (Z.leb_spec e3 104); [lia|reflexivity].
Qed.

(** The sign of the result. *)
Lemma rounds_sign (s : bool) (x : R) (z : float32) :
  rounds s x z -> B2R z = (sgn s * Rabs (B2R z))%R.
Proof.
  intros (m1 & e1 & m3 & e3 & Hc1 & Hc3 & _ & _ & ->).
  assert (Hm3 : 0 <= m3) by (destruct Hc3; lia).
  destruct (Z.le_gt_cases e3 104) as [He3|He3].
  - rewrite B2R_finish by assumption.
    rewrite Rabs_signed by now apply F2R_nonneg. reflexivity.
  - destruct m3 as [|p|p]; [cbn; rewrite Rabs_R0; ring| |lia].
    cbn [finish]. destruct (Z.leb_spec e3 104); [lia|].
    cbn. rewrite Rabs_R0. ring.
Qed.

Lemma W_bounds : (1 < W)%R /\ (/ W = 8388607 / 8388608)%R.
Proof. unfold W. split; [lra|field]. Qed.

(** A normal result differs from the real by a factor between 1/W and W. *)
Lemma rounds_accurate (s : bool) (x : R) (z : float32) :
  rounds s x z -> is_normal z = true ->
  exists rho, B2R z = (sgn s * x * rho)%R /\ (/ W <= rho <= W)%R.
Proof.
  intros (m1 & e1 & m3 & e3 & Hc1 & Hc3 & [Hlo Hhi] & Hz & ->) Hnorm.
  assert (Hm3 : 0 <= m3) by (destruct Hc3; lia).
  destruct m3 as [|p|p]; [discriminate| |lia].
  cbn [finish] in *. destruct (Z.leb_spec e3 104) as [He3|]; [|discriminate].
  cbn [is_normal] in Hnorm. apply Z.leb_le in Hnorm.
  pose proof (B2R_finish s (Zpos p) e3 Hm3 He3) as EB.
  cbn [finish] in EB. destruct (Z.leb_spec e3 104); [|lia]. rewrite EB.
  set (zr := F2R (Zpos p) e3) in *.
  destruct Hc1 as (Hr1 & Hemin1 & Hn1). destruct Hc3 as (Hr3 & Hemin3 & Hn3).
  assert (Hbig : (F2R (2 ^ 23) e1 <= zr)%R).
  { destruct (Z.eq_dec e1 (-149)) as [E|Hne].
    - subst e1. unfold zr. replace e3 with (-149 + (e3 + 149)) by lia.
      rewrite F2R_shift by lia. apply F2R_le.
      pose proof (pow2_pos (e3 + 149)). nia.
    - specialize (Hn1 ltac:(lia)).
      destruct Hz as [->|[-> _]]; apply F2R_le; lia. }
  assert (Hulp : (F2R (m1 + 1) e1 - F2R m1 e1 = bpow e1)%R).
  { unfold F2R. rewrite plus_IZR. ring. }
  assert (E23 : (F2R (2 ^ 23) e1 = 8388608 * bpow e1)%R) by reflexivity.
  pose proof (bpow_pos e1) as Hb.
  assert (Herr : (- bpow e1 <= zr - x <= bpow e1)%R).
  { destruct Hz as [E|[E _]]; fold zr in E; rewrite E; lra. }
  assert (Hzpos : (0 < zr)%R) by lra.
  assert (Hxpos : (0 < x)%R) by nra.
  exists (zr / x)%R. split; [field; lra|].
  destruct W_bounds as [_ ->].
  split.
  - apply Rmult_le_reg_r with x; [assumption|].
    replace (zr / x * x)%R with zr by (field; lra). nra.
  - unfold W. apply Rmult_le_reg_r with x; [assumption|].
    replace (zr / x * x)%R with zr by (field; lra). nra.
Qed.

(** A result that is not normal is exact when the real is a multiple of
    2^-149. *)
Lemma rounds_exact (s : bool) (x : R) (z : float32) (N : Z) :
  rounds s x z -> x = F2R N (-149) -> is_normal z = false -> z <> S754_infinity s ->
  B2R z = (sgn s * x)%R.
Proof.
  intros (m1 & e1 & m3 & e3 & Hc1 & Hc3 & [Hlo Hhi] & Hz & ->) Ex Hnorm Hinf.
  assert (Hm3 : 0 <= m3) by (destruct Hc3; lia).
  assert (He3 : e3 <= 104).
  { destruct (Z.le_gt_cases e3 104) as [|Hgt]; [assumption|]. exfalso.
    destruct Hc3 as (Hr & _ & Hn). specialize (Hn ltac:(lia)).
    destruct m3 as [|p|p]; try lia. cbn [finish] in Hinf.
    destruct (Z.leb_spec e3 104); [lia|]. now apply Hinf. }
  rewrite B2R_finish by assumption. f_equal.
  assert (Hsmall : m3 < 2 ^ 23).
  { destruct m3 as [|p|p]; [lia| |lia]. cbn [finish is_normal] in Hnorm.
    destruct (Z.leb_spec e3 104); [|lia]. cbn [is_normal] in Hnorm.
    apply Z.leb_gt in Hnorm. assumption. }
  destruct Hc1 as (Hr1 & Hemin1 & Hn1). destruct Hc3 as (Hr3 & Hemin3 & Hn3).
  assert (E3 : e3 = -149) by (destruct (Z.eq_dec e3 (-149)); [assumption|specialize (Hn3 ltac:(lia)); lia]).
  subst e3.
  assert (E1 : e1 = -149).
  { destruct (Z.eq_dec e1 (-149)) as [|Hne]; [assumption|]. exfalso.
    specialize (Hn1 ltac:(lia)).
    assert (Hc : (F2R m1 e1 <= F2R m3 (-149))%R).
    { destruct Hz as [->|[-> _]]; [lra|apply F2R_le; lia]. }
    replace e1 with (-149 + (e1 + 149)) in Hc by lia.
    rewrite F2R_shift in Hc by lia. apply F2R_le_inv in Hc.
    pose proof (pow2_pos (e1 + 149)). nia. }
  subst e1. rewrite Ex in Hlo, Hhi.
  apply F2R_le_inv in Hlo. apply F2R_lt_inv in Hhi.
  assert (N = m1) by lia. subst N.
  destruct Hz as [->|[_ Hs]]; [symmetry; assumption|]. rewrite Ex in Hs. lra.
Qed.

End Binary32Rounding.

Module Binary32Operations.

Import Binary32 Binary32Division Binary32Rounding.

Lemma Zdigits2_gt (m n : Z) : 0 <= n -> 2 ^ n <= m -> n < Zdigits2 m.
Proof.
  intros Hn Hm. pose proof (pow2_pos n Hn).
  destruct (Zdigits2_bounds m ltac:(lia)) as [_ Hup].
  apply (Z.pow_lt_mono_r_iff 2); [lia|apply Zdigits2_nonneg|lia].
Qed.

Lemma F2R_mult (a b ea eb : Z) : (F2R a ea * F2R b eb)%R = F2R (a * b) (ea + eb).
Proof. unfold F2R. rewrite mult_IZR, bpow_add. ring. Qed.

Lemma rounds_self (s : bool) (m : positive) (e : Z) :
  bounded prec emax m e = true ->
  rounds s (F2R (Zpos m) e) (S754_finite s m e).
Proof.
  intros Hb. destruct (bounded_canonical m e Hb) as [Hc He].
  exists (Zpos m), e, (Zpos m), e. repeat split; try apply Hc.
  - lra.
  - apply F2R_lt. lia.
  - now left.
  - cbn [finish]. destruct (Z.leb_spec e 104); [reflexivity|lia].
Qed.

(** *** Multiplication *)

Lemma mul_rounds (sx sy : bool) (mx my : positive) (ex ey : Z) :
  bounded prec emax mx ex = true -> bounded prec emax my ey = true ->
  rounds (xorb sx sy) (F2R (Zpos mx) ex * F2R (Zpos my) ey)
         (mul (S754_finite sx mx ex) (S754_finite sy my ey)).
Proof.
  intros Hx Hy. unfold mul, SFmul. rewrite F2R_mult.
  destruct (bounded_digits mx ex Hx) as (Hdx & Hex & Hnx).
  destruct (bounded_digits my ey Hy) as (Hdy & Hey & Hny).
  destruct (digits2_pos_bounds mx) as [Hxlo _].
  destruct (digits2_pos_bounds my) as [Hylo _].
  apply round_aux_spec.
  - lia.
  - rewrite fexp_eq.
    destruct (Z.eq_dec ex (-149)) as [Ex|Hx'];
      [destruct (Z.eq_dec ey (-149)) as [Ey|Hy']; [lia|]|].
    + specialize (Hny ltac:(lia)).
      assert (23 < Zdigits2 (Zpos (mx * my))).
      { apply Zdigits2_gt; [lia|]. rewrite Hny in Hylo.
        change (24 - 1) with 23 in Hylo. rewrite Pos2Z.inj_mul. nia. }
      lia.
    + specialize (Hnx ltac:(lia)).
      assert (23 < Zdigits2 (Zpos (mx * my))).
      { apply Zdigits2_gt; [lia|]. rewrite Hnx in Hxlo.
        change (24 - 1) with 23 in Hxlo. rewrite Pos2Z.inj_mul. nia. }
      lia.
  - rewrite Pos2Z.inj_mul. split; [lra|apply F2R_lt; lia].
  - intros H. now contradiction H.
Qed.

(** *** Addition and subtraction *)

Lemma iter_xO (d m : positive) : Zpos (Pos.iter xO m d) = Zpos m * 2 ^ Zpos d.
Proof.
  induction d as [|d IH] using Pos.peano_ind.
  - cbn. lia.
  - rewrite Pos.iter_succ, Pos2Z.inj_succ, Z.pow_succ_r by lia.
    rewrite Pos2Z.inj_xO, IH. lia.
Qed.

Lemma round_rounds (s : bool) (m : positive) (e : Z) :
  rounds s (F2R (Zpos m) e) (binary_round prec emax s m e).
Proof.
  unfold binary_round, shl_align.
  set (f := fexp prec emax (Zpos (digits2_pos m) + e)).
  destruct (f - e) as [|d|d] eqn:Ed.
  - apply round_aux_spec; [lia|change (e <= f); lia| |intros H; now contradiction H].
    split; [lra|apply F2R_lt; lia].
  - apply round_aux_spec; [lia|change (e <= f); lia| |intros H; now contradiction H].
    split; [lra|apply F2R_lt; lia].
  - assert (Ee : e = f + Zpos d) by lia.
    assert (Ev : F2R (Zpos m) e = F2R (Zpos (Pos.iter xO m d)) f).
    { rewrite Ee, F2R_shift, iter_xO by lia. reflexivity. }
    rewrite Ev.
    apply round_aux_spec; [lia| | |intros H; now contradiction H].
    + destruct (digits2_pos_bounds m) as [Hlo _].
      assert (Zpos (digits2_pos m) - 1 + Zpos d < Zdigits2 (Zpos (Pos.iter xO m d))).
      { apply Zdigits2_gt; [lia|]. rewrite iter_xO, Z.pow_add_r by lia.
        pose proof (pow2_pos (Zpos d)). nia. }
      unfold f in *. rewrite !fexp_eq in *. lia.
    + split; [lra|apply F2R_lt; lia].
Qed.

Lemma normalize_rounds (S ez : Z) :
  S <> 0 ->
  rounds (S <? 0) (F2R (Z.abs S) ez) (binary_normalize prec emax S ez false).
Proof.
  intros HS. destruct S as [|p|p]; [easy| |]; cbn [binary_normalize Z.abs];
    apply round_rounds.
Qed.

Lemma shl_align_fst (m : positive) (e ez : Z) :
  ez <= e -> Zpos (fst (shl_align m e ez)) = Zpos m * 2 ^ (e - ez).
Proof.
  intros H. unfold shl_align. destruct (ez - e) as [|d|d] eqn:Ed; cbn [fst].
  - replace (e - ez) with 0 by lia. lia.
  - lia.
  - rewrite iter_xO. f_equal. f_equal. lia.
Qed.

Lemma B2R_finite (s : bool) (m : positive) (e : Z) :
  B2R (S754_finite s m e) = (sgn s * F2R (Zpos m) e)%R.
Proof.
  cbn [B2R]. unfold F2R, sgn. destruct s; cbn [cond_Zopp];
    [rewrite opp_IZR|]; ring.
Qed.

Lemma F2R_cond_Zopp (s : bool) (m e : Z) :
  F2R (cond_Zopp s m) e = (sgn s * F2R m e)%R.
Proof.
  unfold F2R, sgn. destruct s; cbn [cond_Zopp]; [rewrite opp_IZR|]; ring.
Qed.

Lemma F2R_plus (a b e : Z) : (F2R a e + F2R b e)%R = F2R (a + b) e.
Proof. unfold F2R. rewrite plus_IZR. ring. Qed.

Lemma F2R_minus (a b e : Z) : (F2R a e - F2R b e)%R = F2R (a - b) e.
Proof. unfold F2R. rewrite minus_IZR. ring. Qed.

Lemma F2R_abs (S e : Z) : F2R S e = (sgn (S <? 0) * F2R (Z.abs S) e)%R.
Proof.
  unfold F2R, sgn. destruct (Z.ltb_spec S 0).
  - rewrite Z.abs_neq, opp_IZR by lia. ring.
  - rewrite Z.abs_eq by lia. ring.
Qed.

Lemma F2R_aligned (m : positive) (e ez : Z) :
  ez <= e -> F2R (Zpos m) e = F2R (Zpos m * 2 ^ (e - ez)) ez.
Proof.
  intros H. replace e with (ez + (e - ez)) at 1 by lia. apply F2R_shift. lia.
Qed.


Lemma normalize_sum (S ez : Z) :
  -149 <= ez ->
  sum_rounds (F2R S ez) (binary_normalize prec emax S ez false).
Proof.
  intros He. destruct (Z.eq_dec S 0) as [->|HS].
  - left. split; [unfold F2R; ring|reflexivity].
  - right. exists (S <? 0), (Z.abs S * 2 ^ (ez + 149)).
    assert (E : F2R (Z.abs S) ez = F2R (Z.abs S * 2 ^ (ez + 149)) (-149)).
    { replace ez with (-149 + (ez + 149)) at 1 by lia. apply F2R_shift. lia. }
    split; [pose proof (pow2_pos (ez + 149)); nia|].
    split; [rewrite <- E; apply F2R_abs|].
    rewrite <- E. now apply normalize_rounds.
Qed.

Lemma add_finite (sx sy : bool) (mx my : positive) (ex ey : Z) :
  bounded prec emax mx ex = true -> bounded prec emax my ey = true ->
  sum_rounds (B2R (S754_finite sx mx ex) + B2R (S754_finite sy my ey))
             (add (S754_finite sx mx ex) (S754_finite sy my ey)).
Proof.
  intros Hx Hy.
  destruct (bounded_digits mx ex Hx) as (_ & Hex & _).
  destruct (bounded_digits my ey Hy) as (_ & Hey & _).
  unfold add, SFadd. cbv zeta.
  rewrite !shl_align_fst by lia.
  cbn [B2R].
  rewrite (F2R_cond_Zopp sx), (F2R_cond_Zopp sy).
  rewrite (F2R_aligned mx ex (Z.min ex ey)), (F2R_aligned my ey (Z.min ex ey)) by lia.
  rewrite <- !F2R_cond_Zopp, F2R_plus.
  apply normalize_sum. lia.
Qed.

Lemma sub_finite (sx sy : bool) (mx my : positive) (ex ey : Z) :
  bounded prec emax mx ex = true -> bounded prec emax my ey = true ->
  sum_rounds (B2R (S754_finite sx mx ex) - B2R (S754_finite sy my ey))
             (sub (S754_finite sx mx ex) (S754_finite sy my ey)).
Proof.
  intros Hx Hy.
  destruct (bounded_digits mx ex Hx) as (_ & Hex & _).
  destruct (bounded_digits my ey Hy) as (_ & Hey & _).
  unfold sub, SFsub. cbv zeta.
  rewrite !shl_align_fst by lia.
  cbn [B2R].
  rewrite (F2R_cond_Zopp sx), (F2R_cond_Zopp sy).
  rewrite (F2R_aligned mx ex (Z.min ex ey)), (F2R_aligned my ey (Z.min ex ey)) by lia.
  rewrite <- !F2R_cond_Zopp, F2R_minus.
  apply normalize_sum. lia.
Qed.

End Binary32Operations.

Module Binary32Operations2.

Import Binary32 Binary32Division Binary32Rounding Binary32Operations.

(** *** Division *)

Lemma shifted_mantissa (m s : Z) :
  0 < m -> 0 <= s ->
  match s with
  | 0 => m
  | Zpos _ => Z.shiftl m s
  | Zneg _ => 0
  end = m * 2 ^ s.
Proof.
  intros Hm Hs. destruct s as [|p|p]; [change (2 ^ 0) with 1; lia| |lia].
  apply Z.shiftl_mul_pow2. lia.
Qed.

Lemma new_location_exact (n r : Z) : new_location n r <> loc_Exact -> r <> 0.
Proof.
  intros H ->. apply H. unfold new_location, new_location_even, new_location_odd.
  destruct (Z.even n); reflexivity.
Qed.

Lemma F2R_div (a b ea eb : Z) (e' : Z) :
  0 < b -> e' <= ea - eb ->
  (F2R a ea / F2R b eb)%R = (IZR (a * 2 ^ (ea - eb - e')) / IZR b * bpow e')%R.
Proof.
  intros Hb He. unfold F2R.
  replace ea with (eb + (e' + (ea - eb - e'))) at 1 by lia.
  rewrite !bpow_add, (bpow_IZR (ea - eb - e')), mult_IZR by lia.
  pose proof (bpow_pos eb). assert (0 < IZR b)%R by (apply IZR_lt; lia).
  field. split; lra.
Qed.

Lemma div_rounds (sx sy : bool) (mx my : positive) (ex ey : Z) :
  bounded prec emax mx ex = true -> bounded prec emax my ey = true ->
  rounds (xorb sx sy) (F2R (Zpos mx) ex / F2R (Zpos my) ey)
         (div (S754_finite sx mx ex) (S754_finite sy my ey)).
Proof.
  intros Hx Hy. unfold div, SFdiv, SFdiv_core_binary. cbn [Zdigits2].
  destruct (digits2_pos_bounds mx) as [Hxlo Hxhi].
  destruct (digits2_pos_bounds my) as [Hylo Hyhi].
  destruct (bounded_digits mx ex Hx) as (Hdx & _ & _).
  destruct (bounded_digits my ey Hy) as (Hdy & _ & _).
  set (d1 := Zpos (digits2_pos mx)) in *. set (d2 := Zpos (digits2_pos my)) in *.
  assert (Hd1 : 1 <= d1) by (unfold d1; lia).
  assert (Hd2 : 1 <= d2) by (unfold d2; lia).
  set (e' := Z.min (fexp prec emax (d1 + ex - (d2 + ey))) (ex - ey)).
  set (s := ex - ey - e'). assert (Hs : 0 <= s) by lia.
  pose proof (pow2_pos s Hs) as HS.
  rewrite (shifted_mantissa (Zpos mx) s) by lia.
  pose proof (Z_div_mod (Zpos mx * 2 ^ s) (Zpos my) ltac:(lia)) as Hdm.
  destruct (Z.div_eucl (Zpos mx * 2 ^ s) (Zpos my)) as [q r].
  destruct Hdm as [Edm Hr].
  assert (Hq : 0 <= q) by nia.
  rewrite (F2R_div (Zpos mx) (Zpos my) ex ey e') by lia. fold s.
  assert (Hmy : (0 < IZR (Zpos my))%R) by (apply IZR_lt; lia).
  pose proof (bpow_pos e') as Hb.
  assert (Hquot : (IZR q <= IZR (Zpos mx * 2 ^ s) / IZR (Zpos my) < IZR (q + 1))%R).
  { rewrite Edm. split.
    - apply Rmult_le_reg_r with (IZR (Zpos my)); [assumption|].
      replace (IZR (Zpos my * q + r) / IZR (Zpos my) * IZR (Zpos my))%R
        with (IZR (Zpos my * q + r)) by (field; lra).
      rewrite <- mult_IZR. apply IZR_le. lia.
    - apply Rmult_lt_reg_r with (IZR (Zpos my)); [assumption|].
      replace (IZR (Zpos my * q + r) / IZR (Zpos my) * IZR (Zpos my))%R
        with (IZR (Zpos my * q + r)) by (field; lra).
      rewrite <- mult_IZR. apply IZR_lt. lia. }
  apply round_aux_spec.
  - assumption.
  - assert (Hf : e' <= Z.max (d1 + ex - (d2 + ey) - 24) (-149))
      by (unfold e'; rewrite fexp_eq; lia).
    rewrite fexp_eq.
    destruct (Z.le_gt_cases e' (-149)) as [Hsub|Hnorm]; [lia|].
    assert (23 < Zdigits2 q); [|lia].
    apply Zdigits2_gt; [lia|].
    assert (Hs' : d2 - d1 + 24 <= s) by (unfold s; lia).
    assert (2 ^ (d2 + 23) <= Zpos mx * 2 ^ s).
    { replace (d2 + 23) with ((d1 - 1) + (d2 - d1 + 24)) by lia.
      rewrite Z.pow_add_r by lia.
      assert (2 ^ (d2 - d1 + 24) <= 2 ^ s) by (apply Z.pow_le_mono_r; lia).
      pose proof (pow2_pos (d2 - d1 + 24)). pose proof (pow2_pos (d1 - 1)). nia. }
    rewrite Z.pow_add_r in H by lia.
    pose proof (pow2_pos d2). nia.
  - unfold F2R. split; [apply Rmult_le_compat_r; lra|apply Rmult_lt_compat_r; lra].
  - intros Hl. apply new_location_exact in Hl.
    unfold F2R. apply Rmult_lt_compat_r; [assumption|].
    rewrite Edm.
    apply Rmult_lt_reg_r with (IZR (Zpos my)); [assumption|].
    replace (IZR (Zpos my * q + r) / IZR (Zpos my) * IZR (Zpos my))%R
      with (IZR (Zpos my * q + r)) by (field; lra).
    rewrite <- mult_IZR. apply IZR_lt. lia.
Qed.

(** *** Square root *)

Lemma sqrt_F2R (m e' s : Z) :
  0 <= m -> 0 <= s ->
  R_sqrt.sqrt (F2R m (2 * e' + s)) = (R_sqrt.sqrt (IZR (m * 2 ^ s)) * bpow e')%R.
Proof.
  intros Hm Hs. unfold F2R.
  replace (2 * e' + s) with (s + (e' + e')) by lia.
  rewrite !bpow_add, (bpow_IZR s), mult_IZR by lia.
  pose proof (bpow_pos e') as Hb.
  assert (0 <= IZR m * IZR (2 ^ s))%R.
  { rewrite <- mult_IZR. apply IZR_le. pose proof (pow2_pos s Hs). nia. }
  replace (IZR m * (IZR (2 ^ s) * (bpow e' * bpow e')))%R
    with ((IZR m * IZR (2 ^ s)) * (bpow e' * bpow e'))%R by ring.
  rewrite sqrt_mult_alt by assumption.
  rewrite sqrt_square by lra. reflexivity.
Qed.

Lemma sqrt_rounds (mx : positive) (ex : Z) :
  bounded prec emax mx ex = true ->
  rounds false (R_sqrt.sqrt (F2R (Zpos mx) ex)) (Binary32.sqrt (S754_finite false mx ex)).
Proof.
  intros Hx. unfold Binary32.sqrt, SFsqrt, SFsqrt_core_binary. cbn [Zdigits2].
  destruct (digits2_pos_bounds mx) as [Hxlo Hxhi].
  set (d := Zpos (digits2_pos mx)) in *.
  assert (Hd1 : 1 <= d) by (unfold d; lia).
  rewrite !Z.div2_div.
  set (e' := Z.min (fexp prec emax ((d + ex + 1) / 2)) (ex / 2)).
  set (s := ex - 2 * e').
  pose proof (Z.mul_div_le ex 2 ltac:(lia)) as Hex2.
  pose proof (Z.mul_div_le (d + ex + 1) 2 ltac:(lia)) as Hd2.
  assert (Hs : 0 <= s) by lia.
  pose proof (pow2_pos s Hs) as HS.
  rewrite (shifted_mantissa (Zpos mx) s) by lia.
  pose proof (Z.sqrtrem_spec (Zpos mx * 2 ^ s) ltac:(lia)) as Hsq.
  destruct (Z.sqrtrem (Zpos mx * 2 ^ s)) as [q r].
  destruct Hsq as [Esq Hr].
  assert (Hq : 0 <= q) by lia.
  replace ex with (2 * e' + s) at 1 by lia.
  rewrite sqrt_F2R by lia.
  pose proof (bpow_pos e') as Hb.
  set (M := Zpos mx * 2 ^ s) in *.
  assert (HM : (0 <= IZR M)%R) by (apply IZR_le; lia).
  pose proof (sqrt_pos (IZR M)) as Hsp.
  pose proof (sqrt_sqrt (IZR M) HM) as Hss.
  assert (Hlo : (IZR q * IZR q <= IZR M)%R).
  { rewrite <- mult_IZR. apply IZR_le. lia. }
  assert (Hhi : (IZR M < IZR (q + 1) * IZR (q + 1))%R).
  { rewrite <- mult_IZR. apply IZR_lt. lia. }
  assert (Hq0 : (0 <= IZR q)%R) by (apply IZR_le; lia).
  assert (Hq1 : (0 < IZR (q + 1))%R) by (apply IZR_lt; lia).
  assert (Hquot : (IZR q <= R_sqrt.sqrt (IZR M) < IZR (q + 1))%R) by (split; nra).
  assert (El : (if r =? 0 then loc_Exact
                else loc_Inexact (if r <=? q then Lt else Gt)) <> loc_Exact ->
               r <> 0).
  { intros H ->. now apply H. }
  apply round_aux_spec.
  - assumption.
  - assert (Hf : e' <= Z.max ((d + ex + 1) / 2 - 24) (-149))
      by (unfold e'; rewrite fexp_eq; lia).
    rewrite fexp_eq.
    destruct (Z.le_gt_cases e' (-149)) as [Hsub|Hnorm]; [lia|].
    assert (23 < Zdigits2 q); [|lia].
    apply Zdigits2_gt; [lia|].
    assert (Hbig : 2 ^ 46 <= M).
    { unfold M. assert (46 <= (d - 1) + s) by (unfold s; lia).
      assert (2 ^ 46 <= 2 ^ ((d - 1) + s)) by (apply Z.pow_le_mono_r; lia).
      rewrite Z.pow_add_r in H0 by lia. pose proof (pow2_pos (d - 1)). nia. }
    change (2 ^ 46) with (2 ^ 23 * 2 ^ 23) in Hbig. nia.
  - unfold F2R. split; [apply Rmult_le_compat_r; lra|apply Rmult_lt_compat_r; lra].
  - intros Hl. apply El in Hl.
    unfold F2R. apply Rmult_lt_compat_r; [assumption|].
    assert (IZR q * IZR q < IZR M)%R.
    { rewrite <- mult_IZR. apply IZR_lt. lia. }
    nra.
Qed.

End Binary32Operations2.

Module Binary32Results.

Import Binary32 Binary32Division Binary32Rounding Binary32Operations Binary32Operations2.

Lemma regular_cases (x : float32) :
  regular x = true ->
  (exists s, x = S754_zero s) \/
  (exists s m e, x = S754_finite s m e /\ bounded prec emax m e = true).
Proof.
  destruct x as [s|s| |s m e]; cbn; try discriminate.
  - intros _. left. now exists s.
  - intros H. right. now exists s, m, e.
Qed.

Lemma sgn_abs (s : bool) (v : R) : (0 < v)%R -> Rabs (sgn s * v) = v.
Proof. intros H. apply Rabs_signed. lra. Qed.

Lemma F2R_pos (m : positive) (e : Z) : (0 < F2R (Zpos m) e)%R.
Proof.
  unfold F2R. pose proof (bpow_pos e).
  assert (0 < IZR (Zpos m))%R by (apply IZR_lt; lia). nra.
Qed.

Lemma sgn_nonzero (s : bool) : sgn s <> 0%R.
Proof. unfold sgn. destruct s; lra. Qed.

Lemma sgn_xorb (a b : bool) : sgn (xorb a b) = (sgn a * sgn b)%R.
Proof. unfold sgn. destruct a, b; cbn; lra. Qed.

Lemma sgn_sq (s : bool) : (sgn s * sgn s)%R = 1%R.
Proof. unfold sgn. destruct s; lra. Qed.

(** A signed positive real as a result. *)
Lemma result_signed (s : bool) (v : R) (z : float32) :
  (0 < v)%R -> rounds s v z -> result_of (sgn s * v) z.
Proof.
  intros Hv Hr. right. rewrite sgn_abs by assumption.
  split; [pose proof (sgn_nonzero s); nra|]. exists s. now split.
Qed.

Lemma B2R_regular_finite (s : bool) (m : positive) (e : Z) :
  B2R (S754_finite s m e) = (sgn s * F2R (Zpos m) e)%R.
Proof. apply B2R_finite. Qed.

(** *** The operations on regular floats *)

Lemma mul_result (x y : float32) :
  regular x = true -> regular y = true ->
  result_of (B2R x * B2R y) (mul x y).
Proof.
  intros Hx Hy.
  destruct (regular_cases x Hx) as [[sx ->]|(sx & mx & ex & -> & Bx)];
    destruct (regular_cases y Hy) as [[sy ->]|(sy & my & ey & -> & By)].
  - left. split; [cbn; ring|]. now exists (xorb sx sy).
  - left. split; [cbn [B2R]; ring|]. now exists (xorb sx sy).
  - left. split; [cbn [B2R]; ring|]. now exists (xorb sx sy).
  - rewrite !B2R_finite.
    replace (sgn sx * F2R (Zpos mx) ex * (sgn sy * F2R (Zpos my) ey))%R
      with (sgn (xorb sx sy) * (F2R (Zpos mx) ex * F2R (Zpos my) ey))%R
      by (rewrite sgn_xorb; ring).
    apply result_signed; [|now apply mul_rounds].
    pose proof (F2R_pos mx ex). pose proof (F2R_pos my ey). nra.
Qed.

Lemma div_result (x y : float32) :
  regular x = true -> regular y = true -> B2R y <> 0%R ->
  result_of (B2R x / B2R y) (div x y).
Proof.
  intros Hx Hy Hn.
  destruct (regular_cases y Hy) as [[sy ->]|(sy & my & ey & -> & By)];
    [now contradiction Hn|].
  destruct (regular_cases x Hx) as [[sx ->]|(sx & mx & ex & -> & Bx)].
  - left. split; [cbn [B2R]; unfold Rdiv; ring|]. now exists (xorb sx sy).
  - rewrite !B2R_finite.
    pose proof (F2R_pos mx ex). pose proof (F2R_pos my ey).
    pose proof (sgn_nonzero sy).
    replace (sgn sx * F2R (Zpos mx) ex / (sgn sy * F2R (Zpos my) ey))%R
      with (sgn (xorb sx sy) * (F2R (Zpos mx) ex / F2R (Zpos my) ey))%R.
    2:{ unfold sgn. destruct sx, sy; cbn [xorb]; field; lra. }
    apply result_signed; [|now apply div_rounds].
    apply Rdiv_lt_0_compat; assumption.
Qed.

Lemma sqrt_result (x : float32) :
  regular x = true -> (0 <= B2R x)%R ->
  result_of (R_sqrt.sqrt (B2R x)) (Binary32.sqrt x).
Proof.
  intros Hx Hp.
  destruct (regular_cases x Hx) as [[sx ->]|(sx & mx & ex & -> & Bx)].
  - left. split; [cbn [B2R]; apply sqrt_0|]. now exists sx.
  - rewrite B2R_finite in *. pose proof (F2R_pos mx ex).
    destruct sx; [unfold sgn in Hp; lra|].
    unfold sgn. rewrite Rmult_1_l.
    replace (R_sqrt.sqrt (F2R (Zpos mx) ex))
      with (sgn false * R_sqrt.sqrt (F2R (Zpos mx) ex))%R by (unfold sgn; ring).
    apply result_signed; [now apply sqrt_lt_R0|now apply sqrt_rounds].
Qed.

Lemma sum_result (S : R) (z : float32) : sum_rounds S z -> result_of S z.
Proof.
  intros [[E ->]|(s & N & HN & E & Hr)].
  - left. split; [assumption|now exists false].
  - rewrite E. apply result_signed; [|assumption].
    unfold F2R. pose proof (bpow_pos (-149)).
    assert (0 < IZR N)%R by (apply IZR_lt; lia). nra.
Qed.

Lemma sum_multiple (S : R) (z : float32) :
  sum_rounds S z -> exists N, S = F2R N (-149).
Proof.
  intros [[E _]|(s & N & HN & E & Hr)].
  - exists 0. rewrite E. unfold F2R. ring.
  - exists (cond_Zopp s N). now rewrite F2R_cond_Zopp.
Qed.

Lemma finite_multiple (s : bool) (m : positive) (e : Z) :
  bounded prec emax m e = true ->
  sum_rounds (B2R (S754_finite s m e)) (S754_finite s m e).
Proof.
  intros Hb. destruct (bounded_digits m e Hb) as (_ & He & _).
  right. exists s, (Zpos m * 2 ^ (e + 149)).
  assert (E : F2R (Zpos m) e = F2R (Zpos m * 2 ^ (e + 149)) (-149)).
  { replace e with (-149 + (e + 149)) at 1 by lia. apply F2R_shift. lia. }
  split; [pose proof (pow2_pos (e + 149)); nia|].
  rewrite B2R_finite, <- E. split; [reflexivity|now apply rounds_self].
Qed.

Lemma add_sum (x y : float32) :
  regular x = true -> regular y = true ->
  sum_rounds (B2R x + B2R y) (add x y) \/
  ((B2R x + B2R y)%R = 0%R /\ exists s, add x y = S754_zero s).
Proof.
  intros Hx Hy.
  destruct (regular_cases x Hx) as [[sx ->]|(sx & mx & ex & -> & Bx)];
    destruct (regular_cases y Hy) as [[sy ->]|(sy & my & ey & -> & By)].
  - right. split; [cbn; ring|]. destruct sx, sy; cbn; eauto.
  - left. replace (B2R (S754_zero sx) + B2R (S754_finite sy my ey))%R
      with (B2R (S754_finite sy my ey)) by (cbn [B2R]; ring).
    now apply finite_multiple.
  - left. replace (B2R (S754_finite sx mx ex) + B2R (S754_zero sy))%R
      with (B2R (S754_finite sx mx ex)) by (cbn [B2R]; ring).
    now apply finite_multiple.
  - left. now apply add_finite.
Qed.

Lemma opp_finite_multiple (s : bool) (m : positive) (e : Z) :
  bounded prec emax m e = true ->
  sum_rounds (- B2R (S754_finite s m e)) (S754_finite (negb s) m e).
Proof.
  intros Hb.
  replace (- B2R (S754_finite s m e))%R with (B2R (S754_finite (negb s) m e)).
  - now apply finite_multiple.
  - rewrite !B2R_finite. unfold sgn. destruct s; cbn; ring.
Qed.

Lemma sub_sum (x y : float32) :
  regular x = true -> regular y = true ->
  sum_rounds (B2R x - B2R y) (sub x y) \/
  ((B2R x - B2R y)%R = 0%R /\ exists s, sub x y = S754_zero s).
Proof.
  intros Hx Hy.
  destruct (regular_cases x Hx) as [[sx ->]|(sx & mx & ex & -> & Bx)];
    destruct (regular_cases y Hy) as [[sy ->]|(sy & my & ey & -> & By)].
  - right. split; [cbn; ring|]. destruct sx, sy; cbn; eauto.
  - left. replace (B2R (S754_zero sx) - B2R (S754_finite sy my ey))%R
      with (- B2R (S754_finite sy my ey))%R by (cbn [B2R]; ring).
    now apply opp_finite_multiple.
  - left. replace (B2R (S754_finite sx mx ex) - B2R (S754_zero sy))%R
      with (B2R (S754_finite sx mx ex)) by (cbn [B2R]; ring).
    now apply finite_multiple.
  - left. now apply sub_finite.
Qed.

Lemma add_result (x y : float32) :
  regular x = true -> regular y = true ->
  result_of (B2R x + B2R y) (add x y) /\ exists N, (B2R x + B2R y)%R = F2R N (-149).
Proof.
  intros Hx Hy. destruct (add_sum x y Hx Hy) as [H|[E Hz]].
  - split; [now apply sum_result|now apply (sum_multiple _ (add x y))].
  - split; [left; now split|]. exists 0. rewrite E. unfold F2R. ring.
Qed.

Lemma sub_result (x y : float32) :
  regular x = true -> regular y = true ->
  result_of (B2R x - B2R y) (sub x y) /\ exists N, (B2R x - B2R y)%R = F2R N (-149).
Proof.
  intros Hx Hy. destruct (sub_sum x y Hx Hy) as [H|[E Hz]].
  - split; [now apply sum_result|now apply (sum_multiple _ (sub x y))].
  - split; [left; now split|]. exists 0. rewrite E. unfold F2R. ring.
Qed.

End Binary32Results.

Module Binary32Bounds.

Import Binary32 Binary32Division Binary32Rounding Binary32Operations
       Binary32Operations2 Binary32Results.

Lemma bpow_canonical (k : Z) :
  -149 <= k <= 127 ->
  exists m e, canonical m e /\ e <= 104 /\ bpow k = F2R m e.
Proof.
  intros Hk. assert (E1 : bpow k = F2R 1 k) by (unfold F2R; ring).
  destruct (Z.le_gt_cases (-126) k) as [Hn|Hs].
  - exists (2 ^ 23), (k - 23). split; [repeat split; lia|]. split; [lia|].
    rewrite E1. replace k with ((k - 23) + 23) at 1 by lia.
    rewrite F2R_shift by lia. reflexivity.
  - exists (2 ^ (k + 149)), (-149).
    assert (2 ^ (k + 149) <= 2 ^ 22) by (apply Z.pow_le_mono_r; lia).
    pose proof (pow2_pos (k + 149)).
    split; [repeat split; lia|]. split; [lia|].
    rewrite E1. replace k with (-149 + (k + 149)) at 1 by lia.
    rewrite F2R_shift by lia. now rewrite Z.mul_1_l.
Qed.

Lemma rounds_regular (s : bool) (x : R) (z : float32) :
  rounds s x z -> is_finite z = true -> regular z = true.
Proof.
  intros Hr Hf. unfold regular. rewrite Hf. cbn [andb].
  now apply (rounds_valid s x z).
Qed.

Lemma result_le (E : R) (z : float32) (mh eh : Z) :
  result_of E z -> canonical mh eh -> eh <= 104 -> (Rabs E <= F2R mh eh)%R ->
  regular z = true /\ (Rabs (B2R z) <= F2R mh eh)%R.
Proof.
  intros [[E0 [s ->]]|(Hne & s & Es & Hr)] Hc He Hle.
  - split; [reflexivity|]. cbn [B2R]. rewrite Rabs_R0.
    apply F2R_nonneg. destruct Hc; lia.
  - destruct (rounds_le s (Rabs E) z mh eh Hr Hc He Hle) as [Hf Hb].
    split; [now apply (rounds_regular s (Rabs E))|assumption].
Qed.

Lemma result_le_bpow (E : R) (z : float32) (k : Z) :
  result_of E z -> -149 <= k <= 127 -> (Rabs E <= bpow k)%R ->
  regular z = true /\ (Rabs (B2R z) <= bpow k)%R.
Proof.
  intros Hr Hk Hle. destruct (bpow_canonical k Hk) as (m & e & Hc & He & Eb).
  rewrite Eb in *. now apply (result_le E).
Qed.

Lemma result_ge_bpow (E : R) (z : float32) (k : Z) :
  result_of E z -> -149 <= k <= 127 -> (bpow k <= Rabs E)%R ->
  regular z = true -> (bpow k <= Rabs (B2R z))%R.
Proof.
  intros [[E0 [s ->]]|(Hne & s & Es & Hr)] Hk Hle Hreg.
  - rewrite E0, Rabs_R0 in Hle. pose proof (bpow_pos k). lra.
  - destruct (bpow_canonical k Hk) as (m & e & Hc & He & Eb). rewrite Eb in *.
    destruct (rounds_ge s (Rabs E) z m e Hr Hc Hle) as [->|[_ H]]; [discriminate|].
    assumption.
Qed.

Lemma result_nonneg (E : R) (z : float32) :
  result_of E z -> (0 <= E)%R -> (0 <= B2R z)%R.
Proof.
  intros [[E0 [s ->]]|(Hne & s & Es & Hr)] Hp.
  - cbn. lra.
  - rewrite (rounds_sign s _ z Hr).
    pose proof (Rabs_pos (B2R z)). pose proof (Rabs_pos_lt E Hne).
    destruct s; unfold sgn in *; [rewrite Rabs_pos_eq in Es by assumption; lra|lra].
Qed.

Lemma result_accurate (E : R) (z : float32) :
  result_of E z -> is_normal z = true ->
  exists rho, B2R z = (E * rho)%R /\ (/ W <= rho <= W)%R.
Proof.
  intros [[E0 [s ->]]|(Hne & s & Es & Hr)] Hn; [discriminate|].
  destruct (rounds_accurate s (Rabs E) z Hr Hn) as (rho & Eb & Hrho).
  exists rho. split; [|assumption]. rewrite Eb, <- Es. reflexivity.
Qed.

Lemma Rabs_F2R (N e : Z) : Rabs (F2R N e) = F2R (Z.abs N) e.
Proof.
  unfold F2R. pose proof (bpow_pos e). rewrite Rabs_mult, (Rabs_pos_eq (bpow e)) by lra.
  now rewrite <- abs_IZR.
Qed.

Lemma result_exact (E : R) (z : float32) (N : Z) :
  result_of E z -> E = F2R N (-149) -> regular z = true -> is_normal z = false ->
  B2R z = E.
Proof.
  intros [[E0 [s ->]]|(Hne & s & Es & Hr)] EN Hreg Hn.
  - rewrite E0. reflexivity.
  - transitivity (sgn s * Rabs E)%R; [|symmetry; exact Es].
    apply (rounds_exact s (Rabs E) z (Z.abs N)); try assumption.
    + rewrite EN. apply Rabs_F2R.
    + intros ->. discriminate.
Qed.

(** A finite sum or difference is exact or accurate. *)
Lemma sum_accurate (E : R) (z : float32) (N : Z) :
  result_of E z -> E = F2R N (-149) -> regular z = true ->
  exists rho, B2R z = (E * rho)%R /\ (/ W <= rho <= W)%R.
Proof.
  intros Hr EN Hreg. destruct (is_normal z) eqn:Hn.
  - now apply result_accurate.
  - exists 1%R. split.
    + rewrite (result_exact E z N) by assumption. ring.
    + destruct W_bounds as [H1 ->]. unfold W in *. lra.
Qed.

End Binary32Bounds.

Module Binary32Kernel.

Import Binary32 Binary32Division Binary32Rounding Binary32Operations
       Binary32Operations2 Binary32Results Binary32Bounds.

Lemma bpow_0 : bpow 0 = 1%R.
Proof. reflexivity. Qed.

Lemma bpow_double (k : Z) : (2 * bpow k)%R = bpow (k + 1).
Proof. rewrite bpow_add. change (bpow 1) with (2 * 1)%R. ring. Qed.

Lemma bpow_inv (k : Z) : (/ bpow k)%R = bpow (- k).
Proof.
  pose proof (bpow_pos k).
  apply Rmult_eq_reg_l with (bpow k); [|lra].
  rewrite Rinv_r by lra. rewrite <- bpow_add. now replace (k + - k) with 0 by lia.
Qed.

Lemma sqrt_bpow (k : Z) : R_sqrt.sqrt (bpow (2 * k)) = bpow k.
Proof.
  replace (2 * k) with (k + k) by lia. rewrite bpow_add.
  apply sqrt_square. pose proof (bpow_pos k). lra.
Qed.

Lemma Rabs_le_mult (a b ka kb : R) :
  (Rabs a <= ka)%R -> (Rabs b <= kb)%R -> (Rabs (a * b) <= ka * kb)%R.
Proof.
  intros Ha Hb. rewrite Rabs_mult.
  pose proof (Rabs_pos a). pose proof (Rabs_pos b). nra.
Qed.

Lemma add_zero_l (v : float32) :
  B2R (add (S754_zero false) v) = B2R v /\
  is_finite (add (S754_zero false) v) = is_finite v.
Proof. destruct v as [[|]|[|]| |s m e]; cbn; split; reflexivity. Qed.

Lemma regular_one : regular (of_int 1) = true /\ B2R (of_int 1) = 1%R.
Proof.
  split; [reflexivity|].
  change (of_int 1) with (S754_finite false 8388608 (-23)).
  cbn [B2R cond_Zopp]. unfold F2R.
  replace (bpow (-23)) with (/ bpow 23)%R by (rewrite bpow_inv; reflexivity).
  rewrite (bpow_IZR 23) by lia.
  change (2 ^ 23) with 8388608. field.
Qed.

Section Bounded.

Variables (eps2 xa ya xb yb m : float32) (p q j : Z).

Hypothesis Heps : regular eps2 = true.
Hypothesis Heps_range : (bpow (2 * p) <= B2R eps2 <= bpow (2 * q))%R.
Hypothesis Hxa : within (q - 1) xa.
Hypothesis Hya : within (q - 1) ya.
Hypothesis Hxb : within (q - 1) xb.
Hypothesis Hyb : within (q - 1) yb.
Hypothesis Hm : within j m.
Hypothesis Hp : -21 <= p <= q.
Hypothesis Hq : q <= 20.
Hypothesis Hj : 0 <= j.
Hypothesis Hscale : j - 3 * p <= 127.
Hypothesis Hout : q + j - 3 * p <= 127.

Lemma difference_within (u v : float32) :
  within (q - 1) u -> within (q - 1) v -> within q (sub u v).
Proof.
  intros [Ru Bu] [Rv Bv].
  destruct (sub_result u v Ru Rv) as [Hr _].
  apply (result_le_bpow _ _ q Hr); [lia|].
  replace (bpow q) with (2 * bpow (q - 1))%R
    by (rewrite bpow_double; f_equal; lia).
  unfold Rminus. eapply Rle_trans; [apply Rabs_triang|]. rewrite Rabs_Ropp. lra.
Qed.

Lemma square_within (k : Z) (u : float32) :
  -74 <= k <= 63 -> within k u ->
  within (2 * k) (mul u u) /\ (0 <= B2R (mul u u))%R.
Proof.
  intros Hk [Ru Bu]. pose proof (mul_result u u Ru Ru) as Hr.
  split.
  - apply (result_le_bpow _ _ (2 * k) Hr); [lia|].
    replace (2 * k) with (k + k) by lia. rewrite bpow_add.
    now apply Rabs_le_mult.
  - apply (result_nonneg _ _ Hr). nra.
Qed.

Let r_x := sub xb xa.
Let r_y := sub yb ya.
Let d2 := add (add (mul r_x r_x) (mul r_y r_y)) eps2.
Let d6 := mul (mul d2 d2) d2.
Let divisor := Binary32.sqrt d6.
Let inverse := div (of_int 1) divisor.
Let scale := mul m inverse.

Lemma distance_squared_range :
  regular d2 = true /\ (bpow (2 * p) <= B2R d2 <= bpow (2 * q + 2))%R.
Proof.
  pose proof (difference_within xb xa Hxb Hxa) as Hrx. fold r_x in Hrx.
  pose proof (difference_within yb ya Hyb Hya) as Hry. fold r_y in Hry.
  destruct (square_within q r_x ltac:(lia) Hrx) as [[Rsx Bsx] Psx].
  destruct (square_within q r_y ltac:(lia) Hry) as [[Rsy Bsy] Psy].
  rewrite Rabs_pos_eq in Bsx, Bsy by assumption.
  destruct (add_result (mul r_x r_x) (mul r_y r_y) Rsx Rsy) as [Hs _].
  assert (Es : (0 <= B2R (mul r_x r_x) + B2R (mul r_y r_y) <= bpow (2 * q + 1))%R).
  { rewrite <- bpow_double. lra. }
  destruct (result_le_bpow _ _ (2 * q + 1) Hs ltac:(lia)) as [Rs Bs].
  { rewrite Rabs_pos_eq; lra. }
  pose proof (result_nonneg _ _ Hs ltac:(lra)) as Ps.
  rewrite Rabs_pos_eq in Bs by assumption.
  destruct (add_result _ eps2 Rs Heps) as [Hd _]. fold d2 in Hd.
  pose proof (bpow_pos (2 * p)) as Hpp.
  assert (Ed : (bpow (2 * p) <=
                B2R (add (mul r_x r_x) (mul r_y r_y)) + B2R eps2
                <= bpow (2 * q + 2))%R).
  { split; [lra|]. replace (2 * q + 2) with (2 * q + 1 + 1) by lia.
    rewrite <- (bpow_double (2 * q + 1)), <- (bpow_double (2 * q)) in *. lra. }
  destruct (result_le_bpow _ _ (2 * q + 2) Hd ltac:(lia)) as [Rd Bd].
  { rewrite Rabs_pos_eq; lra. }
  pose proof (result_nonneg _ _ Hd ltac:(lra)) as Pd.
  pose proof (result_ge_bpow _ _ (2 * p) Hd ltac:(lia)) as Ld.
  rewrite !Rabs_pos_eq in Ld by lra. rewrite Rabs_pos_eq in Bd by assumption.
  split; [assumption|]. split; [apply Ld; [lra|assumption]|assumption].
Qed.

Lemma product_range (u v : float32) (lu hu lv hv : Z) :
  regular u = true -> regular v = true ->
  (bpow lu <= B2R u <= bpow hu)%R -> (bpow lv <= B2R v <= bpow hv)%R ->
  -149 <= lu + lv -> hu + hv <= 127 ->
  regular (mul u v) = true /\
  (bpow (lu + lv) <= B2R (mul u v) <= bpow (hu + hv))%R.
Proof.
  intros Ru Rv Bu Bv Hl Hh. pose proof (mul_result u v Ru Rv) as Hr.
  pose proof (bpow_pos lu). pose proof (bpow_pos lv).
  assert (lu <= hu).
  { destruct (Z.le_gt_cases lu hu); [assumption|].
    pose proof (bpow_lt hu lu ltac:(lia)). lra. }
  assert (lv <= hv).
  { destruct (Z.le_gt_cases lv hv); [assumption|].
    pose proof (bpow_lt hv lv ltac:(lia)). lra. }
  assert (E : (bpow (lu + lv) <= B2R u * B2R v <= bpow (hu + hv))%R).
  { rewrite !bpow_add. split; nra. }
  pose proof (bpow_pos (lu + lv)).
  destruct (result_le_bpow _ _ (hu + hv) Hr ltac:(lia)) as [Rz Bz].
  { rewrite Rabs_pos_eq; lra. }
  pose proof (result_nonneg _ _ Hr ltac:(lra)) as Pz.
  pose proof (result_ge_bpow _ _ (lu + lv) Hr ltac:(lia)) as Lz.
  rewrite !Rabs_pos_eq in Lz by lra. rewrite Rabs_pos_eq in Bz by assumption.
  split; [assumption|]. split; [apply Lz; [lra|assumption]|assumption].
Qed.

Lemma divisor_range :
  regular divisor = true /\ (bpow (3 * p) <= B2R divisor <= bpow (3 * q + 3))%R.
Proof.
  destruct distance_squared_range as [Rd Bd].
  destruct (product_range d2 d2 (2 * p) (2 * q + 2) (2 * p) (2 * q + 2))
    as [R4 B4]; try assumption; try lia.
  destruct (product_range (mul d2 d2) d2 (2 * p + 2 * p) (2 * q + 2 + (2 * q + 2))
              (2 * p) (2 * q + 2)) as [R6 B6]; try assumption; try lia.
  fold d6 in R6, B6.
  replace (2 * p + 2 * p + 2 * p) with (2 * (3 * p)) in B6 by lia.
  replace (2 * q + 2 + (2 * q + 2) + (2 * q + 2)) with (2 * (3 * q + 3)) in B6 by lia.
  pose proof (bpow_pos (2 * (3 * p))) as Hpos.
  pose proof (sqrt_result d6 R6 ltac:(lra)) as Hr. fold divisor in Hr.
  assert (E : (bpow (3 * p) <= R_sqrt.sqrt (B2R d6) <= bpow (3 * q + 3))%R).
  { rewrite <- (sqrt_bpow (3 * p)), <- (sqrt_bpow (3 * q + 3)).
    split; apply sqrt_le_1_alt; lra. }
  pose proof (bpow_pos (3 * p)).
  destruct (result_le_bpow _ _ (3 * q + 3) Hr ltac:(lia)) as [Rz Bz].
  { rewrite Rabs_pos_eq; lra. }
  pose proof (result_nonneg _ _ Hr ltac:(lra)) as Pz.
  pose proof (result_ge_bpow _ _ (3 * p) Hr ltac:(lia)) as Lz.
  rewrite !Rabs_pos_eq in Lz by lra. rewrite Rabs_pos_eq in Bz by assumption.
  split; [assumption|]. split; [apply Lz; [lra|assumption]|assumption].
Qed.

Lemma scale_within : within (j - 3 * p) scale.
Proof.
  destruct divisor_range as [Rs Bs].
  destruct regular_one as [R1 E1].
  pose proof (bpow_pos (3 * p)) as Hpos.
  pose proof (div_result (of_int 1) divisor R1 Rs ltac:(lra)) as Hr.
  fold inverse in Hr. rewrite E1 in Hr.
  assert (E : (0 <= 1 / B2R divisor <= bpow (- (3 * p)))%R).
  { rewrite <- bpow_inv. unfold Rdiv. rewrite Rmult_1_l. split.
    - apply Rlt_le, Rinv_0_lt_compat. lra.
    - apply Rinv_le_contravar; lra. }
  destruct (result_le_bpow _ _ (- (3 * p)) Hr ltac:(lia)) as [Ri Bi].
  { rewrite Rabs_pos_eq; lra. }
  destruct Hm as [Rm Bm].
  pose proof (mul_result m inverse Rm Ri) as Hs. fold scale in Hs.
  apply (result_le_bpow _ _ (j - 3 * p) Hs); [lia|].
  replace (j - 3 * p) with (j + - (3 * p)) by lia. rewrite bpow_add.
  now apply Rabs_le_mult.
Qed.

Lemma component_within (u v : float32) :
  within (q - 1) u -> within (q - 1) v ->
  is_finite (add (S754_zero false) (mul (sub u v) scale)) = true /\
  (Rabs (B2R (add (S754_zero false) (mul (sub u v) scale)))
   <= bpow (q + j - 3 * p))%R.
Proof.
  intros Hu Hv. destruct (difference_within u v Hu Hv) as [Rr Br].
  destruct scale_within as [Rs Bs].
  pose proof (mul_result (sub u v) scale Rr Rs) as Hr.
  destruct (result_le_bpow _ _ (q + j - 3 * p) Hr ltac:(lia)) as [Rz Bz].
  { replace (q + j - 3 * p) with (q + (j - 3 * p)) by lia. rewrite bpow_add.
    now apply Rabs_le_mult. }
  destruct (add_zero_l (mul (sub u v) scale)) as [-> ->].
  split; [|assumption]. unfold regular in Rz. now apply andb_prop in Rz.
Qed.

End Bounded.

End Binary32Kernel.

Module Binary32Accuracy.

Import Binary32 Binary32Division Binary32Rounding Binary32Operations
       Binary32Operations2 Binary32Results Binary32Bounds Binary32Kernel.

Lemma W_pow_pos (n : nat) : (1 <= W ^ n)%R.
Proof. apply pow_R1_Rle. pose proof W_bounds. lra. Qed.

Lemma W_pow_inv (n : nat) : (0 < / W ^ n <= 1)%R.
Proof.
  pose proof (W_pow_pos n). split.
  - apply Rinv_0_lt_compat. lra.
  - rewrite <- Rinv_1. apply Rinv_le_contravar; lra.
Qed.

Lemma W_pow_le (n k : nat) : (n <= k)%nat -> (W ^ n <= W ^ k)%R.
Proof. intros H. apply Rle_pow; [|assumption]. pose proof W_bounds. lra. Qed.

Lemma approx_refl (a : R) : approx 0 a a.
Proof. exists 1%R. cbn. split; [ring|]. rewrite Rinv_1. lra. Qed.

Lemma approx_weaken (n k : nat) (a b : R) :
  (n <= k)%nat -> approx n a b -> approx k a b.
Proof.
  intros H [rho [E [L U]]]. exists rho. split; [assumption|].
  pose proof (W_pow_le n k H). pose proof (W_pow_pos n).
  split; [|lra].
  apply Rle_trans with (/ W ^ n)%R; [|assumption].
  apply Rinv_le_contravar; lra.
Qed.

Lemma approx_mul (n k : nat) (a b c d : R) :
  approx n a b -> approx k c d -> approx (n + k) (a * c) (b * d).
Proof.
  intros [r1 [E1 [L1 U1]]] [r2 [E2 [L2 U2]]]. exists (r1 * r2)%R.
  split; [subst; ring|]. rewrite pow_add.
  pose proof (W_pow_pos n). pose proof (W_pow_pos k).
  pose proof (W_pow_inv n). pose proof (W_pow_inv k).
  rewrite Rinv_mult. split; nra.
Qed.

Lemma approx_trans (n k : nat) (a b c : R) :
  approx n a b -> approx k b c -> approx (k + n) a c.
Proof.
  intros [r1 [E1 [L1 U1]]] [r2 [E2 [L2 U2]]]. exists (r2 * r1)%R.
  split; [subst; ring|]. rewrite pow_add.
  pose proof (W_pow_pos n). pose proof (W_pow_pos k).
  pose proof (W_pow_inv n). pose proof (W_pow_inv k).
  rewrite Rinv_mult. split; nra.
Qed.

Lemma approx_add (n : nat) (a b c d : R) :
  (0 <= b)%R -> (0 <= d)%R ->
  approx n a b -> approx n c d -> approx n (a + c) (b + d).
Proof.
  intros Hb Hd [r1 [E1 [L1 U1]]] [r2 [E2 [L2 U2]]].
  destruct (Req_dec (b + d) 0) as [Z|NZ].
  - assert (b = 0%R) by lra. assert (d = 0%R) by lra. subst.
    exists 1%R. split; [ring|]. pose proof (W_pow_pos n). pose proof (W_pow_inv n). lra.
  - exists ((b * r1 + d * r2) / (b + d))%R. split; [subst; field; assumption|].
    assert (P : (0 < b + d)%R) by lra.
    split.
    + apply Rmult_le_reg_r with (b + d)%R; [assumption|].
      unfold Rdiv. rewrite Rmult_assoc, Rinv_l, Rmult_1_r by assumption. nra.
    + apply Rmult_le_reg_r with (b + d)%R; [assumption|].
      unfold Rdiv. rewrite Rmult_assoc, Rinv_l, Rmult_1_r by assumption. nra.
Qed.

Lemma approx_inv (n : nat) (a b : R) :
  b <> 0%R -> approx n a b -> approx n (1 / a) (1 / b).
Proof.
  intros Hb [r [E [L U]]]. pose proof (W_pow_pos n). pose proof (W_pow_inv n).
  assert (Hr : (0 < r)%R) by lra.
  exists (/ r)%R. split; [subst; field; split; lra|].
  split.
  - apply Rinv_le_contravar; lra.
  - rewrite <- (Rinv_inv (W ^ n)). apply Rinv_le_contravar; lra.
Qed.

Lemma approx_sqrt (n : nat) (a b : R) :
  (0 <= b)%R -> approx (n + n) a b -> approx n (R_sqrt.sqrt a) (R_sqrt.sqrt b).
Proof.
  intros Hb [r [E [L U]]]. pose proof (W_pow_pos n). pose proof (W_pow_inv n).
  rewrite pow_add in L, U. rewrite Rinv_mult in L.
  assert (Hr : (0 <= r)%R) by nra.
  exists (R_sqrt.sqrt r). split; [subst; apply sqrt_mult; assumption|].
  split.
  - rewrite <- (sqrt_square (/ W ^ n)) by lra. apply sqrt_le_1_alt. assumption.
  - rewrite <- (sqrt_square (W ^ n)) by lra. apply sqrt_le_1_alt. assumption.
Qed.

Lemma approx_round (E : R) (z : float32) :
  result_of E z -> is_normal z = true -> approx 1 (B2R z) E.
Proof.
  intros Hr Hn. destruct (result_accurate E z Hr Hn) as [rho [Eq B]].
  exists rho. split; [assumption|]. now rewrite pow_1.
Qed.

Lemma approx_exact (a b : R) : a = b -> approx 1 a b.
Proof. intros ->. apply (approx_weaken 0); [lia|apply approx_refl]. Qed.

Lemma is_zero_B2R (v : float32) : is_zero v = true -> B2R v = 0%R.
Proof. destruct v; try discriminate. reflexivity. Qed.

Lemma result_zero (z : float32) : result_of 0 z -> B2R z = 0%R.
Proof.
  intros [[_ [s ->]]|[H _]]; [reflexivity|]. now elim H.
Qed.

Lemma is_normal_regular (E : R) (z : float32) :
  result_of E z -> is_normal z = true -> regular z = true.
Proof.
  intros [[_ [s ->]]|[_ [s [_ Hr]]]] Hn; [discriminate|].
  apply (rounds_regular _ _ _ Hr). now destruct z.
Qed.

Lemma product_accurate (u v : float32) :
  regular u = true -> regular v = true -> product_in_range u v = true ->
  approx 1 (B2R (mul u v)) (B2R u * B2R v) /\ regular (mul u v) = true.
Proof.
  intros Ru Rv H. pose proof (mul_result u v Ru Rv) as Hr.
  unfold product_in_range in H.
  apply orb_prop in H. destruct H as [H|H]; [apply orb_prop in H; destruct H as [H|H]|].
  - split; [now apply approx_round|now apply (is_normal_regular _ _ Hr)].
  - rewrite (is_zero_B2R u H), Rmult_0_l in *. split.
    + apply approx_exact, result_zero. assumption.
    + destruct Hr as [[_ [s ->]]|[N _]]; [reflexivity|now elim N].
  - rewrite (is_zero_B2R v H), Rmult_0_r in *. split.
    + apply approx_exact, result_zero. assumption.
    + destruct Hr as [[_ [s ->]]|[N _]]; [reflexivity|now elim N].
Qed.

Lemma sum_approx (u v : float32) :
  regular u = true -> regular v = true -> regular (add u v) = true ->
  approx 1 (B2R (add u v)) (B2R u + B2R v).
Proof.
  intros Ru Rv Rz. destruct (add_result u v Ru Rv) as [Hr [N EN]].
  destruct (sum_accurate _ _ N Hr EN Rz) as [rho [Eq B]].
  exists rho. split; [assumption|]. now rewrite pow_1.
Qed.

Lemma difference_approx (u v : float32) :
  regular u = true -> regular v = true -> regular (sub u v) = true ->
  approx 1 (B2R (sub u v)) (B2R u - B2R v).
Proof.
  intros Ru Rv Rz. destruct (sub_result u v Ru Rv) as [Hr [N EN]].
  destruct (sum_accurate _ _ N Hr EN Rz) as [rho [Eq B]].
  exists rho. split; [assumption|]. now rewrite pow_1.
Qed.

Lemma approx_nonneg (n : nat) (a b : R) : approx n a b -> (0 <= b)%R -> (0 <= a)%R.
Proof.
  intros [r [E [L U]]] Hb. pose proof (W_pow_inv n). subst. nra.
Qed.

Lemma approx_nonzero (n : nat) (a b : R) : approx n a b -> a <> 0%R -> b <> 0%R.
Proof. intros [r [E _]] Ha Hb. subst. apply Ha. ring. Qed.

Lemma is_normal_nonzero (z : float32) : is_normal z = true -> regular z = true -> B2R z <> 0%R.
Proof.
  destruct z as [| | |s m e]; try discriminate. intros _ _.
  cbn [B2R]. pose proof (F2R_pos m e). destruct s; cbn [cond_Zopp].
  - change (Z.neg m) with (- Z.pos m). unfold F2R in *. rewrite opp_IZR. nra.
  - lra.
Qed.

Lemma sqrt_cube_Rpower (d : R) :
  (0 < d)%R -> R_sqrt.sqrt (d * d * d) = Rpower d (3 / 2).
Proof.
  intros Hd.
  assert (H3 : (d * d * d)%R = Rpower d 3).
  { replace 3%R with (INR 3) by (cbn; lra). rewrite Rpower_pow by assumption.
    cbn. ring. }
  assert (Hc : (0 < d * d * d)%R) by (repeat apply Rmult_lt_0_compat; assumption).
  rewrite <- (Rpower_sqrt _ Hc), H3, Rpower_mult. f_equal; lra.
Qed.

Lemma W_pow_14 : (W ^ 14 <= 1 + / 2 ^ 19 /\ 1 - / 2 ^ 19 <= / W ^ 14)%R.
Proof.
  unfold W. split.
  - simpl pow. lra.
  - rewrite <- pow_inv.
    replace (/ (8388608 / 8388607))%R with (8388607 / 8388608)%R by (field; lra).
    simpl pow. lra.
Qed.

Lemma approx_relative_error (a b : R) :
  approx 14 a b -> (Rabs (a - b) <= bpow (-19) * Rabs b)%R.
Proof.
  intros [rho [-> [L U]]]. destruct W_pow_14 as [HU HL].
  change (bpow (-19)) with (/ 2 ^ 19)%R.
  replace (b * rho - b)%R with (b * (rho - 1))%R by ring.
  rewrite Rabs_mult, Rmult_comm.
  apply Rmult_le_compat_r; [apply Rabs_pos|].
  apply Rabs_le. lra.
Qed.

Section Accurate.

Variables (eps2 xa ya xb yb m : float32).

Hypothesis Heps : regular eps2 = true.
Hypothesis Heps_nonneg : (0 <= B2R eps2)%R.
Hypothesis Hxa : regular xa = true.
Hypothesis Hya : regular ya = true.
Hypothesis Hxb : regular xb = true.
Hypothesis Hyb : regular yb = true.
Hypothesis Hm : regular m = true.

Let r_x := sub xb xa.
Let r_y := sub yb ya.
Let s := add (mul r_x r_x) (mul r_y r_y).
Let d2 := add s eps2.
Let d4 := mul d2 d2.
Let d6 := mul d4 d2.
Let divisor := Binary32.sqrt d6.
Let inverse := div (of_int 1) divisor.
Let scale := mul m inverse.

Let R_x := (B2R xb - B2R xa)%R.
Let R_y := (B2R yb - B2R ya)%R.
Let D2 := (R_x * R_x + R_y * R_y + B2R eps2)%R.

Hypothesis Hrx : regular r_x = true.
Hypothesis Hry : regular r_y = true.
Hypothesis Hsx : product_in_range r_x r_x = true.
Hypothesis Hsy : product_in_range r_y r_y = true.
Hypothesis Hs : regular s = true.
Hypothesis Hd2 : regular d2 = true.
Hypothesis Hd4 : is_normal d4 = true.
Hypothesis Hd6 : is_normal d6 = true.
Hypothesis Hdiv : is_normal divisor = true.
Hypothesis Hinv : is_normal inverse = true.
Hypothesis Hscale : product_in_range m inverse = true.

Lemma distance_squared_accurate : approx 5 (B2R d2) D2 /\ (0 <= B2R s)%R.
Proof.
  pose proof (difference_approx xb xa Hxb Hxa Hrx) as Ax. fold r_x R_x in Ax.
  pose proof (difference_approx yb ya Hyb Hya Hry) as Ay. fold r_y R_y in Ay.
  destruct (product_accurate r_x r_x Hrx Hrx Hsx) as [Asx Rsx].
  destruct (product_accurate r_y r_y Hry Hry Hsy) as [Asy Rsy].
  pose proof (approx_trans _ _ _ _ _ Asx (approx_mul _ _ _ _ _ _ Ax Ax)) as Bx.
  pose proof (approx_trans _ _ _ _ _ Asy (approx_mul _ _ _ _ _ _ Ay Ay)) as By.
  cbn [Nat.add] in Bx, By.
  pose proof (sum_approx _ _ Rsx Rsy Hs) as As. fold s in As.
  assert (Px : (0 <= R_x * R_x)%R) by nra.
  assert (Py : (0 <= R_y * R_y)%R) by nra.
  pose proof (approx_trans _ _ _ _ _ As (approx_add _ _ _ _ _ Px Py Bx By)) as Bs.
  cbn [Nat.add] in Bs.
  pose proof (sum_approx _ _ Hs Heps Hd2) as Ad. fold d2 in Ad.
  assert (Ae : approx 4 (B2R eps2) (B2R eps2))
    by (apply (approx_weaken 0); [lia|apply approx_refl]).
  assert (Ps : (0 <= R_x * R_x + R_y * R_y)%R) by lra.
  pose proof (approx_trans _ _ _ _ _ Ad
                (approx_add _ _ _ _ _ Ps Heps_nonneg Bs Ae)) as Bd.
  cbn [Nat.add] in Bd. split; [exact Bd|].
  apply (approx_nonneg _ _ _ Bs Ps).
Qed.

Lemma distance_squared_positive : (0 < D2)%R /\ (0 <= B2R d2)%R.
Proof.
  destruct distance_squared_accurate as [Ad Ps].
  pose proof (sum_approx _ _ Hs Heps Hd2) as Az. fold d2 in Az.
  assert (P2 : (0 <= B2R d2)%R) by (apply (approx_nonneg _ _ _ Az); lra).
  assert (ND : D2 <> 0%R).
  { apply (approx_nonzero _ _ _ Ad). intros Z.
    pose proof (mul_result d2 d2 Hd2 Hd2) as Hr. fold d4 in Hr.
    rewrite Z, Rmult_0_l in Hr. pose proof (result_zero _ Hr) as Z4.
    apply (is_normal_nonzero d4 Hd4); [|assumption].
    apply (is_normal_regular _ _ (mul_result d2 d2 Hd2 Hd2) Hd4). }
  assert (0 <= D2)%R by (unfold D2; nra).
  split; [lra|assumption].
Qed.

Lemma inverse_accurate :
  approx 11 (B2R inverse) (1 / Rpower D2 (3 / 2)) /\ regular inverse = true.
Proof.
  destruct distance_squared_accurate as [Ad _].
  destruct distance_squared_positive as [PD P2].
  pose proof (mul_result d2 d2 Hd2 Hd2) as H4. fold d4 in H4.
  pose proof (is_normal_regular _ _ H4 Hd4) as R4.
  pose proof (approx_trans _ _ _ _ _ (approx_round _ _ H4 Hd4)
                (approx_mul _ _ _ _ _ _ Ad Ad)) as A4.
  cbn [Nat.add] in A4.
  pose proof (mul_result d4 d2 R4 Hd2) as H6. fold d6 in H6.
  pose proof (is_normal_regular _ _ H6 Hd6) as R6.
  pose proof (approx_trans _ _ _ _ _ (approx_round _ _ H6 Hd6)
                (approx_mul _ _ _ _ _ _ A4 Ad)) as A6.
  cbn [Nat.add] in A6.
  assert (P6 : (0 <= D2 * D2 * D2)%R) by (repeat apply Rmult_le_pos; lra).
  pose proof (approx_nonneg _ _ _ A6 P6) as Q6.
  pose proof (sqrt_result d6 R6 Q6) as Hq. fold divisor in Hq.
  pose proof (is_normal_regular _ _ Hq Hdiv) as Rq.
  pose proof (approx_sqrt 9 _ _ P6 (approx_weaken 17 (9 + 9) _ _ ltac:(lia) A6)) as Aq0.
  pose proof (approx_trans _ _ _ _ _ (approx_round _ _ Hq Hdiv) Aq0) as Aq.
  cbn [Nat.add] in Aq. rewrite (sqrt_cube_Rpower D2 PD) in Aq.
  destruct regular_one as [R1 E1].
  pose proof (is_normal_nonzero divisor Hdiv Rq) as Nq.
  pose proof (div_result (of_int 1) divisor R1 Rq Nq) as Hi. fold inverse in Hi.
  rewrite E1 in Hi.
  pose proof (approx_nonzero _ _ _ Aq Nq) as NP.
  pose proof (approx_trans _ _ _ _ _ (approx_round _ _ Hi Hinv)
                (approx_inv _ _ _ NP Aq)) as Ai.
  cbn [Nat.add] in Ai. split; [exact Ai|].
  apply (is_normal_regular _ _ Hi Hinv).
Qed.

Lemma component_accurate (u v : float32) :
  regular u = true -> regular v = true -> regular (sub u v) = true ->
  product_in_range (sub u v) scale = true ->
  approx 14 (B2R (add (S754_zero false) (mul (sub u v) scale)))
            (B2R m / Rpower D2 (3 / 2) * (B2R u - B2R v)) /\
  is_finite (add (S754_zero false) (mul (sub u v) scale)) = true.
Proof.
  intros Ru Rv Rr Hp.
  destruct inverse_accurate as [Ai Ri].
  destruct (product_accurate m inverse Hm Ri Hscale) as [As0 Rs]. fold scale in As0, Rs.
  pose proof (approx_trans _ _ _ _ _ As0
                (approx_mul _ _ _ _ _ _ (approx_refl (B2R m)) Ai)) as As.
  cbn [Nat.add] in As.
  pose proof (difference_approx u v Ru Rv Rr) as Ar.
  destruct (product_accurate (sub u v) scale Rr Rs Hp) as [Ap0 Rp].
  pose proof (approx_trans _ _ _ _ _ Ap0 (approx_mul _ _ _ _ _ _ Ar As)) as Ap.
  cbn [Nat.add] in Ap.
  destruct (add_zero_l (mul (sub u v) scale)) as [-> ->].
  split.
  - destruct Ap as [rho [E B]]. exists rho. split; [|exact B].
    rewrite E. unfold Rdiv. ring.
  - unfold regular in Rp. now apply andb_prop in Rp.
Qed.

End Accurate.

End Binary32Accuracy.

Module Binary32Examples.

Import Binary32 Binary32Division Binary32Rounding Binary32Operations
       Binary32Operations2 Binary32Results Binary32Bounds Binary32Kernel
       Binary32Accuracy.

Lemma F2R_bpow (k e : Z) : 0 <= k -> F2R (2 ^ k) e = bpow (k + e).
Proof. intros Hk. unfold F2R. now rewrite <- bpow_IZR, <- bpow_add. Qed.

Lemma B2R_power (k e : Z) (m : positive) :
  0 <= k -> Zpos m = 2 ^ k -> B2R (S754_finite false m e) = bpow (k + e).
Proof. intros Hk E. cbn [B2R cond_Zopp]. rewrite E. now apply F2R_bpow. Qed.

Lemma within_zero (k : Z) (s : bool) : within k (S754_zero s).
Proof.
  split; [reflexivity|]. cbn [B2R]. rewrite Rabs_R0.
  apply Rlt_le, bpow_pos.
Qed.

Lemma within_power (k e j : Z) (m : positive) :
  0 <= k -> Zpos m = 2 ^ k -> k + e <= j ->
  regular (S754_finite false m e) = true -> within j (S754_finite false m e).
Proof.
  intros Hk E Hj Hr. split; [assumption|].
  rewrite (B2R_power k e m Hk E). pose proof (bpow_pos (k + e)).
  rewrite Rabs_pos_eq by lra. now apply bpow_le.
Qed.

Lemma not_approx_zero (n : nat) (b : R) : b <> 0%R -> ~ approx n 0 b.
Proof.
  intros Hb [rho [E [L _]]]. pose proof (W_pow_inv n).
  symmetry in E. apply Rmult_integral in E. destruct E; [contradiction|lra].
Qed.

End Binary32Examples.

(** ** The force kernel *)

(** C3 (amended) — In binary32, for finite inputs and a non-negative
    softening constant, as long as no intermediate result of the kernel
    overflows or underflows ([kernel_in_range]), both components of the
    kernel's result are finite and each is the component of
    (B.mass / d2^1.5) * r, computed over the reals from the values of the
    inputs (r = B.position - A.position, d2 = |r|^2 + eps2), times a
    factor between W^-14 and W^14, where W = 1 / (1 - 2^-23) bounds the
    effect of one rounding: the relative error is below 2^-19. *)
Theorem kernel_formula
    (cf sf : Binary32.float32 -> Binary32.float32) (uc : Binary32.float32 -> Z)
    (eps2 : Binary32.float32) (A B : body_t Binary32.float32) :
  let AF := Binary32.arith cf sf uc in
  regular eps2 = true -> (0 <= B2R eps2)%R ->
  regular (x A) = true -> regular (y A) = true ->
  regular (x B) = true -> regular (y B) = true ->
  regular (mass B) = true ->
  kernel_in_range eps2 A B = true ->
  let a := calculate_newton_gravity_acceleration eps2 A B in
  let t := newton_acceleration (B2R eps2) (B2R (x A)) (B2R (y A))
             (B2R (x B)) (B2R (y B)) (B2R (mass B)) in
  kernel_finite a = true /\
  approx 14 (B2R (fst a)) (fst t) /\ approx 14 (B2R (snd a)) (snd t) /\
  (Rabs (B2R (fst a) - fst t) <= bpow (-19) * Rabs (fst t))%R /\
  (Rabs (B2R (snd a) - snd t) <= bpow (-19) * Rabs (snd t))%R.
Proof.
  intros AF He Pe Hxa Hya Hxb Hyb Hm Hk a t.
  unfold kernel_in_range in Hk. cbv zeta in Hk.
  do 12 (apply andb_prop in Hk; let H := fresh "K" in destruct Hk as [Hk H]).
  destruct (Binary32Accuracy.component_accurate eps2 (x A) (y A) (x B) (y B)
              (mass B) He Pe Hxa Hya Hxb Hyb Hm Hk K10 K9 K8 K7 K6 K5 K4 K3 K2 K1
              (x B) (x A) Hxb Hxa Hk K0) as [Ax Fx].
  destruct (Binary32Accuracy.component_accurate eps2 (x A) (y A) (x B) (y B)
              (mass B) He Pe Hxa Hya Hxb Hyb Hm Hk K10 K9 K8 K7 K6 K5 K4 K3 K2 K1
              (y B) (y A) Hyb Hya K10 K) as [Ay Fy].
  split; [unfold kernel_finite; apply andb_true_intro; split; [exact Fx|exact Fy]|].
  split; [exact Ax|]. split; [exact Ay|].
  split; now apply Binary32Accuracy.approx_relative_error.
Qed.

(** Bodies at (0,0) and (3,4), the second one of mass 2, softening
    constant 1. *)
Lemma kernel_formula_witness :
  let AF := Binary32.arith (fun v => v) (fun v => v) (fun _ => 0) in
  let eps2 := of_Z 1 in
  let A := mk_body f0 f0 f0 f0 f0 f0 f1 in
  let B := mk_body (of_Z 3) (of_Z 4) f0 f0 f0 f0 (of_Z 2) in
  let a := calculate_newton_gravity_acceleration eps2 A B in
  let t := newton_acceleration (B2R eps2) (B2R (x A)) (B2R (y A))
             (B2R (x B)) (B2R (y B)) (B2R (mass B)) in
  kernel_in_range eps2 A B = true /\
  kernel_finite a = true /\
  approx 14 (B2R (fst a)) (fst t) /\ approx 14 (B2R (snd a)) (snd t) /\
  (Rabs (B2R (fst a) - fst t) <= bpow (-19) * Rabs (fst t))%R /\
  (Rabs (B2R (snd a) - snd t) <= bpow (-19) * Rabs (snd t))%R.
Proof.
  intros AF eps2 A B.
  assert (Pe : (0 <= B2R eps2)%R).
  { replace (B2R eps2) with 1%R; [lra|].
    symmetry. apply Binary32Kernel.regular_one. }
  assert (Hk : kernel_in_range eps2 A B = true) by reflexivity.
  split; [exact Hk|].
  exact (kernel_formula (fun v => v) (fun v => v) (fun _ => 0) eps2 A B
           eq_refl Pe eq_refl eq_refl eq_refl eq_refl eq_refl Hk).
Defined.

(** Two bodies of mass 1 that are 2^22 apart, no softening: the cube of
    the squared distance, 2^132, overflows in binary32, the divisor is
    +infinity and the kernel returns (+0, +0), where the formula gives
    2^-44 for the first component. *)
Lemma kernel_overflow_far_apart :
  let AF := Binary32.arith (fun v => v) (fun v => v) (fun _ => 0) in
  let eps2 := f0 in
  let A := mk_body f0 f0 f0 f0 f0 f0 f1 in
  let B := mk_body (of_Z (2 ^ 22)) f0 f0 f0 f0 f0 f1 in
  let r_x := (x B - x A)%fl in
  let r_y := (y B - y A)%fl in
  let d2 := ((r_x * r_x + r_y * r_y) + eps2)%fl in
  let a := calculate_newton_gravity_acceleration eps2 A B in
  let t := newton_acceleration (B2R eps2) (B2R (x A)) (B2R (y A))
             (B2R (x B)) (B2R (y B)) (B2R (mass B)) in
  (regular eps2 && regular (x A) && regular (y A) && regular (x B) &&
   regular (y B) && regular (mass B) = true) /\
  B2R (x B) = bpow 22 /\
  (d2 * d2 * d2)%fl = S754_infinity false /\
  a = (S754_zero false, S754_zero false) /\
  fst t = bpow (-44) /\
  ~ approx 14 (B2R (fst a)) (fst t).
Proof.
  intros AF eps2 A B r_x r_y d2 a t.
  assert (Ex : B2R (x B) = bpow 22).
  { apply (Binary32Examples.B2R_power 23 (-1)); [lia|reflexivity]. }
  assert (Em : B2R (mass B) = 1%R) by apply Binary32Kernel.regular_one.
  assert (Et : fst t = bpow (-44)).
  { unfold t, newton_acceleration. cbn [fst]. rewrite Ex, Em.
    change (B2R eps2) with 0%R. change (B2R (x A)) with 0%R.
    change (B2R (y A)) with 0%R. change (B2R (y B)) with 0%R.
    replace ((bpow 22 - 0) * (bpow 22 - 0) + (0 - 0) * (0 - 0) + 0)%R
      with (bpow 44)
      by (change 44 with (22 + 22); rewrite Binary32Rounding.bpow_add; ring).
    pose proof (Binary32Rounding.bpow_pos 44) as P44.
    rewrite <- (Binary32Accuracy.sqrt_cube_Rpower _ P44).
    rewrite <- !Binary32Rounding.bpow_add. change (44 + 44 + 44) with (2 * 66).
    rewrite Binary32Kernel.sqrt_bpow.
    unfold Rdiv. rewrite Rmult_1_l, Binary32Kernel.bpow_inv, Rminus_0_r.
    rewrite <- Binary32Rounding.bpow_add. reflexivity. }
  split; [reflexivity|]. split; [exact Ex|]. split; [reflexivity|].
  split; [reflexivity|]. split; [exact Et|].
  rewrite Et. change (B2R (fst a)) with 0%R.
  apply Binary32Examples.not_approx_zero.
  pose proof (Binary32Rounding.bpow_pos (-44)). lra.
Qed.




(** At the suggested softening length of 100 two coincident bodies of
    mass 10000 exert no force on each other: in binary32 the kernel
    returns exactly (+0, +0). *)
Lemma softening_typical :
  let AF := Binary32.arith (fun v => v) (fun v => v) (fun _ => 0) in
  let eps2 := (of_Z 100 * of_Z 100)%fl in
  let A := mk_body fhalf fhalf f0 f0 f0 f0 (of_Z 10000) in
  calculate_newton_gravity_acceleration eps2 A A = (f0, f0) /\
  kernel_finite (calculate_newton_gravity_acceleration eps2 A A) = true.
Proof. vm_compute. split; reflexivity. Qed.

(** At the softening length 100, two bodies at the opposite ends of the
    binary32 range: the difference of the positions overflows, the
    inverse is zero and the kernel returns (NaN, +0). *)
Lemma position_overflow :
  let AF := Binary32.arith (fun v => v) (fun v => v) (fun _ => 0) in
  let eps2 := (of_Z 100 * of_Z 100)%fl in
  let FLT_MAX := S754_finite false 16777215 104 in
  let A := mk_body FLT_MAX f0 f0 f0 f0 f0 f1 in
  let B := mk_body (f0 - FLT_MAX)%fl f0 f0 f0 f0 f0 f1 in
  regular (x A) = true /\ regular (x B) = true /\
  (x B - x A)%fl = S754_infinity true /\
  calculate_newton_gravity_acceleration eps2 A B = (S754_nan, S754_zero false) /\
  kernel_finite (calculate_newton_gravity_acceleration eps2 A B) = false.
Proof. vm_compute. repeat split; reflexivity. Qed.


Section CompletedRunsHistory.

Context {F : Type} {AF : Arith F}.
Variable rand : nat -> Z.
Variable RAND_MAX : Z.

Lemma completed_run_history (c : config F) (iterations : Z) :
  6 <= argc c ->
  0 < body_count c < 2 ^ 31 -> 0 < world_size c ->
  body_count c mod world_size c = 0 ->
  to_size_t (time_period c / delta_time c)%fl = Some iterations ->
  0 <= iterations -> 8 * iterations * body_count c < 2 ^ 64 ->
  let r := main rand RAND_MAX c 0 in
  exit_status r = Exited 0 /\
  steps (trace r) = indices 0 (Z.to_nat iterations) /\
  stdout (trace r) =
    snapshot c (generated rand RAND_MAX c) ++ pair_lines (final_accelerations r) /\
  Z.of_nat (length (pair_lines (final_accelerations r))) =
    iterations * body_count c.
Proof.
  intros Ha Hn Hw Hm Hconv Hi Hs r. subst r. rewrite main_unfold by assumption.
  destruct (main_from_valid c (generated rand RAND_MAX c) iterations)
    as (bodies & accs & _ & Em & Hl & _ & _); try assumption.
  { apply generated_length. lia. }
  rewrite Em. cbn [exit_status trace final_accelerations app].
  change (Generate (body_count c) :: ?t) with ([Generate (body_count c)] ++ t).
  rewrite !steps_app, !stdout_app, !steps_prints, !stdout_prints,
          steps_steps, stdout_steps.
  cbn [steps stdout flat_map app]. rewrite app_nil_r.
  repeat split; try reflexivity.
  rewrite (pair_lines_length (Z.to_nat (iterations * body_count c))); nia.
Qed.

(** The result on rank 0 of a run on W processes is the result of the
    run of the same configuration on one process. *)
Lemma main_from_partition_invariant (c : config F) (initial : list (body_t F)) :
  0 < body_count c < 2 ^ 31 -> 0 < world_size c ->
  body_count c mod world_size c = 0 ->
  Z.of_nat (length initial) = body_count c ->
  main_from c initial 0 = main_from (on_one_process c) initial 0.
Proof.
  intros Hn Hw Hm Hlen. unfold main_from.
  change (body_count (on_one_process c)) with (body_count c).
  change (world_size (on_one_process c)) with 1.
  change (time_period (on_one_process c)) with (time_period c).
  change (delta_time (on_one_process c)) with (delta_time c).
  change (softening_length (on_one_process c)) with (softening_length c).
  rewrite Hm, Z.mod_1_r.
  rewrite (bodies_fit c), (bodies_fit (on_one_process c));
    try (unfold sizeof_body_t; cbn [body_count on_one_process]; lia);
    try assumption; [|apply Z.mod_1_r].
  change (body_count (on_one_process c)) with (body_count c).
  destruct (to_size_t (time_period c / delta_time c)%fl) as [iterations|];
    [|reflexivity].
  rewrite simulation_loop_partition_invariant by assumption. reflexivity.
Qed.

End CompletedRunsHistory.



(** The same with arguments that are binary32 numbers themselves: the
    time period 5 + 2^-21 and the step 1 + 2^-23 have an exact quotient
    below 5, which the division rounds to 5.0f. *)
Lemma quotient_rounds_up_to_five :
  let AF := Concrete.AF in
  let c := Concrete.near_five in
  let r := main Concrete.rand0 Concrete.RAND_MAX c 0 in
  valid_binary Binary32.prec Binary32.emax (time_period c) = true /\
  valid_binary Binary32.prec Binary32.emax (delta_time c) = true /\
  Qfloor (Binary32.value (time_period c) / Binary32.value (delta_time c)) = 4 /\
  to_size_t (time_period c / delta_time c)%fl = Some 5 /\
  exit_status r = Exited 0 /\
  steps (trace r) = [0; 1; 2; 3; 4] /\
  Z.of_nat (length (pair_lines (final_accelerations r))) = 5.
Proof. vm_compute. repeat split; reflexivity. Qed.


(** C2 — Two bodies of mass 1 at (0,0) and (1,0), at rest, softening
    length 0, step 0.01, one iteration: the run with one process and the
    run with two processes give the same result (trace, output, final
    bodies, history).  Body 0's acceleration is (1, 0), body 1's is
    (-1, 0); after the step body 0 has velocity (0.01, 0) and position
    (0.0001, 0), these decimals standing for the nearest binary32
    values. *)
Theorem two_body_scenario
    (cf sf : Binary32.float32 -> Binary32.float32) (uc : Binary32.float32 -> Z) :
  let AF := Binary32.arith cf sf uc in
  let r1 := main_from (TwoBody.scenario 1) TwoBody.initial 0 in
  let r2 := main_from (TwoBody.scenario 2) TwoBody.initial 0 in
  r1 = r2 /\
  exit_status r1 = Exited 0 /\
  exit_status (main_from (TwoBody.scenario 2) TwoBody.initial 1) = Exited 0 /\
  steps (trace r1) = [0] /\
  final_accelerations r1 =
    [TwoBody.one; TwoBody.zero; TwoBody.minus_one; TwoBody.zero] /\
  skipn 11 (stdout (trace r2)) =
    [Lpair TwoBody.one TwoBody.zero; Lpair TwoBody.minus_one TwoBody.zero] /\
  map (fun b => (ax b, ay b)) (final_bodies r2) =
    [(TwoBody.one, TwoBody.zero); (TwoBody.minus_one, TwoBody.zero)] /\
  option_map (fun b => (vx b, vy b)) (hd_error (final_bodies r2)) =
    Some (TwoBody.centi, TwoBody.zero) /\
  option_map (fun b => (x b, y b)) (hd_error (final_bodies r2)) =
    Some (TwoBody.myriadth, TwoBody.zero) /\
  (Qabs (Binary32.value TwoBody.centi - (1 # 100)) < 1 # (2 ^ 31))%Q /\
  (Qabs (Binary32.value TwoBody.myriadth - (1 # 10000)) < 1 # (2 ^ 38))%Q.
Proof.
  intros AF r1 r2.
  assert (E1 : r1 = r2) by (vm_compute; reflexivity).
  split; [exact E1|]. rewrite E1.
  split; [vm_compute; reflexivity|].
  split; [vm_compute; reflexivity|].
  split; [vm_compute; reflexivity|].
  split; [vm_compute; reflexivity|].
  split; [vm_compute; reflexivity|].
  split; [vm_compute; reflexivity|].
  split; [vm_compute; reflexivity|].
  split; [vm_compute; reflexivity|].
  split; vm_compute; reflexivity.
Qed.

(** ** Further properties of whole runs *)

Section FurtherRuns.

Context {F : Type} {AF : Arith F}.
Variable rand : nat -> Z.
Variable RAND_MAX : Z.

Lemma generations_prints (l : list (line F)) : generations (map Print l) = [].
Proof. induction l; cbn; auto. Qed.

Lemma generations_steps (ks : list Z) : generations (F := F) (map Step ks) = [].
Proof. induction ks; cbn; auto. Qed.

Lemma generations_app (t1 t2 : list (event F)) :
  generations (t1 ++ t2) = generations t1 ++ generations t2.
Proof. apply flat_map_app. Qed.

Lemma usage_not_printed (l : list (line F)) : ~ In Usage (map Print l).
Proof. intros H. apply in_map_iff in H. destruct H as (a & E & _). discriminate. Qed.

Lemma usage_not_step (ks : list Z) : ~ In (Usage (F := F)) (map Step ks).
Proof. intros H. apply in_map_iff in H. destruct H as (a & E & _). discriminate. Qed.

(** X1 — For a positive body count that the process count divides, the
    body of index i is evaluated by the rank i / (N/W) and by no other:
    an index belongs to the loop range of rank r exactly when it is a
    valid index whose quotient by the partition size is r. *)
Theorem partition_owner (n w r i : Z) :
  0 < n < 2 ^ 64 -> 0 < w -> n mod w = 0 -> 0 <= r < w ->
  (In i (partition_indices n w r) <-> 0 <= i < n /\ i / (n / w) = r).
Proof.
  intros Hn Hw Hm Hr.
  destruct (partition_bounds n w r Hn Hw Hm Hr) as (Hb & En & _ & _ & Hle).
  rewrite (proj1 (partition_exact n w Hn Hw Hm) r Hr), in_indices.
  rewrite Z2Nat.id by lia. split.
  - intros Hi. split; [nia|].
    symmetry. apply Z.div_unique with (r := i - r * (n / w)); lia.
  - intros [Hi <-].
    pose proof (Z.mul_div_le i (n / w) Hb).
    pose proof (Z.mul_succ_div_gt i (n / w) Hb). lia.
Qed.

(** X2 — The result on rank 0 (exit status, everything printed, final
    bodies and acceleration history) of a run on W processes is the
    result of the same configuration run on a single process, for every
    positive body count below 2^31 that W divides. *)
Theorem run_independent_of_process_count (c : config F) :
  6 <= argc c ->
  0 < body_count c < 2 ^ 31 -> 0 < world_size c ->
  body_count c mod world_size c = 0 ->
  main rand RAND_MAX c 0 = main rand RAND_MAX (on_one_process c) 0.
Proof.
  intros Ha Hn Hw Hm. rewrite !main_unfold by assumption.
  change (generated rand RAND_MAX (on_one_process c))
    with (generated rand RAND_MAX c).
  apply main_from_partition_invariant; try assumption.
  apply generated_length. lia.
Qed.

(** X3 — A process other than rank 0 never writes to stdout, never
    generates bodies and holds no acceleration history, whatever the
    configuration and however its run ends. *)
Theorem worker_rank_silent (c : config F) (rank : Z) :
  rank <> 0 ->
  let r := main rand RAND_MAX c rank in
  stdout (trace r) = [] /\ generations (trace r) = [] /\
  final_accelerations r = [].
Proof.
  intros Hr r. subst r. unfold main.
  destruct (argc c <? 6); [cbn; auto|].
  unfold main_from.
  destruct (to_size_t (time_period c / delta_time c)%fl) as [iterations|];
    [|cbn; auto].
  destruct (Z.eqb_spec rank 0) as [|_]; [contradiction|].
  destruct (negb (body_count c mod world_size c =? 0)); [cbn; auto|].
  destruct (simulation_loop _ _ _ _ _ _) as [[bodies accs]|]; [|cbn; auto].
  cbn [trace final_bodies final_accelerations].
  now rewrite stdout_steps, generations_steps.
Qed.


(** X5 — The usage message is printed, and main returns EXIT_FAILURE,
    exactly when fewer than five arguments are given (argc < 6); such a
    run does nothing else, on any rank. *)
Theorem usage_exactly_on_missing_arguments (c : config F) (rank : Z) :
  let r := main rand RAND_MAX c rank in
  (In Usage (trace r) <-> argc c < 6) /\
  (exit_status r = Exited EXIT_FAILURE <-> argc c < 6) /\
  (argc c < 6 -> r = mk_result (Exited EXIT_FAILURE) [Usage] [] []).
Proof.
  intros r. subst r. unfold main.
  destruct (Z.ltb_spec (argc c) 6) as [Hlt|Hge].
  - cbn. repeat split; auto.
  - assert (Hno : ~ In Usage (trace (main_from c (generated rand RAND_MAX c) rank))
                  /\ exit_status (main_from c (generated rand RAND_MAX c) rank)
                     <> Exited EXIT_FAILURE).
    { unfold main_from.
      destruct (to_size_t (time_period c / delta_time c)%fl) as [iterations|];
        [|cbn; split; [tauto|discriminate]].
      assert (Hpro : forall t,
                 (if rank =? 0
                  then
                    if body_count c <=?
                       malloc_capacity sizeof_body_t (mpi_body_count c)
                    then match print_bodies (generated rand RAND_MAX c)
                                 (indices 0 (Z.to_nat (body_count c))) with
                         | Some records =>
                             Some (Generate (body_count c)
                                   :: map Print (Lcount (body_count c)
                                        :: Lfloat (time_period c)
                                        :: Lfloat (delta_time c) :: records))
                         | None => None
                         end
                    else None
                  else Some []) = Some t -> ~ In Usage t).
      { intros t Et. destruct (rank =? 0).
        - destruct (_ <=? _); [|discriminate].
          destruct (print_bodies _ _) as [records|]; [|discriminate].
          inversion Et; subst t. intros [H|H]; [discriminate|].
          exact (usage_not_printed
                   (Lcount (body_count c) :: Lfloat (time_period c)
                    :: Lfloat (delta_time c) :: records) H).
        - inversion Et. tauto. }
      destruct (if rank =? 0 then _ else _) as [prologue|] eqn:Ep.
      2:{ cbn. split; [intros [H|[]]; discriminate|discriminate]. }
      specialize (Hpro prologue eq_refl).
      destruct (negb (body_count c mod world_size c =? 0));
        [cbn; split; [assumption|discriminate]|].
      destruct (simulation_loop _ _ _ _ _ _) as [[bodies accs]|];
        [|cbn; split; [assumption|discriminate]].
      destruct (rank =? 0).
      - destruct (print_accelerations _ _ _) as [history|]; cbn [trace exit_status].
        + split; [|discriminate]. intros H.
          apply in_app_or in H. destruct H as [H|H]; [contradiction|].
          apply in_app_or in H. destruct H as [H|H].
          * now apply usage_not_step in H.
          * now apply usage_not_printed in H.
        + split; [|discriminate]. intros H.
          apply in_app_or in H. destruct H as [H|H]; [contradiction|].
          now apply usage_not_step in H.
      - cbn [trace exit_status]. split; [apply usage_not_step|discriminate]. }
    destruct Hno as [Hu He]. fold (generated rand RAND_MAX c).
    repeat split; try tauto; try lia.
Qed.

End FurtherRuns.

(** ** Bounds of the arrays *)

Section FurtherBounds.

Context {F : Type} {AF : Arith F}.
Variable rand : nat -> Z.
Variable RAND_MAX : Z.

Lemma integrate_loop_overflow (dt : F) (capacity : Z) (todo : list (body_t F)) :
  forall (done : list (body_t F)) (accelerations : list F),
    Z.of_nat (length accelerations) <= capacity ->
    capacity < Z.of_nat (length accelerations) + 2 * Z.of_nat (length todo) ->
    integrate_loop dt capacity
                   (indices (Z.of_nat (length done)) (length todo))
                   (done ++ todo) accelerations = None.
Proof.
  induction todo as [|b t IH]; intros done accs Hle Hlt.
  - cbn [length] in Hlt. lia.
  - cbn [length] in *. rewrite indices_S. cbn [integrate_loop].
    rewrite load_app_here, store_app_here.
    destruct (Z.ltb_spec (Z.of_nat (length accs) + 1) capacity); [|reflexivity].
    replace (done ++ integrate b dt :: t)
      with ((done ++ [integrate b dt]) ++ t) by now rewrite <- app_assoc.
    replace (Z.of_nat (length done) + 1)
      with (Z.of_nat (length (done ++ [integrate b dt])))
      by (rewrite length_app; cbn; lia).
    apply IH; rewrite length_app; cbn [length]; lia.
Qed.

Lemma simulation_loop_overflow (c : config F) (s2 : F) (capacity : Z) :
  0 < body_count c < 2 ^ 31 -> 0 < world_size c ->
  body_count c mod world_size c = 0 ->
  forall (trips : nat) (bodies : list (body_t F)) (accelerations : list F),
    Z.of_nat (length bodies) = body_count c ->
    Z.of_nat (length accelerations) <= capacity ->
    capacity < Z.of_nat (length accelerations)
               + 2 * body_count c * Z.of_nat trips ->
    simulation_loop c s2 (body_count c / world_size c) capacity trips
                    (bodies, accelerations) = None.
Proof.
  intros Hn Hw Hm. induction trips as [|trips IH]; intros bodies accs Hlen Hle Hlt.
  - lia.
  - cbn [simulation_loop].
    destruct (Z.le_gt_cases (Z.of_nat (length accs) + 2 * body_count c) capacity)
      as [Hfit|Hover].
    + destruct (iteration_total c s2 capacity bodies accs Hn Hw Hm Hlen Hfit)
        as (g & Hg & Eg).
      rewrite Eg. apply Forall2_length in Hg.
      apply IH.
      * rewrite length_map. lia.
      * rewrite length_app, recorded_length. lia.
      * rewrite length_app, recorded_length. nia.
    + rewrite iteration_spec by assumption.
      destruct (forces_total s2 (body_count c) bodies Hlen) as (g & Eg & Hg).
      rewrite Eg. apply Forall2_length in Hg.
      replace (Z.to_nat (body_count c)) with (length g) by lia.
      rewrite (integrate_loop_overflow (delta_time c) capacity g []); [reflexivity|lia|lia].
Qed.


Lemma compute_zero_bodies (s2 : F) : compute s2 0 0 [] 0 = None.
Proof.
  unfold compute.
  change (partition_begin 0 0) with 0.
  change (partition_end 0 0 0) with (2 ^ 64 - 1).
  rewrite force_loop_out_of_bounds; [reflexivity| |reflexivity].
  unfold partition_trips. change (0 <=? 2 ^ 64 - 1) with true. cbv iota. lia.
Qed.

(** X7 — With a body count of zero and at least one iteration, the loop
    of rank 0 starts at index 0 of an empty array: the run is undefined
    on every rank, for every number of processes. *)
Theorem zero_bodies_undefined (c : config F) (rank iterations : Z) :
  6 <= argc c -> body_count c = 0 -> 0 < world_size c ->
  to_size_t (time_period c / delta_time c)%fl = Some iterations ->
  0 < iterations ->
  exit_status (main rand RAND_MAX c rank) = Undefined.
Proof.
  intros Ha En Hw Hconv Hi.
  rewrite main_unfold by assumption. unfold main_from.
  assert (Eg : generated rand RAND_MAX c = []).
  { apply length_zero_iff_nil. pose proof (generated_length rand RAND_MAX c). lia. }
  rewrite Hconv, Eg, En. rewrite Z.mod_0_l by lia. cbn [negb Z.eqb].
  change (Z.to_nat 0) with O. cbn [indices seq map print_bodies].
  assert (El : forall capacity,
             simulation_loop c (softening_length c * softening_length c)%fl
                 (0 / world_size c) capacity
                 (Z.to_nat iterations) ([], []) = None).
  { intros capacity. destruct (Z.to_nat iterations) as [|trips] eqn:Et; [lia|].
    cbn [simulation_loop]. unfold iteration. rewrite En.
    rewrite Z.div_0_l by lia.
    destruct (Z.to_nat (world_size c)) as [|w] eqn:Ew; [lia|].
    rewrite indices_S. cbn [map].
    change (MPI_Bcast [] 0 0) with (Some (@nil (body_t F))).
    cbv iota. rewrite compute_zero_bodies. reflexivity. }
  rewrite El. destruct (rank =? 0); [destruct (_ <=? _)|]; reflexivity.
Qed.

Lemma recorded_integrate (bodies : list (body_t F)) (dt : F) :
  recorded (map (fun b => integrate b dt) bodies) = recorded bodies.
Proof.
  unfold recorded. induction bodies as [|b t IH]; [reflexivity|].
  cbn [map flat_map]. now rewrite IH.
Qed.

Lemma simulation_loop_tail (c : config F) (s2 : F) (capacity : Z) :
  0 < body_count c < 2 ^ 31 -> 0 < world_size c ->
  body_count c mod world_size c = 0 ->
  forall (trips : nat) (bodies : list (body_t F)) (accelerations : list F),
    Z.of_nat (length bodies) = body_count c ->
    Z.of_nat (length accelerations) + 2 * body_count c * Z.of_nat (S trips)
      <= capacity ->
    exists bodies' earlier,
      simulation_loop c s2 (body_count c / world_size c) capacity (S trips)
                      (bodies, accelerations) =
        Some (bodies', earlier ++ recorded bodies') /\
      Z.of_nat (length earlier) =
        Z.of_nat (length accelerations) + 2 * body_count c * Z.of_nat trips.
Proof.
  intros Hn Hw Hm. induction trips as [|trips IH]; intros bodies accs Hlen Hcap.
  - destruct (iteration_total c s2 capacity bodies accs Hn Hw Hm Hlen)
      as (g & Hg & Eg); [lia|].
    exists (map (fun b => integrate b (delta_time c)) g), accs.
    cbn [simulation_loop]. rewrite Eg, recorded_integrate. split; [reflexivity|lia].
  - destruct (iteration_total c s2 capacity bodies accs Hn Hw Hm Hlen)
      as (g & Hg & Eg); [nia|].
    apply Forall2_length in Hg.
    destruct (IH (map (fun b => integrate b (delta_time c)) g)
                 (accs ++ recorded g)) as (b' & pre & E & Hpre).
    { rewrite length_map. lia. }
    { rewrite length_app, recorded_length. nia. }
    exists b', pre. split.
    + change (simulation_loop c s2 (body_count c / world_size c) capacity
                (S (S trips)) (bodies, accs))
        with (match iteration c s2 (body_count c / world_size c) capacity
                      (bodies, accs) with
              | Some st' => simulation_loop c s2 (body_count c / world_size c)
                              capacity (S trips) st'
              | None => None
              end).
      rewrite Eg. exact E.
    + rewrite Hpre, length_app, recorded_length. nia.
Qed.




End FurtherBounds.

(** ** Edge cases of the arithmetic *)

Lemma sub_self (v : Binary32.float32) :
  Binary32.is_finite v = true -> Binary32.sub v v = S754_zero false.
Proof.
  destruct v as [[|]|[|]| |s m e]; try discriminate; try reflexivity.
  intros _. unfold Binary32.sub, SFsub. now rewrite Z.sub_diag.
Qed.

(** X10 — With a softening length of zero, two bodies at the same finite
    position give the kernel a squared distance of +0: it divides by
    zero and returns (NaN, NaN), whatever the masses. *)
Theorem coincident_bodies_without_softening
    (cf sf : Binary32.float32 -> Binary32.float32) (uc : Binary32.float32 -> Z)
    (A B : body_t Binary32.float32) :
  let AF := Binary32.arith cf sf uc in
  Binary32.is_finite (x A) = true -> Binary32.is_finite (y A) = true ->
  x B = x A -> y B = y A ->
  calculate_newton_gravity_acceleration (f0 * f0)%fl A B = (S754_nan, S754_nan).
Proof.
  intros AF Hx Hy Ex Ey. unfold calculate_newton_gravity_acceleration.
  rewrite Ex, Ey.
  change (fsub (x A) (x A)) with (Binary32.sub (x A) (x A)).
  change (fsub (y A) (y A)) with (Binary32.sub (y A) (y A)).
  rewrite !sub_self by assumption.
  destruct (mass B) as [[|]|[|]| |[|] m e]; reflexivity.
Qed.

(** ** Concrete runs *)


#[local] Existing Instance Concrete.AF.







(** *** Further concrete runs *)

Lemma partition_owner_witness :
  0 < 6 < 2 ^ 64 /\ 0 < 3 /\ 6 mod 3 = 0 /\ 0 <= 1 < 3 /\
  (In 3 (partition_indices 6 3 1) <-> 0 <= 3 < 6 /\ 3 / (6 / 3) = 1).
Proof.
  assert (H1 : 0 < 6 < 2 ^ 64) by lia.
  assert (H2 : 0 < 3) by lia.
  assert (H3 : 6 mod 3 = 0) by reflexivity.
  assert (H4 : 0 <= 1 < 3) by lia.
  repeat (split; [assumption|]).
  exact (partition_owner 6 3 1 3 H1 H2 H3 H4).
Defined.

Lemma run_independent_of_process_count_witness :
  let c := Concrete.pair in
  6 <= argc c /\ 0 < body_count c < 2 ^ 31 /\ 0 < world_size c /\
  body_count c mod world_size c = 0 /\
  main Concrete.rand0 Concrete.RAND_MAX c 0 =
  main Concrete.rand0 Concrete.RAND_MAX (on_one_process c) 0.
Proof.
  intros c.
  assert (H1 : 6 <= argc c) by (cbn; lia).
  assert (H2 : 0 < body_count c < 2 ^ 31) by (cbn; lia).
  assert (H3 : 0 < world_size c) by (cbn; lia).
  assert (H4 : body_count c mod world_size c = 0) by reflexivity.
  repeat (split; [assumption|]).
  exact (@run_independent_of_process_count _ Concrete.AF Concrete.rand0
           Concrete.RAND_MAX c H1 H2 H3 H4).
Defined.

Lemma worker_rank_silent_witness :
  1 <> 0 /\
  stdout (trace (main Concrete.rand0 Concrete.RAND_MAX Concrete.pair 1)) = [].
Proof.
  assert (H1 : 1 <> 0) by discriminate.
  split; [assumption|].
  exact (proj1 (@worker_rank_silent _ Concrete.AF Concrete.rand0
                  Concrete.RAND_MAX Concrete.pair 1 H1)).
Defined.





Lemma zero_bodies_undefined_witness :
  let c := Edge.no_bodies in
  6 <= argc c /\ body_count c = 0 /\ 0 < world_size c /\
  to_size_t (time_period c / delta_time c)%fl = Some 1 /\ 0 < 1 /\
  exit_status (main Concrete.rand0 Concrete.RAND_MAX c 1) = Undefined.
Proof.
  intros c.
  assert (H1 : 6 <= argc c) by (cbn; lia).
  assert (H2 : body_count c = 0) by reflexivity.
  assert (H3 : 0 < world_size c) by (cbn; lia).
  assert (H4 : to_size_t (time_period c / delta_time c)%fl = Some 1) by reflexivity.
  assert (H5 : 0 < 1) by lia.
  repeat (split; [assumption|]).
  exact (@zero_bodies_undefined _ Concrete.AF Concrete.rand0
           Concrete.RAND_MAX c 1 1 H1 H2 H3 H4 H5).
Defined.


Lemma coincident_bodies_without_softening_witness :
  let A := mk_body Concrete.one Concrete.two f0 f0 f0 f0 Concrete.one in
  let B := mk_body Concrete.one Concrete.two f0 f0 f0 f0 Concrete.three in
  Binary32.is_finite (x A) = true /\ Binary32.is_finite (y A) = true /\
  x B = x A /\ y B = y A /\
  calculate_newton_gravity_acceleration (f0 * f0)%fl A B = (S754_nan, S754_nan).
Proof.
  intros A B.
  assert (H1 : Binary32.is_finite (x A) = true) by reflexivity.
  assert (H2 : Binary32.is_finite (y A) = true) by reflexivity.
  assert (H3 : x B = x A) by reflexivity.
  assert (H4 : y B = y A) by reflexivity.
  repeat (split; [assumption|]).
  exact (coincident_bodies_without_softening (fun v => v) (fun v => v)
           (fun _ => 0) A B H1 H2 H3 H4).
Defined.
